(** * The localization plugin's asset processor

    A shallow embedding of [webpack/localization-plugin/src/AssetProcessor.ts]
    (with the constants of [utilities/Constants.ts]) and the properties of its
    parser, its two reconstructors and its JSONP resolver.

    Conventions of the embedding:
    - a JavaScript string is a [string], its characters standing for the
      code units, and [String.length] is its [.length];
    - a [number] holding a size is a [Z];
    - a call that may throw returns a [completion];
    - [ILocaleElementMap] is a [gmap string string], a missing key reads as
      [None] ([undefined]); the keys are ordinary locale names (no key
      inherited from [Object.prototype]);
    - a [Set<string>] that is iterated is the list of its elements in
      insertion order;
    - [PLACEHOLDER_REGEX] is shared by all the calls of the parser: its
      [lastIndex] is passed to the parser and returned by it;
    - [plugin.getDataForSerialNumber], [chunk.getAllAsyncChunks] and
      [EntityMarker.getMark] are given: a function, a list and a field. *)

From Stdlib Require Import ZArith Ascii.
From Stdlib Require String DecimalString.
From stdpp Require Import base option list strings gmap.

Local Open Scope Z_scope.

(** ** JavaScript completions *)

Inductive JsError : Type :=
| TypeError (message : string)
| Error (message : string).

Inductive completion (A : Type) : Type :=
| Normal (value : A)
| Throw (e : JsError).
Arguments Normal {A} value.
Arguments Throw {A} e.

#[global] Instance completion_ret : MRet completion := @Normal.
#[global] Instance completion_bind : MBind completion :=
  fun A B (k : A → completion B) (c : completion A) =>
    match c with
    | Normal a => k a
    | Throw e => Throw e
    end.

(** [for (const x of l) body], the loop state threaded through [body]; a
    throw leaves the loop. *)
Fixpoint for_of {A S : Type} (body : A → S → completion S) (l : list A) (s : S)
  : completion S :=
  match l with
  | [] => Normal s
  | x :: l' => s' ← body x s; for_of body l' s'
  end.

(** ** JavaScript strings *)

Module Js.

Definition quotemark : ascii := "034"%char.
Definition apostrophe : ascii := "'"%char.
Definition dq : string := String quotemark "".

(** [array.join('')] *)
Fixpoint join (parts : list string) : string :=
  match parts with
  | [] => ""
  | p :: parts' => p +:+ join parts'
  end.

(** [s.replace(/c/g, by)] for a one-character pattern [c] and a
    replacement [by] without [$]. *)
Fixpoint replace_all (c : ascii) (by_ : string) (s : string) : string :=
  match s with
  | EmptyString => ""
  | String a s' =>
      if Ascii.eqb a c then by_ +:+ replace_all c by_ s'
      else String a (replace_all c by_ s')
  end.

Fixpoint drop (n : nat) (s : string) : string :=
  match n, s with
  | O, _ => s
  | S n', String _ s' => drop n' s'
  | S _, EmptyString => ""
  end.

Fixpoint take (n : nat) (s : string) : string :=
  match n, s with
  | S n', String a s' => String a (take n' s')
  | _, _ => ""
  end.

(** [s.substring(a, b)]: the arguments are swapped when [a > b]. *)
Definition substring (s : string) (a b : nat) : string :=
  take (Nat.max a b - Nat.min a b) (drop (Nat.min a b) s).

(** [s.substr(a)] for [a >= 0]. *)
Definition substr (s : string) (a : nat) : string := drop a s.

(** A value is falsy when it is [undefined] or the empty string. *)
Definition falsy (v : option string) : bool :=
  match v with
  | None => true
  | Some EmptyString => true
  | Some _ => false
  end.

(** [`${v}`] for a [string | undefined]. *)
Definition template (v : option string) : string :=
  match v with
  | Some s => s
  | None => "undefined"
  end.

End Js.

(** ** Reconstruction elements *)

Definition valueFn_t : Type := string → option string → completion string.

Inductive IReconstructionElement : Type :=
| static (staticString : string)
| localized (values : gmap string string) (size : Z)
            (stringName : string) (locFilePath : string)
| dynamic (valueFn : valueFn_t) (size : Z) (token : option string).

Record IParseResult : Type := {
  parse_issues : list string;
  reconstructionSeries : list IReconstructionElement
}.

Record IReconstructedString : Type := {
  source : string;
  size : Z
}.

Record ILocalizedReconstructionResult : Type := {
  loc_result : gmap string IReconstructedString;
  loc_issues : list string
}.

Record INonLocalizedReconstructionResult : Type := {
  nonloc_result : IReconstructedString;
  nonloc_issues : list string
}.

(** The variables a reconstruction loop updates: the [issues] array, the
    [reconstruction] array and [sizeDiff]. *)
Record loop_vars : Type := {
  issues : list string;
  reconstruction : list string;
  sizeDiff : Z
}.

Definition len (s : string) : Z := Z.of_nat (String.length s).

(** ** [AssetProcessor._reconstructLocalized] *)

Definition missing_issue (stringName locFilePath locale : string) : string :=
  "The string " +:+ Js.dq +:+ stringName +:+ Js.dq +:+ " in " +:+ Js.dq
    +:+ locFilePath +:+ Js.dq +:+ " is missing in " +:+ "the locale " +:+ locale.

Definition MISSING_STRING : string := "-- MISSING STRING --".

(** The replacement texts: a backslash, then [u0022] and [u0027]. *)
Definition u0022 : string := String "092" "u0022".
Definition u0027 : string := String "092" "u0027".

Definition escape_quotes (newValue : string) : string :=
  (* Replace the quotemark character with a unicode-escaped character *)
  let newValue := Js.replace_all Js.quotemark u0022 newValue in
  (* Replace the apostrophe character with a unicode-escaped character *)
  let newValue := Js.replace_all Js.apostrophe u0027 newValue in
  newValue.

(** The body of the [switch] for one element of the series. *)
Definition reconstructLocalized_element
    (fillMissingTranslationStrings : bool) (defaultLocale locale : string)
    (element : IReconstructionElement) (v : loop_vars) : completion loop_vars :=
  match element with
  | static staticString =>
      Normal {| issues := issues v;
                reconstruction := reconstruction v ++ [staticString];
                sizeDiff := sizeDiff v |}
  | localized values size stringName locFilePath =>
      let newValue : option string := values !! locale in
      let '(newValue, issues') :=
        if Js.falsy newValue then
          if fillMissingTranslationStrings then
            (values !! defaultLocale, issues v)
          else
            (Some MISSING_STRING,
             issues v ++ [missing_issue stringName locFilePath locale])
        else (newValue, issues v) in
      match newValue with
      | None => Throw (TypeError "Cannot read property 'replace' of undefined")
      | Some newValue =>
          let newValue := escape_quotes newValue in
          Normal {| issues := issues';
                    reconstruction := reconstruction v ++ [newValue];
                    sizeDiff := sizeDiff v + (len newValue - size) |}
      end
  | dynamic valueFn size token =>
      newValue ← valueFn locale token;
      Normal {| issues := issues v;
                reconstruction := reconstruction v ++ [newValue];
                sizeDiff := sizeDiff v + (len newValue - size) |}
  end.

(** The body of the loop over the locales: one walk of the series, then
    [localizedResults.set(locale, ...)]. *)
Definition reconstructLocalized_locale
    (reconstructionSeries : list IReconstructionElement)
    (fillMissingTranslationStrings : bool) (defaultLocale : string)
    (initialSize : Z) (locale : string)
    (st : gmap string IReconstructedString * list string)
  : completion (gmap string IReconstructedString * list string) :=
  v ← for_of
         (reconstructLocalized_element fillMissingTranslationStrings
            defaultLocale locale)
         reconstructionSeries
         {| issues := st.2; reconstruction := []; sizeDiff := 0 |};
  let newAssetSource := Js.join (reconstruction v) in
  Normal (<[locale := {| source := newAssetSource;
                         size := initialSize + sizeDiff v |}]> st.1,
          issues v).

Definition _reconstructLocalized
    (reconstructionSeries : list IReconstructionElement)
    (locales : list string)
    (fillMissingTranslationStrings : bool) (defaultLocale : string)
    (initialSize : Z) : completion ILocalizedReconstructionResult :=
  st ← for_of
          (reconstructLocalized_locale reconstructionSeries
             fillMissingTranslationStrings defaultLocale initialSize)
          locales (∅, []);
  Normal {| loc_result := st.1; loc_issues := st.2 |}.

(** ** [AssetProcessor._reconstructNonLocalized] *)

Definition not_expected_issue (stringName locFilePath : string) : string :=
  "The string " +:+ Js.dq +:+ stringName +:+ Js.dq +:+ " in " +:+ Js.dq
    +:+ locFilePath +:+ Js.dq +:+ " appeared in an asset "
    +:+ "that is not expected to contain localized resources.".

Definition NOT_EXPECTED_TO_BE_LOCALIZED : string :=
  "-- NOT EXPECTED TO BE LOCALIZED --".

Definition reconstructNonLocalized_element (noStringsLocaleName : string)
    (element : IReconstructionElement) (v : loop_vars) : completion loop_vars :=
  match element with
  | static staticString =>
      Normal {| issues := issues v;
                reconstruction := reconstruction v ++ [staticString];
                sizeDiff := sizeDiff v |}
  | localized values size stringName locFilePath =>
      let issues' := issues v ++ [not_expected_issue stringName locFilePath] in
      let newValue := NOT_EXPECTED_TO_BE_LOCALIZED in
      Normal {| issues := issues';
                reconstruction := reconstruction v ++ [newValue];
                sizeDiff := sizeDiff v + (len newValue - size) |}
  | dynamic valueFn size token =>
      newValue ← valueFn noStringsLocaleName token;
      Normal {| issues := issues v;
                reconstruction := reconstruction v ++ [newValue];
                sizeDiff := sizeDiff v + (len newValue - size) |}
  end.

Definition _reconstructNonLocalized
    (reconstructionSeries : list IReconstructionElement)
    (initialSize : Z) (noStringsLocaleName : string)
  : completion INonLocalizedReconstructionResult :=
  v ← for_of (reconstructNonLocalized_element noStringsLocaleName)
         reconstructionSeries
         {| issues := []; reconstruction := []; sizeDiff := 0 |};
  let newAssetSource := Js.join (reconstruction v) in
  Normal {| nonloc_issues := issues v;
            nonloc_result := {| source := newAssetSource;
                                size := initialSize + sizeDiff v |} |}.

(** ** [Constants] *)

Module Constants.
Definition STRING_PLACEHOLDER_PREFIX : string :=
  "_LOCALIZED_STRING_f12dy0i7_n4bo_dqwj_39gf_sasqehjmihz9".
Definition STRING_PLACEHOLDER_LABEL : string := "A".
Definition LOCALE_NAME_PLACEHOLDER_LABEL : string := "B".
Definition JSONP_PLACEHOLDER_LABEL : string := "C".
Definition LOCALE_NAME_PLACEHOLDER : string :=
  STRING_PLACEHOLDER_PREFIX +:+ "_" +:+ LOCALE_NAME_PLACEHOLDER_LABEL +:+ "_0".
Definition JSONP_PLACEHOLDER : string :=
  STRING_PLACEHOLDER_PREFIX +:+ "_" +:+ JSONP_PLACEHOLDER_LABEL
    +:+ "+chunkId+_0".
End Constants.

(** ** [PLACEHOLDER_REGEX]

    The pattern is the prefix, [_], a label [[A-C]], an optional token
    [\+[^+]+\+], [_] and the digits [\d+], with the flag [g]. The regular
    expression object keeps its [lastIndex] between the calls of [exec]. *)

Record RegExpExecArray : Type := {
  index : nat;
  placeholder : string;             (* regexResult[0] *)
  elementLabel : string;            (* regexResult[1] *)
  token : option string;            (* regexResult[2], undefined when absent *)
  placeholderSerialNumber : string  (* regexResult[3] *)
}.

Module Regex.

Definition is_digit (c : ascii) : bool :=
  (48 <=? nat_of_ascii c)%nat && (nat_of_ascii c <=? 57)%nat.

Definition is_A_to_C (c : ascii) : bool :=
  (65 <=? nat_of_ascii c)%nat && (nat_of_ascii c <=? 67)%nat.

Definition not_plus (c : ascii) : bool := negb (Ascii.eqb c "+").

(** The literal [p] at the head of [s]; what follows it. *)
Fixpoint literal (p s : string) : option string :=
  match p, s with
  | EmptyString, _ => Some s
  | String a p', String b s' => if Ascii.eqb a b then literal p' s' else None
  | String _ _, EmptyString => None
  end.

(** The longest run of characters of the class [f] at the head of [s], and
    what follows it. *)
Fixpoint span (f : ascii → bool) (s : string) : string * string :=
  match s with
  | EmptyString => ("", "")
  | String a s' =>
      if f a then let '(run, rest) := span f s' in (String a run, rest)
      else ("", s)
  end.

(** [_(\d+)]: the digits, and what follows them. *)
Definition serial (s : string) : option (string * string) :=
  match s with
  | String a s1 =>
      if Ascii.eqb a "_" then
        match span is_digit s1 with
        | (EmptyString, _) => None
        | (digits, rest) => Some (digits, rest)
        end
      else None
  | EmptyString => None
  end.

(** [(\+[^+]+\+)]: the captured text with its two [+], and what follows. *)
Definition plus_token (s : string) : option (string * string) :=
  match s with
  | String a s1 =>
      if Ascii.eqb a "+" then
        match span not_plus s1 with
        | (String c body, String b rest) =>
            if Ascii.eqb b "+" then Some ("+" +:+ String c body +:+ "+", rest)
            else None
        | _ => None
        end
      else None
  | EmptyString => None
  end.

(** The groups of a match: [[0]], [[1]], [[2]] and [[3]]. *)
Definition groups : Type := string * string * option string * string.

(** A match of the whole pattern at the head of [s]. The optional group is
    tried first, and left out when the rest of the pattern fails after
    it. *)
Definition match_here (s : string) : option groups :=
  s1 ← literal Constants.STRING_PLACEHOLDER_PREFIX s;
  match s1 with
  | String u (String l s2) =>
      if Ascii.eqb u "_" && is_A_to_C l then
        let head := Constants.STRING_PLACEHOLDER_PREFIX +:+ "_" +:+ String l "" in
        let without_token :=
          '(digits, _) ← serial s2;
          Some (head +:+ "_" +:+ digits, String l "", None, digits) in
        match plus_token s2 with
        | Some (tok, s3) =>
            match serial s3 with
            | Some (digits, _) =>
                Some (head +:+ tok +:+ "_" +:+ digits, String l "", Some tok,
                      digits)
            | None => without_token
            end
        | None => without_token
        end
      else None
  | _ => None
  end.

Definition exec_array (i : nat) (g : groups) : RegExpExecArray :=
  let '(g0, g1, g2, g3) := g in
  {| index := i; placeholder := g0; elementLabel := g1; token := g2;
     placeholderSerialNumber := g3 |}.

(** The leftmost match in [s], whose head is at index [i] of the searched
    string. *)
Fixpoint search (s : string) (i : nat) : option RegExpExecArray :=
  match match_here s with
  | Some g => Some (exec_array i g)
  | None =>
      match s with
      | EmptyString => None
      | String _ s' => search s' (S i)
      end
  end.

(** [PLACEHOLDER_REGEX.exec(source)] with the regular expression's
    [lastIndex]: the result and the new [lastIndex]. *)
Definition exec (source : string) (lastIndex : nat)
  : option RegExpExecArray * nat :=
  if (String.length source <? lastIndex)%nat then (None, O)
  else
    match search (Js.drop lastIndex source) lastIndex with
    | Some m => (Some m, (index m + String.length (placeholder m))%nat)
    | None => (None, O)
    end.

End Regex.

(** ** [AssetProcessor._parseStringToReconstructionSequence] *)

(** What [plugin.getDataForSerialNumber] returns. *)
Record IStringData : Type := {
  values : gmap string string;
  locFilePath : string;
  stringName : string
}.

(** The collaborator [plugin.getDataForSerialNumber]. *)
Definition LocalizationPlugin : Type := string → option IStringData.

Definition substring_of_undefined : JsError :=
  TypeError "Cannot read property 'substring' of undefined".

(** The [switch (elementLabel)] of the loop body: the element of the match and
    the [issues] array after it. *)
Definition parse_label (plugin : LocalizationPlugin) (jsonpFunction : valueFn_t)
    (m : RegExpExecArray) (issues : list string)
  : completion (IReconstructionElement * list string) :=
  if String.eqb (elementLabel m) Constants.STRING_PLACEHOLDER_LABEL then
    match plugin (placeholderSerialNumber m) with
    | None =>
        Normal (static (placeholder m),
                issues ++ ["Missing placeholder " +:+ placeholder m])
    | Some stringData =>
        Normal (localized (values stringData) (len (placeholder m))
                  (stringName stringData) (locFilePath stringData),
                issues)
    end
  else if String.eqb (elementLabel m) Constants.LOCALE_NAME_PLACEHOLDER_LABEL then
    Normal (dynamic (fun locale _ => Normal locale) (len (placeholder m)) None,
            issues)
  else if String.eqb (elementLabel m) Constants.JSONP_PLACEHOLDER_LABEL then
    match token m with
    | None => Throw substring_of_undefined
    | Some tok =>
        Normal (dynamic jsonpFunction (len (placeholder m))
                  (Some (Js.substring tok 1 (String.length tok - 1))),
                issues)
    end
  else Throw (Error ("Unexpected label " +:+ elementLabel m)).

(** The [while] loop. [re] is the [lastIndex] of [PLACEHOLDER_REGEX], which
    the loop's own [lastIndex] follows. [None] when [fuel] iterations were not
    enough. *)
Fixpoint parse_loop (fuel : nat) (plugin : LocalizationPlugin)
    (jsonpFunction : valueFn_t) (source : string) (re lastIndex : nat)
    (issues : list string) (reconstructionSeries : list IReconstructionElement)
  : option (completion IParseResult * nat) :=
  match fuel with
  | O => None
  | S fuel' =>
      match Regex.exec source re with
      | (Some regexResult, re') =>
          let staticElement :=
            static (Js.substring source lastIndex (index regexResult)) in
          let reconstructionSeries := reconstructionSeries ++ [staticElement] in
          match parse_label plugin jsonpFunction regexResult issues with
          | Throw e => Some (Throw e, re')
          | Normal (localizedReconstructionElement, issues') =>
              parse_loop fuel' plugin jsonpFunction source re'
                (index regexResult + String.length (placeholder regexResult))%nat
                issues'
                (reconstructionSeries ++ [localizedReconstructionElement])
          end
      | (None, re') =>
          let lastElement := static (Js.substr source lastIndex) in
          Some (Normal {| parse_issues := issues;
                          reconstructionSeries :=
                            reconstructionSeries ++ [lastElement] |},
                re')
      end
  end.

(** The parser, from the [lastIndex] the regular expression was left with;
    it returns the regular expression's new [lastIndex] with its result. Every
    match is at least as long as the prefix, so [S (length source)] iterations
    are always enough ([parse_total]). *)
Definition _parseStringToReconstructionSequence (plugin : LocalizationPlugin)
    (source : string) (jsonpFunction : valueFn_t) (re : nat)
  : option (completion IParseResult * nat) :=
  parse_loop (S (String.length source)) plugin jsonpFunction source re O [] [].

(** ** [JSON.stringify] *)

Module JSON.

Definition hex_digit (n : nat) : ascii :=
  match n with
  | 0 => "0" | 1 => "1" | 2 => "2" | 3 => "3" | 4 => "4" | 5 => "5" | 6 => "6"
  | 7 => "7" | 8 => "8" | 9 => "9" | 10 => "a" | 11 => "b" | 12 => "c"
  | 13 => "d" | 14 => "e" | _ => "f"
  end%nat%char.

Definition backslash : ascii := "092"%char.

(** [QuoteJSONString] on one character. *)
Definition quote_char (c : ascii) : string :=
  let n := nat_of_ascii c in
  if Ascii.eqb c Js.quotemark then String backslash Js.dq
  else if Ascii.eqb c backslash then String backslash (String backslash "")
  else if (n =? 8)%nat then String backslash "b"
  else if (n =? 9)%nat then String backslash "t"
  else if (n =? 10)%nat then String backslash "n"
  else if (n =? 12)%nat then String backslash "f"
  else if (n =? 13)%nat then String backslash "r"
  else if (n <? 32)%nat then
    String backslash
      ("u00" +:+ String (hex_digit (n / 16)) (String (hex_digit (n mod 16)) ""))
  else String c "".

Fixpoint quote_chars (s : string) : string :=
  match s with
  | EmptyString => ""
  | String c s' => quote_char c +:+ quote_chars s'
  end.

(** [JSON.stringify(s)] for a string [s]. *)
Definition stringify_string (s : string) : string :=
  Js.dq +:+ quote_chars s +:+ Js.dq.

Fixpoint comma_join (parts : list string) : string :=
  match parts with
  | [] => ""
  | [p] => p
  | p :: parts' => p +:+ "," +:+ comma_join parts'
  end.

(** [JSON.stringify(a)] for an array [a] of strings. *)
Definition stringify_array (a : list string) : string :=
  "[" +:+ comma_join (stringify_string <$> a) +:+ "]".

(** [JSON.stringify(n)] for a natural number [n]. *)
Definition stringify_number (n : nat) : string :=
  DecimalString.NilZero.string_of_uint (Nat.to_uint n).

End JSON.

(** ** Objects used as maps from strings to numbers

    The properties of an object are kept in the order of their creation;
    [OrdinaryOwnPropertyKeys] lists the array indices first, in ascending
    order, then the other keys in the order of their creation. *)

Module Obj.

Definition t : Type := list (string * nat).

(** The number held by the own property [k] of [o], if there is one. *)
Definition get (k : string) (o : t) : option nat :=
  snd <$> List.find (fun p => String.eqb (fst p) k) o.

(** The own property [k] of [o] set to [v]: in place when [o] has it, at the
    end otherwise. *)
Fixpoint put (k : string) (v : nat) (o : t) : t :=
  match o with
  | [] => [(k, v)]
  | (k', v') :: o' =>
      if String.eqb k' k then (k, v) :: o' else (k', v') :: put k v o'
  end.

(** [o[k] = v] for a number [v] and an object [o] that began as the literal
    [{}]: the key [__proto__] is the accessor inherited from
    [Object.prototype], whose setter ignores a value that is not an object,
    so the assignment creates no property; any other key is an own
    property. *)
Definition set (k : string) (v : nat) (o : t) : t :=
  if String.eqb k "__proto__" then o else put k v o.

Fixpoint digits_value (s : string) (acc : N) : option N :=
  match s with
  | EmptyString => Some acc
  | String c s' =>
      if Regex.is_digit c then
        digits_value s' (10 * acc + N.of_nat (nat_of_ascii c - 48))%N
      else None
  end.

(** The array index a key denotes: a canonical numeric string below
    [2^32 - 1]. *)
Definition array_index (k : string) : option N :=
  match k with
  | EmptyString => None
  | String "0" EmptyString => Some 0%N
  | String "0" _ => None
  | _ =>
      n ← digits_value k 0%N;
      if (n <? 4294967295)%N then Some n else None
  end.

Fixpoint insert_sorted (p : N * (string * nat)) (l : list (N * (string * nat)))
  : list (N * (string * nat)) :=
  match l with
  | [] => [p]
  | q :: l' => if (fst p <=? fst q)%N then p :: l else q :: insert_sorted p l'
  end.

Definition own_properties (o : t) : list (string * nat) :=
  let indexed :=
    omap (fun p => n ← array_index (fst p); Some (n, p)) o in
  let named :=
    List.filter (fun p => bool_decide (array_index (fst p) = None)) o in
  (snd <$> foldr insert_sorted [] indexed) ++ named.

(** [JSON.stringify(o)] *)
Definition stringify (o : t) : string :=
  "{" +:+ JSON.comma_join
            ((fun p => JSON.stringify_string (fst p) +:+ ":"
                         +:+ JSON.stringify_number (snd p))
               <$> own_properties o)
      +:+ "}".

End Obj.

(** ** [AssetProcessor._getJsonpFunction] *)

(** An async chunk: its [id], and the mark [EntityMarker.getMark] reads on
    it. *)
Record Chunk : Type := {
  id : string;
  getMark : bool
}.

(** [set.add(x)] on a [Set<string>] kept in insertion order. *)
Definition set_add (x : string) (s : list string) : list string :=
  if bool_decide (x ∈ s) then s else s ++ [x].

(** The first loop: the ids of the marked and of the unmarked chunks. *)
Definition partition_ids (asyncChunks : list Chunk) : list string * list string :=
  foldl
    (fun '(idsWithStrings, idsWithoutStrings) asyncChunk =>
       if getMark asyncChunk then
         (set_add (id asyncChunk) idsWithStrings, idsWithoutStrings)
       else
         (idsWithStrings, set_add (id asyncChunk) idsWithoutStrings))
    ([], []) asyncChunks.

Definition build_chunkMapping (idsWithStrings idsWithoutStrings : list string)
  : Obj.t :=
  let chunkMapping : Obj.t := [] in
  let chunkMapping :=
    foldl (fun o idWithStrings => Obj.set idWithStrings 0%nat o)
      chunkMapping idsWithStrings in
  let chunkMapping :=
    foldl (fun o idWithoutStrings => Obj.set idWithoutStrings 1%nat o)
      chunkMapping idsWithoutStrings in
  chunkMapping.

(** [asyncChunks] is [chunk.getAllAsyncChunks()] in its iteration order. *)
Definition _getJsonpFunction (asyncChunks : list Chunk)
    (noStringsLocaleName : string) : valueFn_t :=
  let '(idsWithStrings, idsWithoutStrings) := partition_ids asyncChunks in
  if (length idsWithStrings =? 0)%nat then
    fun _ _ => Normal (JSON.stringify_string noStringsLocaleName)
  else if (length idsWithoutStrings =? 0)%nat then
    fun locale _ => Normal (JSON.stringify_string locale)
  else
    let chunkMapping := build_chunkMapping idsWithStrings idsWithoutStrings in
    fun locale chunkIdToken =>
      if Js.falsy (Some locale) then Throw (Error "Missing locale name.")
      else
        Normal ("(" +:+ JSON.stringify_array [locale; noStringsLocaleName]
                  +:+ ")[" +:+ Obj.stringify chunkMapping
                  +:+ "[" +:+ Js.template chunkIdToken +:+ "]]").

(** The resolver given for an asset's name. *)
Definition unsupported : valueFn_t := fun _ _ => Throw (Error "unsupported").

(** * Notions used in the statements *)

(** ** The variables of a walk *)

Definition vars0 : loop_vars :=
  {| issues := []; reconstruction := []; sizeDiff := 0 |}.

Definition vars_app (v w : loop_vars) : loop_vars :=
  {| issues := issues v ++ issues w;
     reconstruction := reconstruction v ++ reconstruction w;
     sizeDiff := sizeDiff v + sizeDiff w |}.

Ltac frame_eq :=
  unfold vars_app; simpl; rewrite ?app_nil_r, ?Z.add_0_r; reflexivity.

(** The walk of the series for one locale: the inner loop of
    [_reconstructLocalized]. *)
Abbreviation walk_localized fill defaultLocale locale :=
  (for_of (reconstructLocalized_element fill defaultLocale locale)).

Definition replace_of_undefined : JsError :=
  TypeError "Cannot read property 'replace' of undefined".

(** ** The size accounting law *)

(** What a case pushes on the [reconstruction] array for an element. *)
Definition pushed (step : IReconstructionElement → loop_vars → completion loop_vars)
    (element : IReconstructionElement) : completion (list string) :=
  w ← step element vars0; Normal (reconstruction w).

(** The term of the law for an element and the value substituted for it. *)
Definition element_delta (element : IReconstructionElement) (substituted : string)
  : Z :=
  match element with
  | static _ => 0
  | localized _ size _ _ => len substituted - size
  | dynamic _ size _ => len substituted - size
  end.

Definition sum_deltas (series : list IReconstructionElement)
    (substituted : list string) : Z :=
  foldr Z.add 0 (zip_with element_delta series substituted).

(** A rendered string obeys the law for a series when it is the
    concatenation of the values substituted for the elements, one each, and
    its size is the initial size plus the sum of their terms. *)
Definition accounted
    (step : IReconstructionElement → loop_vars → completion loop_vars)
    (series : list IReconstructionElement) (initialSize : Z)
    (rendered : IReconstructedString) : Prop :=
  ∃ substituted : list string,
    Forall2 (fun el s => pushed step el = Normal [s]) series substituted
    ∧ source rendered = Js.join substituted
    ∧ size rendered = initialSize + sum_deltas series substituted.

(** ** Escaping, character by character *)


(** The escaped form of one character. *)
Definition escaped_char (c : ascii) : string :=
  if Ascii.eqb c Js.quotemark then u0022
  else if Ascii.eqb c Js.apostrophe then u0027
  else String c "".

(** Every character replaced by its escaped form. *)
Fixpoint escape_each (s : string) : string :=
  match s with
  | EmptyString => ""
  | String c s' => escaped_char c +:+ escape_each s'
  end.

(** ** The non-localized reconstructor, element by element *)

(** The value substituted for an element: a static string is copied, a
    localized element becomes the sentinel, a dynamic element's value function
    is called with [noStringsLocaleName] as the locale. *)
Definition nonlocalized_value (noStringsLocaleName : string)
    (element : IReconstructionElement) : completion string :=
  match element with
  | static staticString => Normal staticString
  | localized _ _ _ _ => Normal "-- NOT EXPECTED TO BE LOCALIZED --"
  | dynamic valueFn _ token => valueFn noStringsLocaleName token
  end.

(** The issues an element adds: one for a localized element, naming the
    string and its file. *)
Definition nonlocalized_issues (element : IReconstructionElement) : list string :=
  match element with
  | localized _ _ stringName locFilePath =>
      ["The string " +:+ Js.dq +:+ stringName +:+ Js.dq +:+ " in " +:+ Js.dq
         +:+ locFilePath +:+ Js.dq
         +:+ " appeared in an asset that is not expected to contain localized resources."]
  | _ => []
  end.

(** ** The placeholders of a source text *)

Definition label_A_to_C (m : RegExpExecArray) : Prop :=
  elementLabel m = "A" ∨ elementLabel m = "B" ∨ elementLabel m = "C".

(** The successive results of [exec] on a source, from a [lastIndex]. *)
Fixpoint scan (fuel : nat) (source : string) (re : nat) : list RegExpExecArray :=
  match fuel with
  | O => []
  | S fuel' =>
      match Regex.exec source re with
      | (Some m, re') => m :: scan fuel' source re'
      | (None, _) => []
      end
  end.

(** The placeholders of a source text: the matches the loop meets, in order,
    when the regular expression starts at [lastIndex = 0]. *)
Definition placeholders (source : string) : list RegExpExecArray :=
  scan (S (String.length source)) source 0.

(** A JSONP placeholder with its token: [token.substring] is defined. *)
Definition has_token (m : RegExpExecArray) : Prop :=
  elementLabel m = "C" → is_Some (token m).

(** The element the [switch] makes of a match, and the issues it adds. *)
Definition element_of (plugin : LocalizationPlugin) (jsonpFunction : valueFn_t)
    (m : RegExpExecArray) : IReconstructionElement :=
  match parse_label plugin jsonpFunction m [] with
  | Normal (element, _) => element
  | Throw _ => static ""
  end.

Definition issues_of (plugin : LocalizationPlugin) (jsonpFunction : valueFn_t)
    (m : RegExpExecArray) : list string :=
  match parse_label plugin jsonpFunction m [] with
  | Normal (_, issues) => issues
  | Throw _ => []
  end.

(** The series the loop builds from the matches: the static text before each
    match and its element, then the static text after the last one. *)
Fixpoint series_of (plugin : LocalizationPlugin) (jsonpFunction : valueFn_t)
    (source : string) (lastIndex : nat) (ms : list RegExpExecArray)
  : list IReconstructionElement :=
  match ms with
  | [] => [static (Js.substr source lastIndex)]
  | m :: ms' =>
      static (Js.substring source lastIndex (index m))
      :: element_of plugin jsonpFunction m
      :: series_of plugin jsonpFunction source
           (index m + String.length (placeholder m))%nat ms'
  end.

(** ** The marks of the async chunks *)

Definition has_marked (asyncChunks : list Chunk) : Prop :=
  ∃ c, c ∈ asyncChunks ∧ getMark c = true.

Definition has_unmarked (asyncChunks : list Chunk) : Prop :=
  ∃ c, c ∈ asyncChunks ∧ getMark c = false.

(** The mapping of the resolver of mixed chunks. *)
Definition chunkMapping_of (asyncChunks : list Chunk) : Obj.t :=
  build_chunkMapping (partition_ids asyncChunks).1 (partition_ids asyncChunks).2.

(** ** The text an element stands for *)

(** The length of the source text an element of a plan replaces: a static
    string itself, the recorded size of a placeholder otherwise. *)
Definition original_len (element : IReconstructionElement) : Z :=
  match element with
  | static staticString => len staticString
  | localized _ size _ _ => size
  | dynamic _ size _ => size
  end.

Definition sum_original (series : list IReconstructionElement) : Z :=
  foldr Z.add 0 (original_len <$> series).

Definition is_static (element : IReconstructionElement) : Prop :=
  match element with
  | static _ => True
  | _ => False
  end.

Fixpoint all_chars (f : ascii → bool) (s : string) : bool :=
  match s with
  | EmptyString => true
  | String a s' => f a && all_chars f s'
  end.

(** The first character of a string, if any, is not of the class [f]. *)
Definition stops (f : ascii → bool) (s : string) : bool :=
  match s with
  | EmptyString => true
  | String a _ => negb (f a)
  end.

Fixpoint count_char (c : ascii) (s : string) : nat :=
  match s with
  | EmptyString => O
  | String a s' => ((if Ascii.eqb a c then 1 else 0) + count_char c s')%nat
  end.

(** A JSONP placeholder without its token. *)
Definition tokenless (m : RegExpExecArray) : Prop :=
  elementLabel m = "C" ∧ token m = None.

(** ** [AssetProcessor.processLocalizedAsset] and
    [AssetProcessor.processNonLocalizedAsset]

    An [IAsset] is observed through its two methods, [source()] and [size()]:
    it is the record of what they return, and the clone whose two methods are
    overridden is the record of the new values. [compilation.errors] is passed
    to the functions and returned by them, after [PLACEHOLDER_REGEX]'s
    [lastIndex]. *)

Record IAsset : Type := {
  asset_source : string;
  asset_size : Z
}.

Record IProcessAssetResult : Type := {
  filename : string;
  asset : IAsset
}.

(** [parts.join(sep)] *)
Fixpoint join_with (sep : string) (parts : list string) : string :=
  match parts with
  | [] => ""
  | [p] => p
  | p :: parts' => p +:+ sep +:+ join_with sep parts'
  end.

Definition newline : string := String "010" "".

(** [if (issues.length > 0) compilation.errors.push(Error(...))] *)
Definition report_issues (issues : list string) (errors : list JsError)
  : list JsError :=
  if (0 <? length issues)%nat then
    errors
    ++ [Error ("localization:" +:+ newline
                 +:+ join_with newline ((fun issue => "  " +:+ issue) <$> issues))]
  else errors.

Definition source_of_undefined : JsError :=
  TypeError "Cannot read property 'source' of undefined".

(** The body of the loop over [reconstructedAsset.result]. *)
Definition pair_with_name (names : gmap string IReconstructedString)
    (entry : string * IReconstructedString)
    (result : gmap string IProcessAssetResult)
  : completion (gmap string IProcessAssetResult) :=
  let '(locale, rendered) := entry in
  match names !! locale with
  | None => Throw source_of_undefined
  | Some name =>
      let newAsset := {| asset_source := source rendered;
                         asset_size := size rendered |} in
      Normal (<[locale := {| filename := source name; asset := newAsset |}]>
                result)
  end.

Definition processLocalizedAsset (plugin : LocalizationPlugin)
    (assetName : string) (asset : IAsset) (chunk : list Chunk)
    (noStringsLocaleName : string) (locales : list string)
    (fillMissingTranslationStrings : bool) (defaultLocale : string)
    (errors : list JsError) (re : nat)
  : option (completion (gmap string IProcessAssetResult * list JsError) * nat) :=
  let assetSource := asset_source asset in
  match _parseStringToReconstructionSequence plugin assetSource
          (_getJsonpFunction chunk noStringsLocaleName) re with
  | None => None
  | Some (Throw e, re) => Some (Throw e, re)
  | Some (Normal parsedAsset, re) =>
  match _reconstructLocalized (reconstructionSeries parsedAsset) locales
          fillMissingTranslationStrings defaultLocale (asset_size asset) with
  | Throw e => Some (Throw e, re)
  | Normal reconstructedAsset =>
  match _parseStringToReconstructionSequence plugin assetName unsupported re with
  | None => None
  | Some (Throw e, re) => Some (Throw e, re)
  | Some (Normal parsedAssetName, re) =>
  match _reconstructLocalized (reconstructionSeries parsedAssetName) locales
          fillMissingTranslationStrings defaultLocale (len assetName) with
  | Throw e => Some (Throw e, re)
  | Normal reconstructedAssetName =>
  match for_of (pair_with_name (loc_result reconstructedAssetName))
          (map_to_list (loc_result reconstructedAsset)) ∅ with
  | Throw e => Some (Throw e, re)
  | Normal result =>
      let issues :=
        parse_issues parsedAsset ++ loc_issues reconstructedAsset
        ++ parse_issues parsedAssetName ++ loc_issues reconstructedAssetName in
      Some (Normal (result, report_issues issues errors), re)
  end end end end end.

Definition processNonLocalizedAsset (plugin : LocalizationPlugin)
    (assetName : string) (asset : IAsset) (chunk : list Chunk)
    (noStringsLocaleName : string) (errors : list JsError) (re : nat)
  : option (completion (IProcessAssetResult * list JsError) * nat) :=
  let assetSource := asset_source asset in
  match _parseStringToReconstructionSequence plugin assetSource
          (_getJsonpFunction chunk noStringsLocaleName) re with
  | None => None
  | Some (Throw e, re) => Some (Throw e, re)
  | Some (Normal parsedAsset, re) =>
  match _reconstructNonLocalized (reconstructionSeries parsedAsset)
          (asset_size asset) noStringsLocaleName with
  | Throw e => Some (Throw e, re)
  | Normal reconstructedAsset =>
  match _parseStringToReconstructionSequence plugin assetName unsupported re with
  | None => None
  | Some (Throw e, re) => Some (Throw e, re)
  | Some (Normal parsedAssetName, re) =>
  match _reconstructNonLocalized (reconstructionSeries parsedAssetName)
          (len assetName) noStringsLocaleName with
  | Throw e => Some (Throw e, re)
  | Normal reconstructedAssetName =>
      let issues :=
        parse_issues parsedAsset ++ nonloc_issues reconstructedAsset
        ++ parse_issues parsedAssetName ++ nonloc_issues reconstructedAssetName in
      let newAsset :=
        {| asset_source := source (nonloc_result reconstructedAsset);
           asset_size := size (nonloc_result reconstructedAsset) |} in
      Some (Normal ({| filename := source (nonloc_result reconstructedAssetName);
                       asset := newAsset |},
                    report_issues issues errors), re)
  end end end end.

(** * Example data *)

(** A string table with the one serial number [7]. *)
Definition table : LocalizationPlugin :=
  fun serial =>
    if String.eqb serial "7" then
      Some {| values := {[ "en-us" := "hello"; "fr-fr" := "l'eau" ]};
              locFilePath := "strings.loc.json";
              stringName := "greeting" |}
    else None.

Definition hello_values : gmap string string := {[ "en-us" := "hello" ]}.

Definition empty_values : gmap string string :=
  {[ "en-us" := "hello"; "es-es" := "" ]}.

Definition empty_default_values : gmap string string := {[ "en-us" := "" ]}.


(** A plan with a localized and a dynamic element, both recorded with the
    length 58 of their placeholders. *)
Definition size_law_series : list IReconstructionElement :=
  [ static "var s = '";
    localized hello_values 58 "greeting" "strings.loc.json";
    static "', l = '";
    dynamic (fun locale _ => Normal locale) 58 None;
    static "';" ].

Definition plain_source : string := "console.log('no strings here');".

Definition unknown_label_source : string :=
  Constants.STRING_PLACEHOLDER_PREFIX +:+ "_D_0".

Definition missing_serial_source : string :=
  "f(" +:+ Constants.STRING_PLACEHOLDER_PREFIX +:+ "_A_8, "
    +:+ Constants.STRING_PLACEHOLDER_PREFIX +:+ "_A_7, "
    +:+ Constants.JSONP_PLACEHOLDER +:+ ")".

(** The first placeholder of [missing_serial_source]. *)
Definition missing_serial_match : RegExpExecArray :=
  {| index := 2;
     placeholder := Constants.STRING_PLACEHOLDER_PREFIX +:+ "_A_8";
     elementLabel := "A";
     token := None;
     placeholderSerialNumber := "8" |}.

Definition mixed_chunks : list Chunk :=
  [ {| id := "12"; getMark := true |};
    {| id := "3"; getMark := false |};
    {| id := "main"; getMark := true |} ].

(** A source whose JSONP placeholder has no token. *)
Definition tokenless_source : string :=
  "load(" +:+ Constants.STRING_PLACEHOLDER_PREFIX +:+ "_C_0)".

Definition tokenless_match : RegExpExecArray :=
  {| index := 5;
     placeholder := Constants.STRING_PLACEHOLDER_PREFIX +:+ "_C_0";
     elementLabel := "C";
     token := None;
     placeholderSerialNumber := "0" |}.

(** A source with one placeholder, at its head. *)
Definition greeting_source : string :=
  Constants.STRING_PLACEHOLDER_PREFIX +:+ "_A_7;".

(** The plan of [missing_serial_source] with the table [table] and the
    resolver of a chunk without async chunks. *)
Definition missing_serial_plan : IParseResult :=
  {| parse_issues :=
       ["Missing placeholder " +:+ Constants.STRING_PLACEHOLDER_PREFIX +:+ "_A_8"];
     reconstructionSeries :=
       [ static "f(";
         static (Constants.STRING_PLACEHOLDER_PREFIX +:+ "_A_8");
         static ", ";
         localized {[ "en-us" := "hello"; "fr-fr" := "l'eau" ]} 58 "greeting"
           "strings.loc.json";
         static ", ";
         dynamic (_getJsonpFunction [] "none") 67 (Some "chunkId");
         static ")" ] |}.

(** A string table without any string. *)
Definition empty_table : LocalizationPlugin := fun _ => None.

(** A source with two label-A placeholders. *)
Definition two_strings_source : string :=
  "t(" +:+ Constants.STRING_PLACEHOLDER_PREFIX +:+ "_A_1, "
    +:+ Constants.STRING_PLACEHOLDER_PREFIX +:+ "_A+x+_2)".

Definition plain_asset : IAsset :=
  {| asset_source := plain_source; asset_size := 31 |}.

(** The value functions the parser gives to dynamic elements: the identity
    on the locale, or the resolver it was called with. *)
Definition from_parser (jsonpFunction : valueFn_t)
    (element : IReconstructionElement) : Prop :=
  match element with
  | dynamic valueFn _ _ =>
      valueFn = (fun locale _ => Normal locale) ∨ valueFn = jsonpFunction
  | _ => True
  end.

(** The errors of the entry points. *)
Definition missing_locale_name : JsError := Error "Missing locale name.".

Definition unsupported_error : JsError := Error "unsupported".

(** An asset of a chunk whose name holds the JSONP placeholder. *)
Definition chunk_asset_name : string :=
  "chunk." +:+ Constants.JSONP_PLACEHOLDER +:+ ".js".

(** An asset with one known string and the locale name. *)
Definition greeting_asset : IAsset :=
  {| asset_source :=
       "say(" +:+ Constants.STRING_PLACEHOLDER_PREFIX +:+ "_A_7, "
         +:+ Constants.LOCALE_NAME_PLACEHOLDER +:+ ")";
     asset_size := 200 |}.

Definition greeting_asset_name : string :=
  "greeting." +:+ Constants.LOCALE_NAME_PLACEHOLDER +:+ ".js".

(** The artifacts of [greeting_asset] for the locales [en-us] and [es-es],
    without [fillMissingTranslationStrings]. *)
Definition greeting_artifacts : gmap string IProcessAssetResult :=
  {[ "en-us" :=
       {| filename := "greeting.en-us.js";
          asset := {| asset_source := "say(hello, en-us)";
                      asset_size := 200 + ((5 - 58) + (5 - 58)) |} |};
     "es-es" :=
       {| filename := "greeting.es-es.js";
          asset := {| asset_source := "say(-- MISSING STRING --, es-es)";
                      asset_size := 200 + ((20 - 58) + (5 - 58)) |} |} ]}.

(** The second placeholder of [missing_serial_source], of a known string. *)
Definition known_serial_match : RegExpExecArray :=
  {| index := 62;
     placeholder := Constants.STRING_PLACEHOLDER_PREFIX +:+ "_A_7";
     elementLabel := "A";
     token := None;
     placeholderSerialNumber := "7" |}.

(** The placeholder of [greeting_asset_name]. *)
Definition locale_name_match : RegExpExecArray :=
  {| index := 9;
     placeholder := Constants.LOCALE_NAME_PLACEHOLDER;
     elementLabel := "B";
     token := None;
     placeholderSerialNumber := "0" |}.

(** The placeholder of [greeting_source]. *)
Definition greeting_match : RegExpExecArray :=
  {| index := 0;
     placeholder := Constants.STRING_PLACEHOLDER_PREFIX +:+ "_A_7";
     elementLabel := "A";
     token := None;
     placeholderSerialNumber := "7" |}.

(** ** The entries of the chunk mapping *)

(** [x] is the id of an async chunk whose mark is [mark]. *)
Definition id_with_mark (mark : bool) (asyncChunks : list Chunk) (x : string)
  : Prop :=
  ∃ c, c ∈ asyncChunks ∧ id c = x ∧ getMark c = mark.

(** The text of one property of the mapping whose value is 0 or 1, as
    [JSON.stringify] writes it. *)
Definition entry_text (p : string * nat) : string :=
  JSON.stringify_string p.1 +:+ ":" +:+ match p.2 with O => "0" | S _ => "1" end.

(** The text of a string literal without a character to escape. *)
Definition quoted (s : string) : string := Js.dq +:+ s +:+ Js.dq.

(** A marked chunk whose id is the name of the prototype accessor, and an
    unmarked chunk. *)
Definition proto_chunks : list Chunk :=
  [ {| id := "__proto__"; getMark := true |};
    {| id := "a"; getMark := false |} ].

(** A source with a string placeholder whose serial number is unknown,
    followed by a JSONP placeholder without a token. *)
Definition missing_serial_tokenless_source : string :=
  "f(" +:+ Constants.STRING_PLACEHOLDER_PREFIX +:+ "_A_8, "
    +:+ Constants.STRING_PLACEHOLDER_PREFIX +:+ "_C_0)".

(** * The reconstructors *)

(** ** The contribution of one element

    Each case of the two [switch]es only appends to the arrays and adds to
    [sizeDiff]: what it does from any values of the variables is what it does
    from the initial ones, appended. *)

Lemma vars_app_0_r v : vars_app v vars0 = v.
Proof.
  destruct v as [i r d]. unfold vars_app; simpl.
  by rewrite !app_nil_r, Z.add_0_r.
Qed.

Lemma vars_app_assoc u v w : vars_app (vars_app u v) w = vars_app u (vars_app v w).
Proof.
  unfold vars_app; simpl. by rewrite <- !app_assoc, Z.add_assoc.
Qed.

Lemma localized_element_frame fill dl locale el v :
  reconstructLocalized_element fill dl locale el v
  = (w ← reconstructLocalized_element fill dl locale el vars0;
     Normal (vars_app v w)).
Proof.
  destruct el as [s | vals sz name path | f sz tok]; simpl.
  - frame_eq.
  - destruct (Js.falsy (vals !! locale)), fill; simpl;
      try destruct (vals !! dl); try destruct (vals !! locale); frame_eq.
  - destruct (f locale tok); frame_eq.
Qed.

Lemma nonlocalized_element_frame noStrings el v :
  reconstructNonLocalized_element noStrings el v
  = (w ← reconstructNonLocalized_element noStrings el vars0;
     Normal (vars_app v w)).
Proof.
  destruct el as [s | vals sz name path | f sz tok]; simpl; try frame_eq.
  destruct (f noStrings tok); frame_eq.
Qed.

Lemma localized_element_pushes fill dl locale el w :
  reconstructLocalized_element fill dl locale el vars0 = Normal w →
  ∃ s, reconstruction w = [s] ∧ sizeDiff w = element_delta el s.
Proof.
  destruct el as [s | vals sz name path | f sz tok]; simpl.
  - intros [= <-]. by exists s.
  - destruct (Js.falsy (vals !! locale)), fill; simpl;
      try destruct (vals !! dl); try destruct (vals !! locale);
      intros [= <-]; eexists; split; reflexivity.
  - destruct (f locale tok) as [s|]; simpl; intros [= <-]. by exists s.
Qed.

Lemma nonlocalized_element_pushes noStrings el w :
  reconstructNonLocalized_element noStrings el vars0 = Normal w →
  ∃ s, reconstruction w = [s] ∧ sizeDiff w = element_delta el s.
Proof.
  destruct el as [s | vals sz name path | f sz tok]; simpl.
  - intros [= <-]. by exists s.
  - intros [= <-]. eexists; split; reflexivity.
  - destruct (f noStrings tok) as [s|]; simpl; intros [= <-]. by exists s.
Qed.

(** ** A walk of the series *)

Section Walk.

Variable step : IReconstructionElement → loop_vars → completion loop_vars.

Hypothesis step_frame : ∀ el v,
  step el v = (w ← step el vars0; Normal (vars_app v w)).

Hypothesis step_pushes : ∀ el w,
  step el vars0 = Normal w →
  ∃ s, reconstruction w = [s] ∧ sizeDiff w = element_delta el s.

Lemma walk_frame series v :
  for_of step series v = (w ← for_of step series vars0; Normal (vars_app v w)).
Proof.
  revert v. induction series as [|el series IH]; intros v; simpl.
  - by rewrite vars_app_0_r.
  - rewrite (step_frame el v). destruct (step el vars0) as [w|e]; simpl; [|done].
    rewrite (IH (vars_app v w)), (IH w).
    destruct (for_of step series vars0) as [u|e]; simpl; [|done].
    by rewrite vars_app_assoc.
Qed.

Lemma walk_app pre post v :
  for_of step (pre ++ post) v = (u ← for_of step pre v; for_of step post u).
Proof.
  revert v. induction pre as [|el pre IH]; intros v; simpl; [done|].
  destruct (step el v); simpl; [apply IH | done].
Qed.

Lemma walk_substituted series v :
  for_of step series vars0 = Normal v →
  ∃ substituted,
    Forall2 (fun el s => pushed step el = Normal [s]) series substituted
    ∧ reconstruction v = substituted
    ∧ sizeDiff v = sum_deltas series substituted.
Proof.
  revert v. induction series as [|el series IH]; intros v; simpl.
  - intros [= <-]. exists []. by repeat split.
  - destruct (step el vars0) as [w|e] eqn:Hw; simpl; [|done].
    rewrite walk_frame.
    destruct (for_of step series vars0) as [u|e] eqn:Hu; simpl; [|done].
    intros [= <-].
    destruct (step_pushes _ _ Hw) as (s & Hs & Hd).
    destruct (IH u eq_refl) as (subs & HF & Hr & Hsum).
    exists (s :: subs). split; [|split].
    + constructor; [|done]. unfold pushed. by rewrite Hw; simpl; rewrite Hs.
    + simpl. by rewrite Hs, Hr.
    + unfold sum_deltas in *; simpl. by rewrite Hd, Hsum.
Qed.

End Walk.

(** ** The size accounting law *)

Lemma walk_from (series : list IReconstructionElement)
    (step : IReconstructionElement → loop_vars → completion loop_vars) v0 v :
  (∀ el v, step el v = (w ← step el vars0; Normal (vars_app v w))) →
  for_of step series v0 = Normal v →
  ∃ w, for_of step series vars0 = Normal w ∧ v = vars_app v0 w.
Proof.
  intros Hframe. rewrite (walk_frame step Hframe).
  destruct (for_of step series vars0) as [w|e]; simpl; [|done].
  intros [= <-]. by exists w.
Qed.

Lemma reconstructLocalized_locale_accounted series fill dl initialSize locale st st' :
  reconstructLocalized_locale series fill dl initialSize locale st = Normal st' →
  ∃ rendered,
    st'.1 = <[locale := rendered]> st.1
    ∧ accounted (reconstructLocalized_element fill dl locale) series initialSize
        rendered.
Proof.
  unfold reconstructLocalized_locale.
  destruct (for_of _ series _) as [v|e] eqn:Hv; simpl; [|done].
  intros [= <-]. eexists; split; [reflexivity|].
  apply walk_from in Hv as (w & Hw & ->);
    [|intros; apply localized_element_frame].
  apply walk_substituted in Hw as (subs & HF & Hr & Hd);
    [|intros; apply localized_element_frame
     |intros ? ?; apply localized_element_pushes].
  exists subs. simpl. by rewrite Hr, Hd.
Qed.

Lemma reconstructLocalized_locales_accounted series fill dl initialSize locales :
  ∀ st st',
    for_of (reconstructLocalized_locale series fill dl initialSize) locales st
    = Normal st' →
    ∀ locale rendered,
      st'.1 !! locale = Some rendered →
      st.1 !! locale = Some rendered
      ∨ accounted (reconstructLocalized_element fill dl locale) series
          initialSize rendered.
Proof.
  induction locales as [|l locales IH]; intros st st'; simpl.
  - intros [= <-]. auto.
  - destruct (reconstructLocalized_locale _ _ _ _ l st) as [st1|e] eqn:H1;
      simpl; [|done].
    intros H locale rendered Hl.
    destruct (IH _ _ H _ _ Hl) as [Hin|Hacc]; [|by right].
    apply reconstructLocalized_locale_accounted in H1 as (r1 & Hst1 & Hacc).
    rewrite Hst1 in Hin.
    destruct (decide (l = locale)) as [->|Hne].
    + rewrite lookup_insert_eq in Hin. injection Hin as <-. by right.
    + rewrite lookup_insert_ne in Hin by done. by left.
Qed.

(** C1. Size accounting law: whenever the localized reconstructor returns,
    the entry of every locale is the concatenation of the values substituted
    for the elements of the plan, and its size is [initialSize] plus the sum,
    over the localized and dynamic elements, of the length of the substituted
    value minus the element's recorded size; a static element contributes
    zero. The result of the non-localized reconstructor obeys the same law. *)
Theorem size_accounting_law (series : list IReconstructionElement)
    (initialSize : Z) :
  (∀ locales fill defaultLocale r locale rendered,
     _reconstructLocalized series locales fill defaultLocale initialSize
     = Normal r →
     loc_result r !! locale = Some rendered →
     accounted (reconstructLocalized_element fill defaultLocale locale) series
       initialSize rendered)
  ∧ (∀ noStringsLocaleName r,
       _reconstructNonLocalized series initialSize noStringsLocaleName
       = Normal r →
       accounted (reconstructNonLocalized_element noStringsLocaleName) series
         initialSize (nonloc_result r))
  ∧ (∀ staticString substituted,
       element_delta (static staticString) substituted = 0).
Proof.
  split; [|split].
  - intros locales fill dl r locale rendered. unfold _reconstructLocalized.
    destruct (for_of _ locales _) as [st|e] eqn:Hst; simpl; [|done].
    intros [= <-] Hl; simpl in Hl.
    destruct (reconstructLocalized_locales_accounted _ _ _ _ _ _ _ Hst _ _ Hl)
      as [Hin|Hacc]; [|done].
    simpl in Hin. by rewrite lookup_empty in Hin.
  - intros noStrings r. unfold _reconstructNonLocalized.
    destruct (for_of _ series _) as [v|e] eqn:Hv; simpl; [|done].
    intros [= <-]; simpl.
    apply walk_substituted in Hv as (subs & HF & Hr & Hd);
      [|intros; apply nonlocalized_element_frame
       |intros ? ?; apply nonlocalized_element_pushes].
    exists subs. simpl. by rewrite Hr, Hd.
  - reflexivity.
Qed.

Lemma size_accounting_law_witness :
  accounted (reconstructLocalized_element false "en-us" "fr-fr") size_law_series
    1000
    {| source := "var s = '-- MISSING STRING --', l = 'fr-fr';";
       size := 1000 + ((20 - 58) + (5 - 58)) |}
  ∧ accounted (reconstructNonLocalized_element "none") size_law_series 1000
      {| source := "var s = '-- NOT EXPECTED TO BE LOCALIZED --', l = 'none';";
         size := 1000 + ((34 - 58) + (4 - 58)) |}.
Proof.
  split.
  - eapply (proj1 (size_accounting_law size_law_series 1000)
              ["en-us"; "fr-fr"] false "en-us" _ "fr-fr");
      vm_compute; reflexivity.
  - eapply (proj1 (proj2 (size_accounting_law size_law_series 1000)) "none"
              {| nonloc_result :=
                   {| source := "var s = '-- NOT EXPECTED TO BE LOCALIZED --', l = 'none';";
                      size := 1000 + ((34 - 58) + (4 - 58)) |};
                 nonloc_issues := [not_expected_issue "greeting" "strings.loc.json"] |}).
    vm_compute; reflexivity.
Defined.

(** ** A localized element without a translation *)

Lemma walk_element (step : IReconstructionElement → loop_vars → completion loop_vars)
    pre el post v0 :
  for_of step (pre ++ el :: post) v0
  = (v ← for_of step pre v0; v' ← step el v; for_of step post v').
Proof. by rewrite walk_app. Qed.

(** With [fillMissingTranslationStrings], a falsy value is replaced by what
    the default locale reads: its value, escaped, or a [TypeError] when it
    reads [undefined]. *)
Lemma falsy_value_filled pre post vals sz name path dl locale v0 :
  Js.falsy (vals !! locale) = true →
  walk_localized true dl locale (pre ++ localized vals sz name path :: post) v0
  = (v ← walk_localized true dl locale pre v0;
     match vals !! dl with
     | Some d =>
         walk_localized true dl locale post
           {| issues := issues v;
              reconstruction := reconstruction v ++ [escape_quotes d];
              sizeDiff := sizeDiff v + (len (escape_quotes d) - sz) |}
     | None => Throw replace_of_undefined
     end).
Proof.
  intros Hf. rewrite walk_element.
  destruct (walk_localized true dl locale pre v0) as [v|e]; simpl; [|done].
  rewrite Hf. by destruct (vals !! dl).
Qed.

(** Without it, a falsy value is reported and replaced by the sentinel. *)
Lemma falsy_value_reported pre post vals sz name path dl locale v0 :
  Js.falsy (vals !! locale) = true →
  walk_localized false dl locale (pre ++ localized vals sz name path :: post) v0
  = (v ← walk_localized false dl locale pre v0;
     walk_localized false dl locale post
       {| issues := issues v ++ [missing_issue name path locale];
          reconstruction := reconstruction v ++ [MISSING_STRING];
          sizeDiff := sizeDiff v + (len MISSING_STRING - sz) |}).
Proof.
  intros Hf. rewrite walk_element.
  destruct (walk_localized false dl locale pre v0) as [v|e]; simpl; [|done].
  by rewrite Hf.
Qed.

(** With one requested locale, [_reconstructLocalized] is the walk of the
    series for it. *)
Lemma reconstructLocalized_one_locale series fill dl initialSize locale :
  _reconstructLocalized series [locale] fill dl initialSize
  = (v ← walk_localized fill dl locale series vars0;
     Normal {| loc_result :=
                 {[ locale := {| source := Js.join (reconstruction v);
                                 size := initialSize + sizeDiff v |} ]};
               loc_issues := issues v |}).
Proof.
  unfold _reconstructLocalized. cbn [for_of].
  unfold reconstructLocalized_locale. simpl. unfold vars0.
  by destruct (walk_localized fill dl locale series _).
Qed.

(** The fallback on the values [{ "en-us": "hello" }] for the locales
    [en-us] and [es-es]. *)
Example fallback_filled :
  _reconstructLocalized [localized hello_values 58 "greeting" "strings.loc.json"]
    ["en-us"; "es-es"] true "en-us" 58
  = Normal {| loc_result :=
                {[ "en-us" := {| source := "hello"; size := 5 |};
                   "es-es" := {| source := "hello"; size := 5 |} ]};
              loc_issues := [] |}.
Proof. vm_compute. reflexivity. Qed.

Example fallback_reported :
  _reconstructLocalized [localized hello_values 58 "greeting" "strings.loc.json"]
    ["en-us"; "es-es"] false "en-us" 58
  = Normal {| loc_result :=
                {[ "en-us" := {| source := "hello"; size := 5 |};
                   "es-es" := {| source := "-- MISSING STRING --"; size := 20 |} ]};
              loc_issues :=
                [missing_issue "greeting" "strings.loc.json" "es-es"] |}.
Proof. vm_compute. reflexivity. Qed.

(** ** Escaping *)


Lemma escape_quotes_each s : escape_quotes s = escape_each s.
Proof.
  unfold escape_quotes. induction s as [|c s IH]; [done|].
  cbn [Js.replace_all escape_each]. unfold escaped_char.
  destruct (Ascii.eqb c Js.quotemark) eqn:Hq.
  - rewrite <- IH. reflexivity.
  - cbn [Js.replace_all].
    destruct (Ascii.eqb c Js.apostrophe) eqn:Ha; by rewrite <- IH.
Qed.




(** ** The non-localized reconstructor, element by element *)

Lemma nonlocalized_walk noStrings series :
  ∀ v,
    for_of (reconstructNonLocalized_element noStrings) series v
    = (substituted ← mapM (nonlocalized_value noStrings) series;
       Normal
         (vars_app v
            {| issues := concat (nonlocalized_issues <$> series);
               reconstruction := substituted;
               sizeDiff := sum_deltas series substituted |})).
Proof.
  induction series as [|el series IH]; intros v.
  - simpl. by rewrite vars_app_0_r.
  - cbn [for_of mapM]. rewrite nonlocalized_element_frame.
    assert (Hel : reconstructNonLocalized_element noStrings el vars0
                  = (s ← nonlocalized_value noStrings el;
                     Normal {| issues := nonlocalized_issues el;
                               reconstruction := [s];
                               sizeDiff := element_delta el s |})).
    { by destruct el as [s | vals sz name path | f sz tok]. }
    rewrite Hel. destruct (nonlocalized_value noStrings el) as [s|e]; simpl; [|done].
    rewrite IH.
    destruct (mapM (nonlocalized_value noStrings) series) as [subs|e]; simpl;
      [|done].
    by rewrite vars_app_assoc.
Qed.

(** C5. The non-localized reconstructor, on every plan: it returns when
    every dynamic element's value function, called with
    [noStringsLocaleName] as the locale, returns; its issues are one per
    localized element of the plan, in order, each naming the string and its
    file; its text is the concatenation of the static strings, copied, of the
    sentinel [-- NOT EXPECTED TO BE LOCALIZED --] for each localized element
    and of the values of the dynamic elements; its size follows the
    incremental accounting. *)
Theorem non_localized_rendering series initialSize noStringsLocaleName :
  _reconstructNonLocalized series initialSize noStringsLocaleName
  = (substituted ← mapM (nonlocalized_value noStringsLocaleName) series;
     Normal
       {| nonloc_result :=
            {| source := Js.join substituted;
               size := initialSize + sum_deltas series substituted |};
          nonloc_issues := concat (nonlocalized_issues <$> series) |}).
Proof.
  unfold _reconstructNonLocalized. rewrite nonlocalized_walk.
  by destruct (mapM (nonlocalized_value noStringsLocaleName) series).
Qed.

(** The leakage of one localized string into an asset that expects none. *)
Example non_localized_leak :
  _reconstructNonLocalized size_law_series 1000 "none"
  = Normal
      {| nonloc_result :=
           {| source := "var s = '-- NOT EXPECTED TO BE LOCALIZED --', l = 'none';";
              size := 1000 + (34 - 58) + (4 - 58) |};
         nonloc_issues := [not_expected_issue "greeting" "strings.loc.json"] |}.
Proof. reflexivity. Qed.

(** * The parser *)

(** ** Strings *)

Lemma str_length_app s t :
  String.length (s +:+ t) = (String.length s + String.length t)%nat.
Proof. induction s as [|a s IH]; simpl; [done|]. by rewrite IH. Qed.

Lemma str_app_cons a s t : String a s +:+ t = String a (s +:+ t).
Proof. reflexivity. Qed.

Lemma str_app_assoc s t u : (s +:+ t) +:+ u = s +:+ t +:+ u.
Proof. induction s as [|a s IH]; [done|]. by rewrite !str_app_cons, IH. Qed.

Lemma drop_length_le s n :
  (n ≤ String.length s)%nat →
  String.length (Js.drop n s) = (String.length s - n)%nat.
Proof.
  revert s. induction n as [|n IH]; intros [|a s]; simpl; try lia.
  intros H. apply IH. lia.
Qed.

Lemma drop_drop s n k : Js.drop k (Js.drop n s) = Js.drop (n + k) s.
Proof.
  revert s. induction n as [|n IH]; intros s; simpl; [done|].
  destruct s as [|a s]; [by destruct k|]. apply IH.
Qed.

Lemma take_app s t : Js.take (String.length s) (s +:+ t) = s.
Proof. induction s as [|a s IH]; simpl; [by destruct t|]. by rewrite IH. Qed.

(** ** The pattern *)

Lemma literal_Some p s r : Regex.literal p s = Some r → s = p +:+ r.
Proof.
  revert s. induction p as [|a p IH]; intros [|b s]; simpl; try done.
  - by intros [= <-].
  - by intros [= <-].
  - destruct (Ascii.eqb_spec a b) as [->|]; [|done].
    intros H. by rewrite (IH _ H).
Qed.

Lemma literal_app p s : Regex.literal p (p +:+ s) = Some s.
Proof.
  induction p as [|a p IH]; simpl; [by destruct s|].
  by rewrite Ascii.eqb_refl.
Qed.

Lemma span_app f s run rest : Regex.span f s = (run, rest) → s = run +:+ rest.
Proof.
  revert run rest. induction s as [|a s IH]; intros run rest; simpl.
  - by intros [= <- <-].
  - destruct (f a).
    + destruct (Regex.span f s) as [run' rest'] eqn:Hs. intros [= <- <-].
      simpl. by rewrite (IH _ _ eq_refl).
    + by intros [= <- <-].
Qed.

Lemma serial_Some s digits rest :
  Regex.serial s = Some (digits, rest) → s = "_" +:+ digits +:+ rest.
Proof.
  destruct s as [|a s]; simpl; [done|].
  destruct (Ascii.eqb_spec a "_") as [->|]; [|done].
  destruct (Regex.span Regex.is_digit s) as [[|d ds] r] eqn:Hs; [done|].
  intros [= <- <-]. by rewrite (span_app _ _ _ _ Hs).
Qed.

Lemma plus_token_Some s tok rest :
  Regex.plus_token s = Some (tok, rest) → s = tok +:+ rest.
Proof.
  destruct s as [|a s]; simpl; [done|].
  destruct (Ascii.eqb_spec a "+") as [->|]; [|done].
  destruct (Regex.span Regex.not_plus s) as [[|c body] [|b r]] eqn:Hs; try done.
  destruct (Ascii.eqb_spec b "+") as [->|]; [|done].
  intros [= <- <-]. rewrite (span_app _ _ _ _ Hs).
  rewrite !str_app_assoc. reflexivity.
Qed.

Lemma is_A_to_C_label l :
  Regex.is_A_to_C l = true → l = "A"%char ∨ l = "B"%char ∨ l = "C"%char.
Proof.
  unfold Regex.is_A_to_C. intros H.
  apply andb_true_iff in H as [H1 H2].
  apply Nat.leb_le in H1, H2.
  rewrite <- (ascii_nat_embedding l).
  assert (Hn : nat_of_ascii l = 65%nat ∨ nat_of_ascii l = 66%nat
               ∨ nat_of_ascii l = 67%nat) by lia.
  destruct Hn as [-> | [-> | ->]]; auto.
Qed.

(** The first group of a match is the matched text, at the head of the
    string; the second is one of the three labels. *)
Lemma match_here_Some s g0 g1 g2 g3 :
  Regex.match_here s = Some (g0, g1, g2, g3) →
  (∃ rest, s = g0 +:+ rest)
  ∧ (g1 = "A" ∨ g1 = "B" ∨ g1 = "C")
  ∧ (1 ≤ String.length g0)%nat.
Proof.
  unfold Regex.match_here.
  destruct (Regex.literal _ s) as [s1|] eqn:Hlit; simpl; [|done].
  apply literal_Some in Hlit as ->.
  destruct s1 as [|u [|l s2]]; try done.
  destruct (Ascii.eqb_spec u "_") as [->|]; simpl; [|done].
  destruct (Regex.is_A_to_C l) eqn:Hl; [|done].
  apply is_A_to_C_label in Hl.
  assert (Hwithout :
    ('(digits, _) ← Regex.serial s2;
     Some (Constants.STRING_PLACEHOLDER_PREFIX +:+ "_" +:+ String l ""
             +:+ "_" +:+ digits, String l "", @None string, digits))
    = Some (g0, g1, g2, g3) →
    (∃ rest, Constants.STRING_PLACEHOLDER_PREFIX +:+ String "_" (String l s2)
             = g0 +:+ rest)
    ∧ (g1 = "A" ∨ g1 = "B" ∨ g1 = "C") ∧ (1 ≤ String.length g0)%nat).
  { destruct (Regex.serial s2) as [[digits rest]|] eqn:Hser; simpl; [|done].
    intros [= <- <- <- <-]. apply serial_Some in Hser as ->.
    split; [|split].
    - exists rest. by rewrite !str_app_assoc.
    - destruct Hl as [-> | [-> | ->]]; auto.
    - rewrite str_length_app. simpl. lia. }
  destruct (Regex.plus_token s2) as [[tok s3]|] eqn:Htok; [|done].
  destruct (Regex.serial s3) as [[digits rest]|] eqn:Hser; [|done].
  intros [= <- <- <- <-].
  apply plus_token_Some in Htok as ->. apply serial_Some in Hser as ->.
  split; [|split].
  - exists rest. by rewrite !str_app_assoc.
  - destruct Hl as [-> | [-> | ->]]; auto.
  - rewrite str_length_app. simpl. lia.
Qed.

Lemma search_Some s i m :
  Regex.search s i = Some m →
  (i ≤ index m)%nat
  ∧ (index m + String.length (placeholder m) ≤ i + String.length s)%nat
  ∧ (1 ≤ String.length (placeholder m))%nat
  ∧ label_A_to_C m
  ∧ ∃ rest, Js.drop (index m - i) s = placeholder m +:+ rest.
Proof.
  revert i. induction s as [|a s IH]; intros i; simpl.
  - destruct (Regex.match_here "") as [g|] eqn:Hg; [|done].
    by vm_compute in Hg.
  - destruct (Regex.match_here (String a s)) as [[[[g0 g1] g2] g3]|] eqn:Hg.
    + intros [= <-]. simpl.
      apply match_here_Some in Hg as ([rest Hrest] & Hlabel & Hlen).
      split; [lia|]. split; [|split; [done|split; [done|]]].
      * apply (f_equal String.length) in Hrest. rewrite str_length_app in Hrest.
        simpl in Hrest. lia.
      * exists rest. by rewrite Nat.sub_diag.
    + intros H. apply IH in H as (Hi & Hend & Hlen & Hlabel & rest & Hrest).
      split; [lia|]. split; [lia|]. split; [done|]. split; [done|].
      exists rest. replace (index m - i)%nat with (S (index m - S i)) by lia.
      done.
Qed.

Lemma search_None s i j : Regex.search s i = None → Regex.search s j = None.
Proof.
  revert i j. induction s as [|a s IH]; intros i j; cbn [Regex.search].
  - by destruct (Regex.match_here "").
  - destruct (Regex.match_here (String a s)); [done|]. apply IH.
Qed.

Lemma search_None_drop s i k j :
  Regex.search s i = None → Regex.search (Js.drop k s) j = None.
Proof.
  revert s i j. induction k as [|k IH]; intros s i j; simpl.
  - apply search_None.
  - destruct s as [|a s]; [apply search_None|].
    cbn [Regex.search]. destruct (Regex.match_here (String a s)); [done|].
    apply IH.
Qed.

Lemma exec_Some source re m re' :
  Regex.exec source re = (Some m, re') →
  (re ≤ index m)%nat
  ∧ re' = (index m + String.length (placeholder m))%nat
  ∧ (re < re')%nat ∧ (re' ≤ String.length source)%nat
  ∧ label_A_to_C m
  ∧ Js.substring source (index m) re' = placeholder m.
Proof.
  unfold Regex.exec. destruct (Nat.ltb_spec (String.length source) re); [done|].
  destruct (Regex.search _ re) as [m'|] eqn:Hs; [|done].
  intros [= -> <-].
  apply search_Some in Hs as (Hi & Hend & Hlen & Hlabel & rest & Hrest).
  rewrite drop_length_le in Hend by done.
  rewrite drop_drop in Hrest.
  replace (re + (index m - re))%nat with (index m) in Hrest by lia.
  repeat split; try done; try lia.
  unfold Js.substring.
  rewrite Nat.min_l, Nat.max_r by lia.
  replace (index m + String.length (placeholder m) - index m)%nat
    with (String.length (placeholder m)) by lia.
  by rewrite Hrest, take_app.
Qed.

Lemma exec_None source re re' : Regex.exec source re = (None, re') → re' = O.
Proof.
  unfold Regex.exec. destruct (_ <? _)%nat; [by intros [= <-]|].
  destruct (Regex.search _ re); [done|]. by intros [= <-].
Qed.

Lemma exec_no_match source re :
  Regex.search source 0 = None → Regex.exec source re = (None, O).
Proof.
  intros H. unfold Regex.exec. destruct (_ <? _)%nat; [done|].
  by rewrite (search_None_drop _ _ re re H).
Qed.

(** ** The [switch] on the label *)

Lemma parse_label_frame plugin jsonp m issues :
  parse_label plugin jsonp m issues
  = ('(element, new) ← parse_label plugin jsonp m [];
     Normal (element, issues ++ new)).
Proof.
  unfold parse_label.
  destruct (String.eqb _ Constants.STRING_PLACEHOLDER_LABEL).
  { destruct (plugin _); simpl; by rewrite ?app_nil_r. }
  destruct (String.eqb _ Constants.LOCALE_NAME_PLACEHOLDER_LABEL).
  { simpl. by rewrite app_nil_r. }
  destruct (String.eqb _ Constants.JSONP_PLACEHOLDER_LABEL); [|done].
  destruct (token m); simpl; by rewrite ?app_nil_r.
Qed.

Lemma parse_label_Throw plugin jsonp m issues e :
  label_A_to_C m →
  parse_label plugin jsonp m issues = Throw e →
  e = substring_of_undefined ∧ elementLabel m = "C" ∧ token m = None.
Proof.
  unfold parse_label. intros [-> | [-> | ->]]; simpl.
  - by destruct (plugin _).
  - done.
  - destruct (token m); [done|]. by intros [= <-].
Qed.

Lemma parse_label_Normal plugin jsonp m :
  label_A_to_C m → has_token m →
  parse_label plugin jsonp m []
  = Normal (element_of plugin jsonp m, issues_of plugin jsonp m).
Proof.
  intros Hl Ht. unfold element_of, issues_of.
  destruct (parse_label plugin jsonp m []) as [[el new]|e] eqn:Hp; [done|].
  apply parse_label_Throw in Hp as (_ & HC & Hnone); [|done].
  destruct (Ht HC) as [t Htok]. congruence.
Qed.

(** ** The loop *)

Section Parser.

Variable plugin : LocalizationPlugin.
Variable jsonpFunction : valueFn_t.
Variable source : string.

(** The loop ends: every match moves the regular expression's
    [lastIndex] forward. *)
Lemma parse_loop_total fuel :
  ∀ re lastIndex issues series,
    (1 ≤ fuel)%nat → (String.length source < fuel + re)%nat →
    ∃ r, parse_loop fuel plugin jsonpFunction source re lastIndex issues series
         = Some r.
Proof.
  induction fuel as [|fuel IH]; intros re li iss ser Hpos Hfuel; [lia|].
  cbn [parse_loop].
  destruct (Regex.exec source re) as [[m|] re'] eqn:Hexec; [|by eexists].
  destruct (parse_label plugin jsonpFunction m iss) as [[el iss']|e];
    [|by eexists].
  apply exec_Some in Hexec as (_ & _ & Hlt & Hle & _).
  apply IH; lia.
Qed.

(** The only error of the loop is the [TypeError] of [token.substring] on
    a JSONP placeholder without a token. *)
Lemma parse_loop_Throw fuel :
  ∀ re lastIndex issues series e re',
    parse_loop fuel plugin jsonpFunction source re lastIndex issues series
    = Some (Throw e, re') →
    e = substring_of_undefined.
Proof.
  induction fuel as [|fuel IH]; intros re li iss ser e re'; [done|].
  cbn [parse_loop].
  destruct (Regex.exec source re) as [[m|] re1] eqn:Hexec; [|done].
  apply exec_Some in Hexec as (_ & _ & _ & _ & Hlabel & _).
  destruct (parse_label plugin jsonpFunction m iss) as [[el iss']|e1] eqn:Hp.
  - apply IH.
  - intros [= <- <-]. by apply parse_label_Throw in Hp as (-> & _).
Qed.

(** When every JSONP placeholder has its token, the loop returns the
    series and the issues of the matches it meets, and leaves the regular
    expression at [lastIndex = 0]. *)
Lemma parse_loop_scan fuel :
  ∀ re lastIndex issues series,
    (1 ≤ fuel)%nat → (String.length source < fuel + re)%nat →
    Forall has_token (scan fuel source re) →
    parse_loop fuel plugin jsonpFunction source re lastIndex issues series
    = Some
        (Normal
           {| parse_issues :=
                issues
                ++ concat (issues_of plugin jsonpFunction
                             <$> scan fuel source re);
              reconstructionSeries :=
                series
                ++ series_of plugin jsonpFunction source lastIndex
                     (scan fuel source re) |},
         O).
Proof.
  induction fuel as [|fuel IH]; intros re li iss ser Hpos Hfuel; [lia|].
  cbn [parse_loop scan].
  destruct (Regex.exec source re) as [[m|] re'] eqn:Hexec.
  - intros Hall. apply Forall_cons in Hall as [Hm Hall].
    apply exec_Some in Hexec as (_ & -> & Hlt & Hle & Hlabel & _).
    rewrite parse_label_frame, (parse_label_Normal _ _ _ Hlabel Hm). simpl.
    rewrite IH by (done || lia).
    by rewrite <- !app_assoc.
  - intros _. apply exec_None in Hexec as ->. simpl.
    by rewrite app_nil_r.
Qed.

Lemma scan_exec fuel :
  ∀ re m, m ∈ scan fuel source re →
          ∃ re0 re', Regex.exec source re0 = (Some m, re').
Proof.
  induction fuel as [|fuel IH]; intros re m; cbn [scan].
  - by intros ?%elem_of_nil.
  - destruct (Regex.exec source re) as [[m'|] re'] eqn:Hexec.
    + intros [->|Hin]%elem_of_cons; [by eauto|]. by eapply IH.
    + by intros ?%elem_of_nil.
Qed.

Lemma series_of_length ms :
  ∀ lastIndex,
    length (series_of plugin jsonpFunction source lastIndex ms)
    = (2 * length ms + 1)%nat.
Proof.
  induction ms as [|m ms IH]; intros li; simpl; [done|]. rewrite IH. lia.
Qed.

Lemma series_of_lookup ms :
  ∀ k m lastIndex,
    ms !! k = Some m →
    series_of plugin jsonpFunction source lastIndex ms !! (2 * k + 1)%nat
    = Some (element_of plugin jsonpFunction m).
Proof.
  induction ms as [|m' ms IH]; intros k m li; [done|].
  destruct k as [|k]; simpl.
  - by intros [= ->].
  - intros Hk. replace (k + S (k + 0) + 1)%nat with (S (2 * k + 1)) by lia.
    simpl. by apply IH.
Qed.

End Parser.

(** The parser always returns. *)
Lemma parse_total plugin source jsonpFunction re :
  ∃ r, _parseStringToReconstructionSequence plugin source jsonpFunction re
       = Some r.
Proof. apply parse_loop_total; lia. Qed.

(** A parse that returns normally leaves [PLACEHOLDER_REGEX] with
    [lastIndex = 0], where the next parse expects it. *)
Lemma parse_resets_lastIndex plugin source jsonpFunction re r re' :
  _parseStringToReconstructionSequence plugin source jsonpFunction re
  = Some (Normal r, re') →
  re' = O.
Proof.
  unfold _parseStringToReconstructionSequence.
  assert (Hloop : ∀ fuel re li iss ser,
            parse_loop fuel plugin jsonpFunction source re li iss ser
            = Some (Normal r, re') → re' = O); [|apply Hloop].
  induction fuel as [|fuel IH]; intros re0 li iss ser; [done|].
  cbn [parse_loop].
  destruct (Regex.exec source re0) as [[m|] re1] eqn:Hexec.
  - destruct (parse_label plugin jsonpFunction m iss) as [[el iss']|e];
      [apply IH | done].
  - intros [= _ <-]. by apply exec_None in Hexec.
Qed.

(** ** A placeholder whose serial number is not in the string table *)

Lemma element_of_missing plugin jsonp m :
  elementLabel m = "A" → plugin (placeholderSerialNumber m) = None →
  element_of plugin jsonp m = static (placeholder m)
  ∧ issues_of plugin jsonp m = ["Missing placeholder " +:+ placeholder m].
Proof.
  intros Hl Hnone. unfold element_of, issues_of, parse_label.
  by rewrite Hl, Hnone.
Qed.

(** C6, as stated, fails on a source that also holds a JSONP placeholder
    without its token: the string placeholder of the unknown serial number 8
    is followed by such a placeholder, and the parser throws at the latter,
    leaving [lastIndex] behind it. *)
Lemma missing_serial_then_tokenless_throws :
  placeholders missing_serial_tokenless_source !! 0%nat
  = Some missing_serial_match
  ∧ elementLabel missing_serial_match = "A"
  ∧ table (placeholderSerialNumber missing_serial_match) = None
  ∧ _parseStringToReconstructionSequence table missing_serial_tokenless_source
      unsupported 0
    = Some (Throw (TypeError "Cannot read property 'substring' of undefined"),
            120%nat).
Proof. vm_compute. by repeat split. Qed.

(** C6, amended. A label-A placeholder met by the scan of a source text whose
    serial number is not in the string table does not make the parser fail: in
    a source whose JSONP placeholders all have their token, the parser returns;
    the element at the place of the placeholder is a static element holding
    the placeholder's text, which is the text of the source there; the issue
    [Missing placeholder ...] is recorded; the series holds an element for
    every placeholder of the source, those after it too; and both
    reconstructors copy the element's text and leave the size difference as it
    was. *)
Theorem missing_serial_number plugin jsonpFunction source k m :
  placeholders source !! k = Some m →
  elementLabel m = "A" →
  plugin (placeholderSerialNumber m) = None →
  Forall has_token (placeholders source) →
  ∃ r,
    _parseStringToReconstructionSequence plugin source jsonpFunction 0
    = Some (Normal r, O)
    ∧ reconstructionSeries r !! (2 * k + 1)%nat = Some (static (placeholder m))
    ∧ Js.substring source (index m)
        (index m + String.length (placeholder m)) = placeholder m
    ∧ ("Missing placeholder " +:+ placeholder m) ∈ parse_issues r
    ∧ length (reconstructionSeries r)
      = (2 * length (placeholders source) + 1)%nat
    ∧ (∀ fill defaultLocale locale v,
         reconstructLocalized_element fill defaultLocale locale
           (static (placeholder m)) v
         = Normal {| issues := issues v;
                     reconstruction := reconstruction v ++ [placeholder m];
                     sizeDiff := sizeDiff v |})
    ∧ (∀ noStringsLocaleName v,
         reconstructNonLocalized_element noStringsLocaleName
           (static (placeholder m)) v
         = Normal {| issues := issues v;
                     reconstruction := reconstruction v ++ [placeholder m];
                     sizeDiff := sizeDiff v |}).
Proof.
  intros Hk Hlabel Hnone Htokens.
  destruct (element_of_missing plugin jsonpFunction m Hlabel Hnone)
    as [Hel Hiss].
  eexists. split; [|split; [|split; [|split; [|split; [|split]]]]].
  - unfold _parseStringToReconstructionSequence.
    apply parse_loop_scan; [lia | lia | exact Htokens].
  - simpl. fold (placeholders source).
    by rewrite (series_of_lookup _ _ _ _ _ _ _ Hk), Hel.
  - apply list_elem_of_lookup_2 in Hk.
    apply scan_exec in Hk as (re0 & re' & Hexec).
    by apply exec_Some in Hexec as (_ & -> & _ & _ & _ & Hsub).
  - simpl. fold (placeholders source).
    apply list_elem_of_In, in_concat.
    exists (issues_of plugin jsonpFunction m). split.
    + apply list_elem_of_In, list_elem_of_fmap_2.
      by apply list_elem_of_lookup_2 in Hk.
    + rewrite Hiss. by left.
  - simpl. fold (placeholders source). apply series_of_length.
  - done.
  - done.
Qed.

Lemma missing_serial_number_witness :
  ∃ r,
    _parseStringToReconstructionSequence table missing_serial_source
      unsupported 0
    = Some (Normal r, O)
    ∧ reconstructionSeries r !! 1%nat
      = Some (static (Constants.STRING_PLACEHOLDER_PREFIX +:+ "_A_8"))
    ∧ ("Missing placeholder " +:+ Constants.STRING_PLACEHOLDER_PREFIX +:+ "_A_8")
      ∈ parse_issues r
    ∧ length (reconstructionSeries r) = 7%nat.
Proof.
  destruct (missing_serial_number table unsupported missing_serial_source 0
              missing_serial_match)
    as (r & Hr & Hel & _ & Hissue & Hlen & _).
  - vm_compute. reflexivity.
  - reflexivity.
  - reflexivity.
  - vm_compute.
    repeat (apply Forall_cons; split;
            [intros H; first [discriminate H | by eexists]|]).
    by apply Forall_nil.
  - exists r. repeat split; [exact Hr | exact Hel | exact Hissue | exact Hlen].
Defined.

(** ** A label outside [A-C] *)

(** C7, as stated, fails: the prefix followed by the label [D] is not a match
    of the pattern, whose label is [[A-C]]; the parser returns it as static
    text, with no error and no issue. *)
Lemma unknown_label_is_static_text :
  _parseStringToReconstructionSequence table unknown_label_source unsupported 0
  = Some (Normal {| parse_issues := [];
                    reconstructionSeries := [static unknown_label_source] |},
          O).
Proof. vm_compute. reflexivity. Qed.

Lemma is_A_to_C_other l :
  l ≠ "A"%char → l ≠ "B"%char → l ≠ "C"%char → Regex.is_A_to_C l = false.
Proof.
  intros HA HB HC. destruct (Regex.is_A_to_C l) eqn:H; [|done].
  by destruct (is_A_to_C_label l H) as [-> | [-> | ->]].
Qed.

(** C7, amended. The parser never fails with an [Unexpected label] error,
    on any source text: the pattern admits the labels A, B and C only, so the
    prefix followed by another label is not a placeholder, and the [default]
    case of the [switch] is never reached. *)
Theorem unexpected_label_unreachable :
  (∀ plugin source jsonpFunction re result re' label,
     _parseStringToReconstructionSequence plugin source jsonpFunction re
     = Some (result, re') →
     result ≠ Throw (Error ("Unexpected label " +:+ label)))
  ∧ (∀ l rest,
       l ≠ "A"%char → l ≠ "B"%char → l ≠ "C"%char →
       Regex.match_here
         (Constants.STRING_PLACEHOLDER_PREFIX +:+ "_" +:+ String l rest)
       = None).
Proof.
  split.
  - intros plugin source jsonp re result re' label Hparse ->.
    by apply parse_loop_Throw in Hparse.
  - intros l rest HA HB HC. unfold Regex.match_here.
    rewrite literal_app. simpl.
    by rewrite (is_A_to_C_other l HA HB HC).
Qed.

Lemma unexpected_label_unreachable_witness :
  Throw (A := IParseResult) substring_of_undefined
  ≠ Throw (Error ("Unexpected label " +:+ "C"))
  ∧ Regex.match_here unknown_label_source = None.
Proof.
  destruct unexpected_label_unreachable as [Hnever Hlabel]. split.
  - apply (Hnever table (Constants.STRING_PLACEHOLDER_PREFIX +:+ "_C_0")
             unsupported O _ 58%nat "C").
    vm_compute. reflexivity.
  - apply (Hlabel "D"%char "_0"); discriminate.
Defined.

(** ** A source without placeholders *)

Lemma str_app_nil_r s : s +:+ "" = s.
Proof. induction s as [|a s IH]; [done|]. by rewrite str_app_cons, IH. Qed.

Lemma static_only_locale text initialSize fill dl locale st :
  reconstructLocalized_locale [static text] fill dl initialSize locale st
  = Normal (<[locale := {| source := text; size := initialSize |}]> st.1, st.2).
Proof.
  unfold reconstructLocalized_locale. simpl.
  by rewrite str_app_nil_r, Z.add_0_r.
Qed.

Lemma static_only_locales text initialSize fill dl locales :
  ∀ st,
    ∃ st',
      for_of (reconstructLocalized_locale [static text] fill dl initialSize)
        locales st = Normal st'
      ∧ st'.2 = st.2
      ∧ ∀ locale,
          st'.1 !! locale
          = if bool_decide (locale ∈ locales)
            then Some {| source := text; size := initialSize |}
            else st.1 !! locale.
Proof.
  induction locales as [|l locales IH]; intros st.
  - exists st. by repeat split.
  - cbn [for_of]. rewrite static_only_locale. simpl.
    destruct (IH (<[l := {| source := text; size := initialSize |}]> st.1, st.2))
      as (st' & Hrun & Hiss & Hmap).
    exists st'. split; [done|]. split; [done|]. intros locale.
    rewrite Hmap. simpl.
    destruct (decide (locale ∈ locales)) as [Hin|Hnin].
    + rewrite !bool_decide_eq_true_2; [done | | done]. by right.
    + rewrite (bool_decide_eq_false_2 _ Hnin).
      destruct (decide (l = locale)) as [->|Hne].
      * rewrite lookup_insert_eq, bool_decide_eq_true_2; [done|]. by left.
      * rewrite lookup_insert_ne by done.
        rewrite bool_decide_eq_false_2; [done|].
        by intros [->|?]%elem_of_cons.
Qed.

(** C8. Round trip of a source without placeholders: when the pattern has
    no match in the source, the parser (whatever [lastIndex] the regular
    expression was left with) returns the plan made of one static element, the
    whole source, and no issue; the localized reconstructor renders that plan,
    for every requested locale, as the source itself with the initial size,
    and so does the non-localized reconstructor. *)
Theorem no_placeholder_round_trip plugin jsonpFunction source re :
  Regex.search source 0 = None →
  _parseStringToReconstructionSequence plugin source jsonpFunction re
  = Some (Normal {| parse_issues := [];
                    reconstructionSeries := [static source] |}, O)
  ∧ (∀ locales fill defaultLocale initialSize,
       ∃ r,
         _reconstructLocalized [static source] locales fill defaultLocale
           initialSize = Normal r
         ∧ loc_issues r = []
         ∧ ∀ locale,
             loc_result r !! locale
             = if bool_decide (locale ∈ locales)
               then Some {| source := source; size := initialSize |}
               else None)
  ∧ (∀ initialSize noStringsLocaleName,
       _reconstructNonLocalized [static source] initialSize noStringsLocaleName
       = Normal {| nonloc_result := {| source := source; size := initialSize |};
                   nonloc_issues := [] |}).
Proof.
  intros Hnone. split; [|split].
  - unfold _parseStringToReconstructionSequence. cbn [parse_loop].
    by rewrite (exec_no_match _ _ Hnone).
  - intros locales fill dl initialSize. unfold _reconstructLocalized.
    destruct (static_only_locales source initialSize fill dl locales (∅, []))
      as (st' & -> & Hiss & Hmap).
    eexists. split; [reflexivity|]. split; [done|].
    intros locale. simpl. rewrite Hmap. simpl.
    by rewrite lookup_empty.
  - intros initialSize noStrings. unfold _reconstructNonLocalized. simpl.
    by rewrite str_app_nil_r, Z.add_0_r.
Qed.

Lemma no_placeholder_round_trip_witness :
  _parseStringToReconstructionSequence table plain_source unsupported 0
  = Some (Normal {| parse_issues := [];
                    reconstructionSeries := [static plain_source] |}, O)
  ∧ _reconstructNonLocalized [static plain_source] 31 "none"
    = Normal {| nonloc_result := {| source := plain_source; size := 31 |};
                nonloc_issues := [] |}.
Proof.
  destruct (no_placeholder_round_trip table unsupported plain_source 0)
    as (Hparse & _ & Hnonloc).
  - vm_compute. reflexivity.
  - split; [exact Hparse | exact (Hnonloc 31 "none")].
Defined.

(** * The JSONP resolver *)

Lemma elem_of_set_add x y s : x ∈ set_add y s ↔ x = y ∨ x ∈ s.
Proof.
  unfold set_add. case_bool_decide as Hy.
  - split; [by right | by intros [->|]].
  - rewrite elem_of_app, list_elem_of_singleton. tauto.
Qed.

Lemma partition_ids_from asyncChunks :
  ∀ w0 wo0 w wo,
    foldl
      (fun '(idsWithStrings, idsWithoutStrings) asyncChunk =>
         if getMark asyncChunk then
           (set_add (id asyncChunk) idsWithStrings, idsWithoutStrings)
         else
           (idsWithStrings, set_add (id asyncChunk) idsWithoutStrings))
      (w0, wo0) asyncChunks = (w, wo) →
    (∀ x, x ∈ w ↔
          x ∈ w0 ∨ ∃ c, c ∈ asyncChunks ∧ id c = x ∧ getMark c = true)
    ∧ (∀ x, x ∈ wo ↔
            x ∈ wo0 ∨ ∃ c, c ∈ asyncChunks ∧ id c = x ∧ getMark c = false).
Proof.
  induction asyncChunks as [|c cs IH]; intros w0 wo0 w wo; simpl.
  - intros [= <- <-]. split; intros x; split; auto.
    + by intros [? | (c & ?%elem_of_nil & _)].
    + by intros [? | (c & ?%elem_of_nil & _)].
  - destruct (getMark c) eqn:Hc; intros H; apply IH in H as [Hw Hwo];
      split; intros x; rewrite ?Hw, ?Hwo, ?elem_of_set_add.
    + split.
      * intros [[-> | ?] | (c' & Hin & Hid & Hm)]; eauto.
        -- right. exists c. split; [by left | done].
        -- right. exists c'. split; [by right | done].
      * intros [? | (c' & [-> | Hin]%elem_of_cons & Hid & Hm)]; eauto 6.
    + split.
      * intros [? | (c' & Hin & Hid & Hm)]; eauto.
        right. exists c'. split; [by right | done].
      * intros [? | (c' & [-> | Hin]%elem_of_cons & Hid & Hm)]; eauto 6.
        congruence.
    + split.
      * intros [? | (c' & Hin & Hid & Hm)]; eauto.
        right. exists c'. split; [by right | done].
      * intros [? | (c' & [-> | Hin]%elem_of_cons & Hid & Hm)]; eauto 6.
        congruence.
    + split.
      * intros [[-> | ?] | (c' & Hin & Hid & Hm)]; eauto.
        -- right. exists c. split; [by left | done].
        -- right. exists c'. split; [by right | done].
      * intros [? | (c' & [-> | Hin]%elem_of_cons & Hid & Hm)]; eauto 6.
Qed.

Lemma partition_ids_spec asyncChunks :
  (∀ x, x ∈ (partition_ids asyncChunks).1 ↔
        ∃ c, c ∈ asyncChunks ∧ id c = x ∧ getMark c = true)
  ∧ (∀ x, x ∈ (partition_ids asyncChunks).2 ↔
          ∃ c, c ∈ asyncChunks ∧ id c = x ∧ getMark c = false).
Proof.
  destruct (partition_ids asyncChunks) as [w wo] eqn:Hp.
  apply partition_ids_from in Hp as [Hw Hwo].
  split; intros x; rewrite ?Hw, ?Hwo; split; auto.
  - by intros [?%elem_of_nil|].
  - by intros [?%elem_of_nil|].
Qed.

Lemma obj_get_put k v o x :
  Obj.get x (Obj.put k v o) = if String.eqb k x then Some v else Obj.get x o.
Proof.
  unfold Obj.get. induction o as [|[k' v'] o IH]; simpl.
  - by destruct (String.eqb k x).
  - destruct (String.eqb_spec k' k) as [->|Hne]; simpl.
    + by destruct (String.eqb k x).
    + destruct (String.eqb_spec k' x) as [->|Hne']; simpl.
      * by rewrite (proj2 (String.eqb_neq k x)).
      * apply IH.
Qed.

Lemma obj_get_set k v o x :
  Obj.get x (Obj.set k v o)
  = if bool_decide (k = x ∧ x ≠ "__proto__") then Some v else Obj.get x o.
Proof.
  unfold Obj.set. destruct (String.eqb_spec k "__proto__") as [->|Hk].
  - rewrite bool_decide_eq_false_2; [done|]. by intros [<- ?].
  - rewrite obj_get_put. destruct (String.eqb_spec k x) as [->|Hne].
    + by rewrite bool_decide_eq_true_2.
    + rewrite bool_decide_eq_false_2; [done|]. by intros [? _].
Qed.

Lemma obj_get_set_all v ks :
  ∀ o x,
    Obj.get x (foldl (fun o k => Obj.set k v o) o ks)
    = if bool_decide (x ∈ ks ∧ x ≠ "__proto__") then Some v else Obj.get x o.
Proof.
  induction ks as [|k ks IH]; intros o x; cbn [foldl].
  - rewrite bool_decide_eq_false_2; [done|]. by intros [?%elem_of_nil _].
  - rewrite IH, obj_get_set.
    destruct (decide (x ∈ ks ∧ x ≠ "__proto__")) as [[Hin Hx]|Hnin].
    + rewrite !bool_decide_eq_true_2; [done | | done]. split; [by right|done].
    + rewrite (bool_decide_eq_false_2 _ Hnin).
      destruct (decide (k = x ∧ x ≠ "__proto__")) as [[-> Hx]|Hne].
      * rewrite !bool_decide_eq_true_2; [done | | done]. split; [by left|done].
      * rewrite !bool_decide_eq_false_2; [done | | done].
        intros [[->|?]%elem_of_cons Hx]; [by apply Hne | by apply Hnin].
Qed.

Lemma build_chunkMapping_get w wo x :
  Obj.get x (build_chunkMapping w wo)
  = if bool_decide (x ∈ wo ∧ x ≠ "__proto__") then Some 1%nat
    else if bool_decide (x ∈ w ∧ x ≠ "__proto__") then Some 0%nat
    else None.
Proof. unfold build_chunkMapping. by rewrite !obj_get_set_all. Qed.

(** The keys of an object stay distinct. *)
Lemma obj_put_keys k v o x : x ∈ (Obj.put k v o).*1 ↔ x = k ∨ x ∈ o.*1.
Proof.
  induction o as [|[k' v'] o IH]; simpl.
  - rewrite list_elem_of_singleton. split; [by left|]. intros [?|?%elem_of_nil]; done.
  - destruct (String.eqb_spec k' k) as [->|Hne]; simpl.
    + rewrite !elem_of_cons. tauto.
    + rewrite !elem_of_cons, IH. tauto.
Qed.

Lemma obj_put_NoDup k v o : NoDup o.*1 → NoDup (Obj.put k v o).*1.
Proof.
  induction o as [|[k' v'] o IH]; simpl; intros Hnd.
  - apply NoDup_singleton.
  - apply NoDup_cons in Hnd as [Hk' Hnd].
    destruct (String.eqb_spec k' k) as [->|Hne]; simpl.
    + by apply NoDup_cons.
    + apply NoDup_cons. split; [|by apply IH].
      rewrite obj_put_keys. intros [?|?]; done.
Qed.

Lemma obj_set_NoDup k v o : NoDup o.*1 → NoDup (Obj.set k v o).*1.
Proof.
  unfold Obj.set. destruct (String.eqb k "__proto__"); [done|].
  apply obj_put_NoDup.
Qed.

Lemma obj_set_all_NoDup v ks :
  ∀ o, NoDup o.*1 → NoDup (foldl (fun o k => Obj.set k v o) o ks).*1.
Proof.
  induction ks as [|k ks IH]; intros o Hnd; cbn [foldl]; [done|].
  by apply IH, obj_set_NoDup.
Qed.

Lemma build_chunkMapping_NoDup w wo : NoDup (build_chunkMapping w wo).*1.
Proof.
  unfold build_chunkMapping. do 2 apply obj_set_all_NoDup. apply NoDup_nil_2.
Qed.

(** With distinct keys, the properties of an object are what [get] reads. *)
Lemma obj_elem_get o :
  NoDup o.*1 → ∀ x n, (x, n) ∈ o ↔ Obj.get x o = Some n.
Proof.
  unfold Obj.get. induction o as [|[k v] o IH]; simpl; intros Hnd x n.
  - split; [by intros ?%elem_of_nil | done].
  - apply NoDup_cons in Hnd as [Hk Hnd]. rewrite elem_of_cons, (IH Hnd).
    destruct (String.eqb_spec k x) as [->|Hne]; simpl.
    + split.
      * intros [[= ->]|Hget]; [done|]. destruct Hk.
        destruct (List.find _ o) as [[k' v']|] eqn:Hfind; [|done].
        apply find_some in Hfind as [Hin Heq]. simpl in Heq.
        apply String.eqb_eq in Heq as <-.
        apply list_elem_of_In in Hin.
        by apply (list_elem_of_fmap_2 fst) in Hin.
      * intros [= ->]. by left.
    + split; [|by right]. intros [[= ? _]|?]; done.
Qed.

(** [OrdinaryOwnPropertyKeys] only orders the properties. *)
Lemma insert_sorted_perm p l : Obj.insert_sorted p l ≡ₚ p :: l.
Proof.
  induction l as [|q l IH]; simpl; [done|].
  destruct (p.1 <=? q.1)%N; [done|]. rewrite IH. apply Permutation_swap.
Qed.

Lemma own_properties_perm o : Obj.own_properties o ≡ₚ o.
Proof.
  unfold Obj.own_properties.
  assert (Hsorted : ∀ l, foldr Obj.insert_sorted [] l ≡ₚ l).
  { induction l as [|p l IH]; simpl; [done|].
    by rewrite insert_sorted_perm, IH. }
  rewrite Hsorted. induction o as [|p o IH]; simpl; [done|].
  destruct (Obj.array_index p.1) as [n|]; simpl.
  - by rewrite IH.
  - by rewrite <- Permutation_middle, IH.
Qed.

(** The text of the mapping is the text of its entries. *)
Lemma stringify_entries o :
  (∀ x n, (x, n) ∈ o → (n ≤ 1)%nat) →
  Obj.stringify o
  = "{" +:+ JSON.comma_join (entry_text <$> Obj.own_properties o) +:+ "}".
Proof.
  intros Hbit. unfold Obj.stringify. do 3 f_equal.
  apply Forall_fmap_ext, Forall_forall. intros [x n] Hin.
  rewrite own_properties_perm in Hin. specialize (Hbit x n Hin).
  unfold entry_text. simpl. by destruct n as [|[|n]]; [| |lia].
Qed.

(** The three shapes of the resolver, by the two sets of ids. *)
Lemma getJsonpFunction_unfold asyncChunks noStrings :
  _getJsonpFunction asyncChunks noStrings
  = match (partition_ids asyncChunks).1, (partition_ids asyncChunks).2 with
    | [], _ => fun _ _ => Normal (JSON.stringify_string noStrings)
    | _ :: _, [] => fun locale _ => Normal (JSON.stringify_string locale)
    | _ :: _, _ :: _ =>
        fun locale chunkIdToken =>
          if Js.falsy (Some locale) then Throw (Error "Missing locale name.")
          else
            Normal ("(" +:+ JSON.stringify_array [locale; noStrings]
                      +:+ ")[" +:+ Obj.stringify (chunkMapping_of asyncChunks)
                      +:+ "[" +:+ Js.template chunkIdToken +:+ "]]")
    end.
Proof.
  unfold _getJsonpFunction, chunkMapping_of.
  destruct (partition_ids asyncChunks) as [[|x w] [|y wo]]; reflexivity.
Qed.

Lemma no_marked_ids asyncChunks :
  ¬ has_marked asyncChunks → (partition_ids asyncChunks).1 = [].
Proof.
  intros Hnone. destruct (partition_ids_spec asyncChunks) as [Hw _].
  destruct (partition_ids asyncChunks).1 as [|x w]; [done|].
  destruct (proj1 (Hw x)) as (c & Hin & _ & Hm); [by left|].
  destruct Hnone. by exists c.
Qed.

Lemma no_unmarked_ids asyncChunks :
  ¬ has_unmarked asyncChunks → (partition_ids asyncChunks).2 = [].
Proof.
  intros Hnone. destruct (partition_ids_spec asyncChunks) as [_ Hwo].
  destruct (partition_ids asyncChunks).2 as [|x wo]; [done|].
  destruct (proj1 (Hwo x)) as (c & Hin & _ & Hm); [by left|].
  destruct Hnone. by exists c.
Qed.

Lemma marked_ids asyncChunks :
  has_marked asyncChunks → (partition_ids asyncChunks).1 ≠ [].
Proof.
  intros (c & Hin & Hm) Hnil. destruct (partition_ids_spec asyncChunks) as [Hw _].
  rewrite Hnil in Hw. eapply elem_of_nil, Hw. eauto.
Qed.

Lemma unmarked_ids asyncChunks :
  has_unmarked asyncChunks → (partition_ids asyncChunks).2 ≠ [].
Proof.
  intros (c & Hin & Hm) Hnil. destruct (partition_ids_spec asyncChunks) as [_ Hwo].
  rewrite Hnil in Hwo. eapply elem_of_nil, Hwo. eauto.
Qed.

(** What the mapping of mixed chunks holds: 1 at the id of an unmarked chunk,
    0 at the id of a chunk that is marked only, and no property for the key
    [__proto__]. *)
Lemma chunkMapping_entries asyncChunks x n :
  (x, n) ∈ chunkMapping_of asyncChunks
  ↔ x ≠ "__proto__"
    ∧ (n = 1%nat ∧ id_with_mark false asyncChunks x
       ∨ n = 0%nat ∧ id_with_mark true asyncChunks x
         ∧ ¬ id_with_mark false asyncChunks x).
Proof.
  destruct (partition_ids_spec asyncChunks) as [Hw Hwo].
  unfold chunkMapping_of.
  rewrite (obj_elem_get _ (build_chunkMapping_NoDup _ _)), build_chunkMapping_get.
  unfold id_with_mark. rewrite <- Hw, <- Hwo.
  destruct (decide (x ∈ (partition_ids asyncChunks).2 ∧ x ≠ "__proto__"))
    as [[Hin Hx]|Hnot1].
  { rewrite bool_decide_eq_true_2 by done. split.
    - intros [= <-]. split; [done|]. by left.
    - intros [_ [[-> _]|[_ [_ Hno]]]]; [done|]. by destruct Hno. }
  rewrite (bool_decide_eq_false_2 _ Hnot1).
  destruct (decide (x ∈ (partition_ids asyncChunks).1 ∧ x ≠ "__proto__"))
    as [[Hin Hx]|Hnot0].
  { rewrite bool_decide_eq_true_2 by done. split.
    - intros [= <-]. split; [done|]. right. split; [done|]. split; [done|].
      intros Hin'. by apply Hnot1.
    - intros [_ [[_ Hin']|[-> _]]]; [|done]. by destruct Hnot1. }
  rewrite (bool_decide_eq_false_2 _ Hnot0). split; [done|].
  intros [Hx [[_ Hin]|[_ [Hin _]]]]; [destruct Hnot1|destruct Hnot0]; done.
Qed.

(** C2. The three cases of the resolver derived for a chunk, by the marks of
    its async chunks. When none is marked, it is constant and returns
    [noStringsLocaleName] (as a JSON string, the form in which the resolver's
    text is spliced in the asset). When some are marked and none is unmarked,
    it returns the given locale (as a JSON string). When marked and unmarked
    chunks are mixed, it throws on an empty locale, and otherwise returns the
    text of an expression: the array of the locale and [noStringsLocaleName],
    indexed by the mapping at the chunk id token. The mapping is written as a
    list of entries with distinct keys, which are exactly: 1 at the id of
    every unmarked chunk, 0 at the id of every marked chunk that no unmarked
    chunk shares; and no entry at all for the id [__proto__], marked or
    not. *)
Theorem derived_jsonp_resolver asyncChunks noStringsLocaleName :
  (¬ has_marked asyncChunks →
   ∀ locale chunkIdToken,
     _getJsonpFunction asyncChunks noStringsLocaleName locale chunkIdToken
     = Normal (JSON.stringify_string noStringsLocaleName))
  ∧ (has_marked asyncChunks → ¬ has_unmarked asyncChunks →
     ∀ locale chunkIdToken,
       _getJsonpFunction asyncChunks noStringsLocaleName locale chunkIdToken
       = Normal (JSON.stringify_string locale))
  ∧ (has_marked asyncChunks → has_unmarked asyncChunks →
     (∀ chunkIdToken,
        _getJsonpFunction asyncChunks noStringsLocaleName "" chunkIdToken
        = Throw (Error "Missing locale name."))
     ∧ ∃ entries : list (string * nat),
         NoDup entries.*1
         ∧ (∀ x n,
              (x, n) ∈ entries
              ↔ x ≠ "__proto__"
                ∧ (n = 1%nat ∧ id_with_mark false asyncChunks x
                   ∨ n = 0%nat ∧ id_with_mark true asyncChunks x
                     ∧ ¬ id_with_mark false asyncChunks x))
         ∧ ∀ locale chunkIdToken,
             locale ≠ "" →
             _getJsonpFunction asyncChunks noStringsLocaleName locale
               chunkIdToken
             = Normal
                 ("(" +:+ JSON.stringify_array [locale; noStringsLocaleName]
                    +:+ ")["
                    +:+ ("{" +:+ JSON.comma_join (entry_text <$> entries)
                           +:+ "}")
                    +:+ "[" +:+ Js.template chunkIdToken +:+ "]]")).
Proof.
  split; [|split].
  - intros Hnone locale tok. rewrite getJsonpFunction_unfold.
    by rewrite (no_marked_ids _ Hnone).
  - intros Hm Hnone locale tok. rewrite getJsonpFunction_unfold.
    rewrite (no_unmarked_ids _ Hnone).
    apply marked_ids in Hm. by destruct (partition_ids asyncChunks).1.
  - intros Hm Hu.
    assert (Hshape : ∀ locale tok,
      _getJsonpFunction asyncChunks noStringsLocaleName locale tok
      = if Js.falsy (Some locale) then Throw (Error "Missing locale name.")
        else
          Normal ("(" +:+ JSON.stringify_array [locale; noStringsLocaleName]
                    +:+ ")[" +:+ Obj.stringify (chunkMapping_of asyncChunks)
                    +:+ "[" +:+ Js.template tok +:+ "]]")).
    { intros locale tok. rewrite getJsonpFunction_unfold.
      apply marked_ids in Hm. apply unmarked_ids in Hu.
      by destruct (partition_ids asyncChunks).1, (partition_ids asyncChunks).2. }
    split; [intros tok; by rewrite Hshape|].
    exists (Obj.own_properties (chunkMapping_of asyncChunks)).
    split; [|split].
    + rewrite own_properties_perm. apply build_chunkMapping_NoDup.
    + intros x n. rewrite own_properties_perm. apply chunkMapping_entries.
    + intros locale tok Hne. rewrite Hshape, stringify_entries.
      * destruct locale; [done|reflexivity].
      * intros x n Hin.
        apply chunkMapping_entries in Hin as [_ [[-> _]|[-> _]]]; lia.
Qed.

Lemma derived_jsonp_resolver_witness :
  (∀ locale chunkIdToken,
     _getJsonpFunction [] "none" locale chunkIdToken = Normal (quoted "none"))
  ∧ _getJsonpFunction [ {| id := "12"; getMark := true |} ] "none" "en-us" None
    = Normal (quoted "en-us")
  ∧ _getJsonpFunction mixed_chunks "none" "" (Some "chunkId")
    = Throw (Error "Missing locale name.")
  ∧ (∃ entries : list (string * nat),
      NoDup entries.*1
      ∧ (∀ x n,
           (x, n) ∈ entries
           ↔ x ≠ "__proto__"
             ∧ (n = 1%nat ∧ id_with_mark false mixed_chunks x
                ∨ n = 0%nat ∧ id_with_mark true mixed_chunks x
                  ∧ ¬ id_with_mark false mixed_chunks x))
      ∧ _getJsonpFunction mixed_chunks "none" "en-us" (Some "chunkId")
        = Normal
            (("([" +:+ quoted "en-us" +:+ "," +:+ quoted "none" +:+ "])[")
               +:+ ("{" +:+ JSON.comma_join (entry_text <$> entries) +:+ "}")
               +:+ "[chunkId]]"))
  ∧ ∃ entries : list (string * nat),
      (∀ n, ("__proto__", n) ∉ entries)
      ∧ _getJsonpFunction proto_chunks "none" "en-us" (Some "chunkId")
        = Normal
            (("([" +:+ quoted "en-us" +:+ "," +:+ quoted "none" +:+ "])[")
               +:+ ("{" +:+ JSON.comma_join (entry_text <$> entries) +:+ "}")
               +:+ "[chunkId]]").
Proof.
  assert (Hm : has_marked mixed_chunks).
  { exists {| id := "12"; getMark := true |}. split; [|reflexivity].
    apply list_elem_of_here. }
  assert (Hu : has_unmarked mixed_chunks).
  { exists {| id := "3"; getMark := false |}. split; [|reflexivity].
    apply list_elem_of_further, list_elem_of_here. }
  destruct (derived_jsonp_resolver mixed_chunks "none") as (_ & _ & Hmixed).
  destruct (Hmixed Hm Hu) as (Hthrow & entries & Hnd & Hentries & Hexpr).
  split; [|split; [|split; [|split]]].
  - apply (proj1 (derived_jsonp_resolver [] "none")).
    intros (c & Hin & _). by apply elem_of_nil in Hin.
  - apply (proj1 (proj2 (derived_jsonp_resolver
                           [ {| id := "12"; getMark := true |} ] "none"))).
    + exists {| id := "12"; getMark := true |}. split; [|reflexivity].
      apply list_elem_of_here.
    + intros (c & Hin & Hc). apply list_elem_of_singleton in Hin as ->.
      discriminate Hc.
  - apply Hthrow.
  - exists entries. split; [exact Hnd|]. split; [exact Hentries|].
    rewrite (Hexpr "en-us" (Some "chunkId")) by discriminate.
    reflexivity.
  - destruct (derived_jsonp_resolver proto_chunks "none") as (_ & _ & Hproto).
    destruct Hproto as (_ & entries' & _ & Hentries' & Hexpr').
    + exists {| id := "__proto__"; getMark := true |}. split; [|reflexivity].
      apply list_elem_of_here.
    + exists {| id := "a"; getMark := false |}. split; [|reflexivity].
      apply list_elem_of_further, list_elem_of_here.
    + exists entries'. split.
      * intros n Hin. apply Hentries' in Hin as [Hne _]. by apply Hne.
      * rewrite (Hexpr' "en-us" (Some "chunkId")) by discriminate.
        reflexivity.
Defined.

(** The text of the mixed resolver, spliced in an asset: the array indices
    come first among the keys of the mapping. *)
Example mixed_resolver_text :
  _getJsonpFunction mixed_chunks "none" "en-us" (Some "chunkId")
  = Normal
      ("([" +:+ quoted "en-us" +:+ "," +:+ quoted "none" +:+ "])[{"
         +:+ quoted "3" +:+ ":1," +:+ quoted "12" +:+ ":0,"
         +:+ quoted "main" +:+ ":0}[chunkId]]").
Proof. vm_compute. reflexivity. Qed.

(** A marked chunk whose id is [__proto__] gets no entry: the mapping of the
    emitted expression holds the unmarked chunk only, and the expression has
    no index for the marked one. *)
Example proto_id_has_no_entry :
  has_marked proto_chunks ∧ has_unmarked proto_chunks
  ∧ Obj.get "__proto__" (chunkMapping_of proto_chunks) = None
  ∧ _getJsonpFunction proto_chunks "none" "en-us" (Some "chunkId")
    = Normal
        ("([" +:+ quoted "en-us" +:+ "," +:+ quoted "none" +:+ "])[{"
           +:+ quoted "a" +:+ ":1}[chunkId]]").
Proof.
  split; [|split; [|split]].
  - exists {| id := "__proto__"; getMark := true |}. split; [|reflexivity].
    apply list_elem_of_here.
  - exists {| id := "a"; getMark := false |}. split; [|reflexivity].
    apply list_elem_of_further, list_elem_of_here.
  - vm_compute. reflexivity.
  - vm_compute. reflexivity.
Qed.

(** * More on the parser *)

(** ** Termination and errors *)

Lemma parse_loop_lastIndex plugin jsonp source fuel :
  ∀ re lastIndex issues series result re',
    parse_loop fuel plugin jsonp source re lastIndex issues series
    = Some (result, re') →
    (re' ≤ String.length source)%nat.
Proof.
  induction fuel as [|fuel IH]; intros re li iss ser result re'; [done|].
  cbn [parse_loop].
  destruct (Regex.exec source re) as [[m|] re1] eqn:Hexec.
  - apply exec_Some in Hexec as (_ & _ & _ & Hle & _).
    destruct (parse_label plugin jsonp m iss) as [[el iss']|e].
    + apply IH.
    + by intros [= _ <-].
  - apply exec_None in Hexec as ->. intros [= _ <-]. lia.
Qed.

(** X1. The parser terminates on every source text, from every [lastIndex]
    of the regular expression: [S (length source)] iterations of the loop are
    enough, and the [lastIndex] it leaves is within the source. *)
Theorem parser_terminates plugin source jsonpFunction re :
  ∃ result re',
    _parseStringToReconstructionSequence plugin source jsonpFunction re
    = Some (result, re')
    ∧ (re' ≤ String.length source)%nat.
Proof.
  destruct (parse_loop_total plugin jsonpFunction source
              (S (String.length source)) re O [] []) as [[result re'] Hr];
    [lia | lia |].
  exists result, re'. split; [exact Hr|].
  by apply parse_loop_lastIndex in Hr.
Qed.

Lemma parse_label_tokenless plugin jsonp m issues :
  tokenless m → parse_label plugin jsonp m issues = Throw substring_of_undefined.
Proof. intros [Hl Ht]. unfold parse_label. by rewrite Hl, Ht. Qed.

Lemma parse_loop_tokenless plugin jsonp source fuel :
  ∀ re lastIndex issues series,
    Exists tokenless (scan fuel source re) →
    ∃ m, m ∈ scan fuel source re ∧ tokenless m
         ∧ parse_loop fuel plugin jsonp source re lastIndex issues series
           = Some (Throw substring_of_undefined,
                   (index m + String.length (placeholder m))%nat).
Proof.
  induction fuel as [|fuel IH]; intros re li iss ser; cbn [scan parse_loop].
  - by intros ?%Exists_nil.
  - destruct (Regex.exec source re) as [[m|] re'] eqn:Hexec;
      [|by intros ?%Exists_nil].
    apply exec_Some in Hexec as (_ & -> & _ & _ & Hlabel & _).
    intros Hex.
    destruct (parse_label plugin jsonp m iss) as [[el iss']|e] eqn:Hp.
    + apply Exists_cons in Hex as [Hm|Hex].
      { by rewrite (parse_label_tokenless _ _ _ _ Hm) in Hp. }
      destruct (IH _ (index m + String.length (placeholder m))%nat iss'
                  ((ser ++ [static (Js.substring source li (index m))]) ++ [el])
                  Hex) as (m' & Hin & Ht & Hrun).
      exists m'. split; [by right|]. by split.
    + apply parse_label_Throw in Hp as (-> & HC & Hnone); [|done].
      exists m. split; [by left|]. by split.
Qed.

(** X2. What makes the parser throw: scanning from [lastIndex = 0], it
    returns normally, and leaves [lastIndex] at 0, when every JSONP
    placeholder of the source has its token; when some JSONP placeholder has
    none, it throws the [TypeError] of [token.substring] and leaves the
    regular expression's [lastIndex] at the end of that placeholder, not at
    0. *)
Theorem parser_throws_without_token plugin source jsonpFunction :
  (Forall has_token (placeholders source) →
   ∃ r, _parseStringToReconstructionSequence plugin source jsonpFunction 0
        = Some (Normal r, O))
  ∧ (Exists tokenless (placeholders source) →
     ∃ m, m ∈ placeholders source ∧ tokenless m
          ∧ (0 < index m + String.length (placeholder m))%nat
          ∧ _parseStringToReconstructionSequence plugin source jsonpFunction 0
            = Some (Throw (TypeError
                             "Cannot read property 'substring' of undefined"),
                    (index m + String.length (placeholder m))%nat)).
Proof.
  split.
  - intros Hall. eexists. unfold _parseStringToReconstructionSequence.
    apply parse_loop_scan; [lia | lia | exact Hall].
  - intros Hex.
    destruct (parse_loop_tokenless plugin jsonpFunction source _ O O [] [] Hex)
      as (m & Hin & Ht & Hrun).
    exists m. split; [done|]. split; [done|]. split; [|exact Hrun].
    apply scan_exec in Hin as (re0 & re' & Hexec).
    apply exec_Some in Hexec as (_ & Heq & Hlt & _). lia.
Qed.

Lemma parser_throws_without_token_witness :
  ∃ m, m ∈ placeholders tokenless_source ∧ tokenless m
       ∧ (0 < index m + String.length (placeholder m))%nat
       ∧ _parseStringToReconstructionSequence table tokenless_source unsupported 0
         = Some (Throw (TypeError
                          "Cannot read property 'substring' of undefined"),
                 (index m + String.length (placeholder m))%nat).
Proof.
  apply (proj2 (parser_throws_without_token table tokenless_source unsupported)).
  apply Exists_exists. exists tokenless_match. split.
  - vm_compute. apply list_elem_of_here.
  - split; reflexivity.
Defined.

(** ** The [lastIndex] a throw leaves behind *)

(** X3. The parser depends on the [lastIndex] the shared regular
    expression was left with: when the pattern has no match starting at or
    after it, every placeholder before it goes unrecognised, and the whole
    source comes back as one static element with no issue. *)
Theorem stale_lastIndex_hides_placeholders plugin source jsonpFunction re :
  Regex.search (Js.drop re source) 0 = None →
  _parseStringToReconstructionSequence plugin source jsonpFunction re
  = Some (Normal {| parse_issues := [];
                    reconstructionSeries := [static source] |}, O).
Proof.
  intros Hnone. unfold _parseStringToReconstructionSequence. cbn [parse_loop].
  assert (Hexec : Regex.exec source re = (None, O)).
  { unfold Regex.exec. destruct (_ <? _)%nat; [done|].
    by rewrite (search_None _ _ re Hnone). }
  by rewrite Hexec.
Qed.

Lemma stale_lastIndex_hides_placeholders_witness :
  Regex.search greeting_source 0
  = Some {| index := 0;
            placeholder := Constants.STRING_PLACEHOLDER_PREFIX +:+ "_A_7";
            elementLabel := "A";
            token := None;
            placeholderSerialNumber := "7" |}
  ∧ _parseStringToReconstructionSequence table greeting_source unsupported 1
    = Some (Normal {| parse_issues := [];
                      reconstructionSeries := [static greeting_source] |}, O).
Proof.
  split; [vm_compute; reflexivity|].
  apply stale_lastIndex_hides_placeholders. vm_compute. reflexivity.
Defined.

(** ** What a plan keeps of its source *)

Lemma take_drop s n : Js.take n s +:+ Js.drop n s = s.
Proof.
  revert s. induction n as [|n IH]; intros [|a s]; simpl; try done.
  by rewrite str_app_cons, IH.
Qed.

Lemma take_length s n :
  (n ≤ String.length s)%nat → String.length (Js.take n s) = n.
Proof.
  revert s. induction n as [|n IH]; intros [|a s]; simpl; try done; try lia.
  intros H. rewrite IH; lia.
Qed.

Lemma substring_length s a b :
  (a ≤ b)%nat → (b ≤ String.length s)%nat →
  String.length (Js.substring s a b) = (b - a)%nat.
Proof.
  intros Hab Hb. unfold Js.substring.
  rewrite Nat.min_l, Nat.max_r by lia.
  rewrite take_length; [done|]. rewrite drop_length_le; lia.
Qed.

Lemma substring_drop s a b :
  (a ≤ b)%nat → Js.substring s a b +:+ Js.drop b s = Js.drop a s.
Proof.
  intros Hab. unfold Js.substring. rewrite Nat.min_l, Nat.max_r by lia.
  rewrite <- (take_drop (Js.drop a s) (b - a)) at 2.
  rewrite drop_drop. by replace (a + (b - a))%nat with b by lia.
Qed.

Lemma exec_Some_drop source re m re' :
  Regex.exec source re = (Some m, re') →
  Js.drop (index m) source = placeholder m +:+ Js.drop re' source.
Proof.
  intros Hexec. apply exec_Some in Hexec as (_ & -> & _ & _ & _ & Hsub).
  rewrite <- Hsub at 1. apply eq_sym, substring_drop. lia.
Qed.

Lemma parse_label_size plugin jsonp m issues el issues' :
  parse_label plugin jsonp m issues = Normal (el, issues') →
  original_len el = len (placeholder m).
Proof.
  unfold parse_label.
  destruct (String.eqb _ Constants.STRING_PLACEHOLDER_LABEL).
  { destruct (plugin _); by intros [= <- _]. }
  destruct (String.eqb _ Constants.LOCALE_NAME_PLACEHOLDER_LABEL).
  { by intros [= <- _]. }
  destruct (String.eqb _ Constants.JSONP_PLACEHOLDER_LABEL); [|done].
  destruct (token m); [|done]. by intros [= <- _].
Qed.

Lemma sum_original_app series1 series2 :
  sum_original (series1 ++ series2) = sum_original series1 + sum_original series2.
Proof.
  unfold sum_original. induction series1 as [|el s IH]; [done|].
  rewrite <- app_comm_cons, !fmap_cons. cbn [foldr]. rewrite IH. lia.
Qed.

Lemma parse_loop_conserves plugin jsonp source fuel :
  ∀ re lastIndex issues series r re',
    (lastIndex ≤ re)%nat → (lastIndex ≤ String.length source)%nat →
    parse_loop fuel plugin jsonp source re lastIndex issues series
    = Some (Normal r, re') →
    sum_original (reconstructionSeries r)
    = sum_original series + (len source - Z.of_nat lastIndex).
Proof.
  induction fuel as [|fuel IH]; intros re li iss ser r re' Hli Hlen; [done|].
  cbn [parse_loop].
  destruct (Regex.exec source re) as [[m|] re1] eqn:Hexec.
  - apply exec_Some in Hexec as (Hre & -> & Hlt & Hle & _ & _).
    destruct (parse_label plugin jsonp m iss) as [[el iss']|e] eqn:Hp; [|done].
    intros Hrun. apply IH in Hrun; [|lia|lia]. rewrite Hrun.
    rewrite !sum_original_app. unfold sum_original at 2 3. simpl.
    rewrite (parse_label_size _ _ _ _ _ _ Hp). unfold len.
    rewrite substring_length by lia. lia.
  - intros [= <- _]. simpl. rewrite sum_original_app.
    unfold sum_original at 2. simpl. unfold len, Js.substr.
    rewrite drop_length_le by done. lia.
Qed.

(** X4. A plan accounts for every character of its source: whenever the
    parser returns a plan, from any [lastIndex], the lengths of its static
    strings and the recorded sizes of its localized and dynamic elements add
    up to the length of the source. *)
Theorem parsed_plan_conserves_length plugin source jsonpFunction re r re' :
  _parseStringToReconstructionSequence plugin source jsonpFunction re
  = Some (Normal r, re') →
  sum_original (reconstructionSeries r) = len source.
Proof.
  intros Hrun. apply parse_loop_conserves in Hrun; [|lia|lia].
  rewrite Hrun. unfold sum_original. simpl. lia.
Qed.

Lemma parsed_plan_conserves_length_witness :
  sum_original
    [static "f("; static (Constants.STRING_PLACEHOLDER_PREFIX +:+ "_A_8");
     static ", ";
     localized {[ "en-us" := "hello"; "fr-fr" := "l'eau" ]} 58 "greeting"
       "strings.loc.json";
     static ", "; dynamic unsupported 67 (Some "chunkId"); static ")"]
  = len missing_serial_source.
Proof.
  apply (parsed_plan_conserves_length table missing_serial_source unsupported
           0 {| parse_issues :=
                  ["Missing placeholder "
                     +:+ Constants.STRING_PLACEHOLDER_PREFIX +:+ "_A_8"];
                reconstructionSeries := _ |} O).
  vm_compute. reflexivity.
Defined.

(** ** The size of a rendered plan *)

Lemma join_length parts :
  len (Js.join parts) = foldr Z.add 0 (len <$> parts).
Proof.
  induction parts as [|p parts IH]; [done|].
  rewrite fmap_cons. cbn [foldr Js.join]. rewrite <- IH. unfold len.
  rewrite str_length_app. lia.
Qed.

Lemma accounted_exact step series rendered :
  (∀ s sub, pushed step (static s) = Normal [sub] → sub = s) →
  accounted step series (sum_original series) rendered →
  size rendered = len (source rendered).
Proof.
  intros Hstatic (subs & HF & -> & ->). rewrite join_length.
  unfold sum_original, sum_deltas.
  induction HF as [|el sub series subs Hel HF IH]; [done|].
  rewrite !fmap_cons. cbn [zip_with foldr].
  assert (Hone : original_len el + element_delta el sub = len sub).
  { destruct el as [s | vals sz name path | f sz tok]; simpl; [|lia|lia].
    rewrite (Hstatic _ _ Hel). lia. }
  lia.
Qed.

Lemma localized_static_pushed fill dl locale s sub :
  pushed (reconstructLocalized_element fill dl locale) (static s) = Normal [sub] →
  sub = s.
Proof. by intros [= <-]. Qed.

Lemma nonlocalized_static_pushed noStrings s sub :
  pushed (reconstructNonLocalized_element noStrings) (static s) = Normal [sub] →
  sub = s.
Proof. by intros [= <-]. Qed.

(** X5. The size the reconstructors report for a parsed text is its true
    length: when the plan parsed from a source is rendered with the source's
    length as the initial size (as the asset processor does for an asset's
    name), the size of every rendered entry equals the length of its text,
    for the localized and the non-localized reconstructor alike. *)
Theorem rendered_size_is_exact plugin text jsonpFunction re r re' :
  _parseStringToReconstructionSequence plugin text jsonpFunction re
  = Some (Normal r, re') →
  (∀ locales fill defaultLocale res locale rendered,
     _reconstructLocalized (reconstructionSeries r) locales fill defaultLocale
       (len text) = Normal res →
     loc_result res !! locale = Some rendered →
     size rendered = len (source rendered))
  ∧ (∀ noStringsLocaleName res,
       _reconstructNonLocalized (reconstructionSeries r) (len text)
         noStringsLocaleName = Normal res →
       size (nonloc_result res) = len (source (nonloc_result res))).
Proof.
  intros Hparse.
  assert (Hlen : sum_original (reconstructionSeries r) = len text).
  { apply parse_loop_conserves in Hparse; [|lia|lia].
    rewrite Hparse. unfold sum_original. simpl. lia. }
  rewrite <- Hlen. split.
  - intros locales fill dl res locale rendered. unfold _reconstructLocalized.
    destruct (for_of _ locales _) as [st|e] eqn:Hst; simpl; [|done].
    intros [= <-] Hl; simpl in Hl.
    destruct (reconstructLocalized_locales_accounted _ _ _ _ _ _ _ Hst _ _ Hl)
      as [Hin|Hacc]; [simpl in Hin; by rewrite lookup_empty in Hin|].
    eapply accounted_exact; [|exact Hacc].
    apply localized_static_pushed.
  - intros noStrings res. unfold _reconstructNonLocalized.
    destruct (for_of _ (reconstructionSeries r) _) as [v|e] eqn:Hv; simpl;
      [|done].
    intros [= <-]; simpl.
    apply walk_substituted in Hv as (subs & HF & Hr & Hd);
      [|intros; apply nonlocalized_element_frame
       |intros ? ?; apply nonlocalized_element_pushes].
    apply (accounted_exact (reconstructNonLocalized_element noStrings)
             (reconstructionSeries r)
             {| source := Js.join (reconstruction v);
                size := sum_original (reconstructionSeries r) + sizeDiff v |});
      [apply nonlocalized_static_pushed|].
    exists subs. simpl. by rewrite Hr, Hd.
Qed.

Lemma rendered_size_is_exact_witness :
  ∃ res,
    _reconstructNonLocalized (reconstructionSeries missing_serial_plan)
      (len missing_serial_source) "none" = Normal res
    ∧ size (nonloc_result res) = len (source (nonloc_result res)).
Proof.
  eexists. split; [vm_compute; reflexivity|].
  apply (proj2 (rendered_size_is_exact table missing_serial_source
                  (_getJsonpFunction [] "none") 0 missing_serial_plan O
                  ltac:(vm_compute; reflexivity)) "none").
  vm_compute. reflexivity.
Defined.

(** ** A source whose strings are all unknown *)

Lemma walk_static step texts :
  (∀ s v, step (static s) v
          = Normal {| issues := issues v;
                      reconstruction := reconstruction v ++ [s];
                      sizeDiff := sizeDiff v |}) →
  ∀ v, for_of step (static <$> texts) v
       = Normal {| issues := issues v;
                   reconstruction := reconstruction v ++ texts;
                   sizeDiff := sizeDiff v |}.
Proof.
  intros Hstep. induction texts as [|t texts IH]; intros v.
  - simpl. rewrite app_nil_r. by destruct v.
  - rewrite fmap_cons. cbn [for_of]. rewrite Hstep. simpl. rewrite IH. simpl.
    by rewrite <- app_assoc.
Qed.

Lemma constant_locales series fill dl initialSize rendered locales :
  (∀ locale st,
     reconstructLocalized_locale series fill dl initialSize locale st
     = Normal (<[locale := rendered]> st.1, st.2)) →
  ∀ st,
    ∃ st',
      for_of (reconstructLocalized_locale series fill dl initialSize) locales st
      = Normal st'
      ∧ st'.2 = st.2
      ∧ ∀ locale,
          st'.1 !! locale
          = if bool_decide (locale ∈ locales) then Some rendered
            else st.1 !! locale.
Proof.
  intros Hbody. induction locales as [|l locales IH]; intros st.
  - exists st. by repeat split.
  - cbn [for_of]. rewrite Hbody. simpl.
    destruct (IH (<[l := rendered]> st.1, st.2)) as (st' & Hrun & Hiss & Hmap).
    exists st'. split; [done|]. split; [done|]. intros locale.
    rewrite Hmap. simpl.
    destruct (decide (locale ∈ locales)) as [Hin|Hnin].
    + rewrite !bool_decide_eq_true_2; [done | | done]. by right.
    + rewrite (bool_decide_eq_false_2 _ Hnin).
      destruct (decide (l = locale)) as [->|Hne].
      * rewrite lookup_insert_eq, bool_decide_eq_true_2; [done|]. by left.
      * rewrite lookup_insert_ne by done.
        rewrite bool_decide_eq_false_2; [done|].
        by intros [->|?]%elem_of_cons.
Qed.

Lemma scan_missing_texts plugin jsonp text fuel :
  ∀ re lastIndex,
    (lastIndex ≤ re)%nat →
    (∀ m, m ∈ scan fuel text re →
          elementLabel m = "A" ∧ plugin (placeholderSerialNumber m) = None) →
    ∃ texts,
      series_of plugin jsonp text lastIndex (scan fuel text re)
      = static <$> texts
      ∧ Js.join texts = Js.drop lastIndex text.
Proof.
  induction fuel as [|fuel IH]; intros re li Hli Hall; cbn [scan] in *.
  - exists [Js.drop li text]. split; [done|]. simpl. apply str_app_nil_r.
  - destruct (Regex.exec text re) as [[m|] re'] eqn:Hexec.
    + destruct (Hall m) as [Hlabel Hnone]; [by left|].
      destruct (element_of_missing plugin jsonp m Hlabel Hnone) as [Hel _].
      pose proof (exec_Some_drop _ _ _ _ Hexec) as Hdrop.
      apply exec_Some in Hexec as (Hre & -> & _ & _ & _ & _).
      destruct (IH (index m + String.length (placeholder m))%nat
                  (index m + String.length (placeholder m))%nat)
        as (texts & Hser & Hjoin); [lia | by intros; apply Hall; right |].
      exists (Js.substring text li (index m) :: placeholder m :: texts).
      split.
      * cbn [series_of]. by rewrite Hel, Hser.
      * cbn [Js.join]. rewrite Hjoin, <- Hdrop. apply substring_drop. lia.
    + exists [Js.drop li text]. split; [done|]. simpl. apply str_app_nil_r.
Qed.

Lemma issues_of_missing_length plugin jsonp ms :
  (∀ m, m ∈ ms →
        elementLabel m = "A" ∧ plugin (placeholderSerialNumber m) = None) →
  length (concat (issues_of plugin jsonp <$> ms)) = length ms.
Proof.
  induction ms as [|m ms IH]; intros Hall; [done|].
  rewrite fmap_cons. cbn [concat]. rewrite length_app.
  destruct (Hall m) as [Hlabel Hnone]; [by left|].
  destruct (element_of_missing plugin jsonp m Hlabel Hnone) as [_ ->].
  simpl. rewrite IH; [done|]. intros; apply Hall; by right.
Qed.

(** X6. A source whose placeholders are all label-A placeholders with a
    serial number that the string table does not know is reproduced
    unchanged: the parser returns a plan of static elements only, with one
    issue per placeholder, and both reconstructors render that plan, for every
    locale, as the source itself, with the initial size and no further
    issue. *)
Theorem unknown_serials_round_trip plugin jsonpFunction text :
  (∀ m, m ∈ placeholders text →
        elementLabel m = "A" ∧ plugin (placeholderSerialNumber m) = None) →
  ∃ r,
    _parseStringToReconstructionSequence plugin text jsonpFunction 0
    = Some (Normal r, O)
    ∧ length (parse_issues r) = length (placeholders text)
    ∧ Forall is_static (reconstructionSeries r)
    ∧ (∀ initialSize noStringsLocaleName,
         _reconstructNonLocalized (reconstructionSeries r) initialSize
           noStringsLocaleName
         = Normal {| nonloc_result := {| source := text; size := initialSize |};
                     nonloc_issues := [] |})
    ∧ (∀ locales fill defaultLocale initialSize,
         ∃ res,
           _reconstructLocalized (reconstructionSeries r) locales fill
             defaultLocale initialSize = Normal res
           ∧ loc_issues res = []
           ∧ ∀ locale,
               locale ∈ locales →
               loc_result res !! locale
               = Some {| source := text; size := initialSize |}).
Proof.
  intros Hall.
  destruct (scan_missing_texts plugin jsonpFunction text
              (S (String.length text)) 0 0) as (texts & Hser & Hjoin);
    [lia | exact Hall |].
  change (Js.drop 0 text) with text in Hjoin.
  fold (placeholders text) in Hser.
  eexists. split; [|split; [|split; [|split]]].
  - unfold _parseStringToReconstructionSequence.
    apply parse_loop_scan; [lia | lia |].
    apply Forall_forall. intros m Hin HC.
    destruct (Hall m Hin) as [HA _]. congruence.
  - cbn [parse_issues app]. by apply issues_of_missing_length.
  - cbn [reconstructionSeries app]. fold (placeholders text). rewrite Hser.
    apply Forall_fmap, Forall_forall. by intros.
  - intros initialSize noStrings. cbn [reconstructionSeries app].
    fold (placeholders text). rewrite Hser. unfold _reconstructNonLocalized.
    rewrite walk_static by done. simpl. by rewrite Hjoin, Z.add_0_r.
  - intros locales fill dl initialSize. cbn [reconstructionSeries app].
    fold (placeholders text). rewrite Hser. unfold _reconstructLocalized.
    destruct (constant_locales (static <$> texts) fill dl initialSize
                {| source := text; size := initialSize |} locales)
      with (st := (∅ : gmap string IReconstructedString, @nil string))
      as (st' & -> & Hiss & Hmap).
    { intros locale st. unfold reconstructLocalized_locale.
      rewrite walk_static by done. simpl. by rewrite Hjoin, Z.add_0_r. }
    eexists. split; [reflexivity|]. split; [done|].
    intros locale Hin. simpl. rewrite Hmap.
    by rewrite bool_decide_eq_true_2.
Qed.

Lemma unknown_serials_round_trip_witness :
  ∃ r,
    _parseStringToReconstructionSequence empty_table two_strings_source
      unsupported 0 = Some (Normal r, O)
    ∧ length (parse_issues r) = 2%nat
    ∧ _reconstructNonLocalized (reconstructionSeries r) 125 "none"
      = Normal {| nonloc_result :=
                    {| source := two_strings_source; size := 125 |};
                  nonloc_issues := [] |}.
Proof.
  destruct (unknown_serials_round_trip empty_table unsupported
              two_strings_source) as (r & Hparse & Hissues & _ & Hnonloc & _).
  - intros m Hin. vm_compute in Hin.
    repeat (apply elem_of_cons in Hin as [-> | Hin]); try (split; reflexivity).
    by apply elem_of_nil in Hin.
  - exists r. split; [exact Hparse|]. split; [exact Hissues|].
    exact (Hnonloc 125 "none").
Defined.

(** * More on the pattern *)

Lemma span_all f run rest :
  all_chars f run = true → stops f rest = true →
  Regex.span f (run +:+ rest) = (run, rest).
Proof.
  intros Hrun Hrest. induction run as [|a run IH].
  - destruct rest as [|b rest]; simpl in *; [done|].
    by apply negb_true_iff in Hrest as ->.
  - simpl in Hrun. apply andb_true_iff in Hrun as [Ha Hrun].
    rewrite str_app_cons. cbn [Regex.span]. by rewrite Ha, (IH Hrun).
Qed.

Lemma span_all_chars f s run rest :
  Regex.span f s = (run, rest) → all_chars f run = true ∧ stops f rest = true.
Proof.
  revert run rest. induction s as [|a s IH]; intros run rest; cbn [Regex.span].
  - by intros [= <- <-].
  - destruct (f a) eqn:Ha.
    + destruct (Regex.span f s) as [run' rest'] eqn:Hs. intros [= <- <-].
      destruct (IH _ _ eq_refl) as [Hrun Hrest]. simpl. by rewrite Ha, Hrun.
    + intros [= <- <-]. simpl. by rewrite Ha.
Qed.

Lemma serial_digits s digits rest :
  Regex.serial s = Some (digits, rest) →
  digits ≠ "" ∧ all_chars Regex.is_digit digits = true
  ∧ stops Regex.is_digit rest = true.
Proof.
  destruct s as [|a s]; simpl; [done|].
  destruct (Ascii.eqb a "_"); [|done].
  destruct (Regex.span Regex.is_digit s) as [[|d ds] r] eqn:Hs; [done|].
  intros [= <- <-]. by apply span_all_chars in Hs as [? ?].
Qed.

Lemma plus_token_body s tok rest :
  Regex.plus_token s = Some (tok, rest) →
  ∃ body, tok = "+" +:+ body +:+ "+" ∧ body ≠ ""
          ∧ all_chars Regex.not_plus body = true.
Proof.
  destruct s as [|a s]; simpl; [done|].
  destruct (Ascii.eqb a "+"); [|done].
  destruct (Regex.span Regex.not_plus s) as [[|c body] [|b r]] eqn:Hs; try done.
  destruct (Ascii.eqb b "+"); [|done].
  intros [= <- <-]. exists (String c body).
  by apply span_all_chars in Hs as [? _].
Qed.

(** The first group of a match is made of the others. *)
Lemma match_here_groups s g0 g1 g2 g3 :
  Regex.match_here s = Some (g0, g1, g2, g3) →
  g0 = Constants.STRING_PLACEHOLDER_PREFIX +:+ "_" +:+ g1 +:+ default "" g2
         +:+ "_" +:+ g3
  ∧ g3 ≠ "" ∧ all_chars Regex.is_digit g3 = true
  ∧ ∀ tok, g2 = Some tok →
           ∃ body, tok = "+" +:+ body +:+ "+" ∧ body ≠ ""
                   ∧ all_chars Regex.not_plus body = true.
Proof.
  unfold Regex.match_here.
  destruct (Regex.literal _ s) as [s1|]; simpl; [|done].
  destruct s1 as [|u [|l s2]]; try done.
  destruct (Ascii.eqb u "_" && Regex.is_A_to_C l); [|done].
  assert (Hwithout :
    ('(digits, _) ← Regex.serial s2;
     Some (Constants.STRING_PLACEHOLDER_PREFIX +:+ "_" +:+ String l ""
             +:+ "_" +:+ digits, String l "", @None string, digits))
    = Some (g0, g1, g2, g3) →
    g0 = Constants.STRING_PLACEHOLDER_PREFIX +:+ "_" +:+ g1 +:+ default "" g2
           +:+ "_" +:+ g3
    ∧ g3 ≠ "" ∧ all_chars Regex.is_digit g3 = true
    ∧ ∀ tok, g2 = Some tok →
             ∃ body, tok = "+" +:+ body +:+ "+" ∧ body ≠ ""
                     ∧ all_chars Regex.not_plus body = true).
  { destruct (Regex.serial s2) as [[digits rest]|] eqn:Hser; simpl; [|done].
    intros [= <- <- <- <-]. apply serial_digits in Hser as (Hne & Hall & _).
    split; [by rewrite ?str_app_assoc|]. by repeat split. }
  destruct (Regex.plus_token s2) as [[tok s3]|] eqn:Htok; [|done].
  destruct (Regex.serial s3) as [[digits rest]|] eqn:Hser; [|done].
  intros [= <- <- <- <-]. apply serial_digits in Hser as (Hne & Hall & _).
  split; [by rewrite ?str_app_assoc|]. split; [done|]. split; [done|].
  intros tok' [= <-]. by apply plus_token_body in Htok.
Qed.

Lemma search_leftmost s i m :
  Regex.search s i = Some m →
  ∀ j, (i ≤ j)%nat → (j < index m)%nat →
       Regex.match_here (Js.drop (j - i) s) = None.
Proof.
  revert i. induction s as [|a s IH]; intros i; cbn [Regex.search].
  - destruct (Regex.match_here "") as [g|] eqn:Hg; [|done].
    by vm_compute in Hg.
  - destruct (Regex.match_here (String a s)) as [g|] eqn:Hg.
    + intros [= <-] j Hi Hj. destruct g as [[[g0 g1] g2] g3]. simpl in Hj. lia.
    + intros Hs j Hi Hj.
      destruct (decide (j = i)) as [->|Hne].
      * by rewrite Nat.sub_diag.
      * replace (j - i)%nat with (S (j - S i)) by lia. simpl.
        apply (IH _ Hs); lia.
Qed.

Lemma search_groups s i m :
  Regex.search s i = Some m →
  ∃ t, Regex.match_here t
       = Some (placeholder m, elementLabel m, token m, placeholderSerialNumber m).
Proof.
  revert i. induction s as [|a s IH]; intros i; cbn [Regex.search].
  - destruct (Regex.match_here "") as [g|] eqn:Hg; [|done].
    by vm_compute in Hg.
  - destruct (Regex.match_here (String a s)) as [[[[g0 g1] g2] g3]|] eqn:Hg.
    + intros [= <-]. by exists (String a s).
    + apply IH.
Qed.

(** X7. What [exec] returns: the match is the leftmost one at or after
    [lastIndex]; its text is the text of the source at its index and is made
    of its groups, the prefix, [_], a label among A, B and C, the token if
    any (a non-empty text without [+] between two [+]), [_] and a non-empty
    run of digits; the new [lastIndex] is the end of the match, within the
    source. *)
Theorem exec_match_shape text re m re' :
  Regex.exec text re = (Some m, re') →
  (re ≤ index m)%nat
  ∧ re' = (index m + String.length (placeholder m))%nat
  ∧ (re' ≤ String.length text)%nat
  ∧ Js.substring text (index m) re' = placeholder m
  ∧ placeholder m
    = Constants.STRING_PLACEHOLDER_PREFIX +:+ "_" +:+ elementLabel m
        +:+ default "" (token m) +:+ "_" +:+ placeholderSerialNumber m
  ∧ (elementLabel m = "A" ∨ elementLabel m = "B" ∨ elementLabel m = "C")
  ∧ placeholderSerialNumber m ≠ ""
  ∧ all_chars Regex.is_digit (placeholderSerialNumber m) = true
  ∧ (∀ tok, token m = Some tok →
            ∃ body, tok = "+" +:+ body +:+ "+" ∧ body ≠ ""
                    ∧ all_chars Regex.not_plus body = true)
  ∧ (∀ j, (re ≤ j)%nat → (j < index m)%nat →
          Regex.match_here (Js.drop j text) = None).
Proof.
  intros Hexec.
  pose proof (exec_Some _ _ _ _ Hexec) as (Hre & Heq & _ & Hle & Hlabel & Hsub).
  unfold Regex.exec in Hexec.
  destruct (_ <? _)%nat; [done|].
  destruct (Regex.search _ re) as [m'|] eqn:Hs; [|done].
  injection Hexec as -> _.
  destruct (search_groups _ _ _ Hs) as [t Ht].
  apply match_here_groups in Ht as (Hg0 & Hne & Hdigits & Htok).
  repeat split; try done.
  intros j Hj1 Hj2. pose proof (search_leftmost _ _ _ Hs j Hj1 Hj2) as Hnone.
  rewrite drop_drop in Hnone. by replace (re + (j - re))%nat with j in Hnone by lia.
Qed.

Lemma exec_match_shape_witness :
  (0 ≤ index missing_serial_match)%nat
  ∧ 60%nat = (index missing_serial_match
              + String.length (placeholder missing_serial_match))%nat
  ∧ (60 ≤ String.length missing_serial_source)%nat
  ∧ Js.substring missing_serial_source (index missing_serial_match) 60
    = placeholder missing_serial_match.
Proof.
  destruct (exec_match_shape missing_serial_source 0 missing_serial_match 60)
    as (H1 & H2 & H3 & H4 & _).
  - vm_compute. reflexivity.
  - by repeat split.
Defined.

(** X8. Every placeholder of the grammar is recognised: the prefix, [_], a
    label among A, B and C, [_] and a non-empty run of digits, followed by
    anything but a digit, is a match with that label and that serial number
    and no token; with a non-empty token without [+] between two [+] after the
    label, it is a match with that token. *)
Theorem placeholder_grammar_complete l digits rest :
  Regex.is_A_to_C l = true →
  digits ≠ "" → all_chars Regex.is_digit digits = true →
  stops Regex.is_digit rest = true →
  Regex.match_here
    (Constants.STRING_PLACEHOLDER_PREFIX +:+ "_" +:+ String l "" +:+ "_"
       +:+ digits +:+ rest)
  = Some (Constants.STRING_PLACEHOLDER_PREFIX +:+ "_" +:+ String l "" +:+ "_"
            +:+ digits,
          String l "", None, digits)
  ∧ ∀ body,
      body ≠ "" → all_chars Regex.not_plus body = true →
      Regex.match_here
        (Constants.STRING_PLACEHOLDER_PREFIX +:+ "_" +:+ String l "" +:+ "+"
           +:+ body +:+ "+" +:+ "_" +:+ digits +:+ rest)
      = Some (Constants.STRING_PLACEHOLDER_PREFIX +:+ "_" +:+ String l "" +:+ "+"
                +:+ body +:+ "+" +:+ "_" +:+ digits,
              String l "", Some ("+" +:+ body +:+ "+"), digits).
Proof.
  intros Hl Hne Hdigits Hrest.
  assert (Hserial : Regex.serial ("_" +:+ digits +:+ rest) = Some (digits, rest)).
  { change ("_" +:+ digits +:+ rest) with (String "_" (digits +:+ rest)).
    cbn [Regex.serial]. rewrite Ascii.eqb_refl, (span_all _ _ _ Hdigits Hrest).
    by destruct digits. }
  split.
  - unfold Regex.match_here. rewrite literal_app.
    change ("_" +:+ String l "" +:+ "_" +:+ digits +:+ rest)
      with (String "_" (String l ("_" +:+ digits +:+ rest))).
    cbn [mbind option_bind]. rewrite Ascii.eqb_refl, Hl. cbn [andb].
    change (Regex.plus_token ("_" +:+ digits +:+ rest)) with (@None (string * string)).
    rewrite Hserial. cbn [mbind option_bind]. by rewrite !str_app_assoc.
  - intros body Hbody Hplus. unfold Regex.match_here. rewrite literal_app.
    change ("_" +:+ String l "" +:+ "+" +:+ body +:+ "+" +:+ "_" +:+ digits
              +:+ rest)
      with (String "_" (String l
              (String "+" (body +:+ String "+" ("_" +:+ digits +:+ rest))))).
    cbn [mbind option_bind]. rewrite Ascii.eqb_refl, Hl. cbn [andb].
    assert (Htok : Regex.plus_token
                     (String "+" (body +:+ String "+" ("_" +:+ digits +:+ rest)))
                   = Some ("+" +:+ body +:+ "+", "_" +:+ digits +:+ rest)).
    { cbn [Regex.plus_token]. rewrite Ascii.eqb_refl.
      rewrite (span_all Regex.not_plus body
                 (String "+" ("_" +:+ digits +:+ rest)) Hplus eq_refl).
      destruct body as [|c body]; [done|]. by rewrite Ascii.eqb_refl. }
    rewrite Htok, Hserial. by rewrite !str_app_assoc.
Qed.

Lemma placeholder_grammar_complete_witness :
  Regex.match_here (Constants.LOCALE_NAME_PLACEHOLDER +:+ ".js")
  = Some (Constants.LOCALE_NAME_PLACEHOLDER, "B", None, "0")
  ∧ Regex.match_here (Constants.JSONP_PLACEHOLDER +:+ ".js")
    = Some (Constants.JSONP_PLACEHOLDER, "C", Some "+chunkId+", "0").
Proof.
  split.
  - apply (proj1 (placeholder_grammar_complete "B" "0" ".js"
                    eq_refl ltac:(discriminate) eq_refl eq_refl)).
  - apply (proj2 (placeholder_grammar_complete "C" "0" ".js"
                    eq_refl ltac:(discriminate) eq_refl eq_refl) "chunkId");
      [discriminate | reflexivity].
Defined.

(** * More on the localized reconstructor *)

Lemma for_of_app {A S : Type} (body : A → S → completion S) l1 l2 s :
  for_of body (l1 ++ l2) s = (s' ← for_of body l1 s; for_of body l2 s').
Proof.
  revert s. induction l1 as [|x l1 IH]; intros s; simpl; [done|].
  destruct (body x s); simpl; [apply IH | done].
Qed.

(** The rendering of one locale. *)
Lemma locale_body series fill dl initialSize locale st :
  reconstructLocalized_locale series fill dl initialSize locale st
  = (v ← walk_localized fill dl locale series vars0;
     Normal (<[locale := {| source := Js.join (reconstruction v);
                            size := initialSize + sizeDiff v |}]> st.1,
             st.2 ++ issues v)).
Proof.
  unfold reconstructLocalized_locale.
  rewrite (walk_frame _ (localized_element_frame fill dl locale)).
  by destruct (walk_localized fill dl locale series vars0).
Qed.

Lemma locales_frame series fill dl initialSize locales :
  ∀ st,
    for_of (reconstructLocalized_locale series fill dl initialSize) locales st
    = (st' ← for_of (reconstructLocalized_locale series fill dl initialSize)
               locales (∅, []);
       Normal (st'.1 ∪ st.1, st.2 ++ st'.2)).
Proof.
  induction locales as [|l locales IH]; intros st.
  - simpl. rewrite app_nil_r, (left_id_L ∅ (∪)). by destruct st.
  - cbn [for_of]. rewrite !locale_body.
    destruct (walk_localized fill dl l series vars0) as [v|e]; simpl; [|done].
    rewrite IH. symmetry. rewrite IH. symmetry.
    destruct (for_of _ locales (∅, [])) as [st'|e]; simpl; [|done].
    rewrite insert_empty, (insert_union_singleton_l st.1), (assoc_L (∪)).
    by rewrite <- app_assoc.
Qed.

(** X9. Rendering a list of locales composes: the result for the locales
    [l1 ++ l2] is made of the results for [l1] and for [l2], rendered apart;
    the issues are those of [l1] followed by those of [l2], an entry of [l2]
    replaces the entry of [l1] for the same locale, and a throw of either
    rendering, the first in this order, is the throw of the whole. *)
Theorem localized_rendering_composes series l1 l2 fill defaultLocale initialSize :
  _reconstructLocalized series (l1 ++ l2) fill defaultLocale initialSize
  = (r1 ← _reconstructLocalized series l1 fill defaultLocale initialSize;
     r2 ← _reconstructLocalized series l2 fill defaultLocale initialSize;
     Normal {| loc_result := loc_result r2 ∪ loc_result r1;
               loc_issues := loc_issues r1 ++ loc_issues r2 |}).
Proof.
  unfold _reconstructLocalized. rewrite for_of_app.
  destruct (for_of _ l1 (∅, [])) as [st1|e]; simpl; [|done].
  rewrite locales_frame.
  by destruct (for_of _ l2 (∅, [])) as [st2|e].
Qed.

Lemma locales_loop_lookup series fill dl initialSize locales :
  ∀ st st',
    for_of (reconstructLocalized_locale series fill dl initialSize) locales st
    = Normal st' →
    ∀ locale,
      st'.1 !! locale
      = if bool_decide (locale ∈ locales) then
          match walk_localized fill dl locale series vars0 with
          | Normal v => Some {| source := Js.join (reconstruction v);
                                size := initialSize + sizeDiff v |}
          | Throw _ => None
          end
        else st.1 !! locale.
Proof.
  induction locales as [|l locales IH]; intros st st'.
  - by intros [= <-].
  - cbn [for_of]. rewrite locale_body.
    destruct (walk_localized fill dl l series vars0) as [v|e] eqn:Hv; simpl;
      [|done].
    intros Hrun locale. rewrite (IH _ _ Hrun). simpl.
    destruct (decide (locale ∈ locales)) as [Hin|Hnin].
    + rewrite !bool_decide_eq_true_2; [done | by right | done].
    + rewrite (bool_decide_eq_false_2 _ Hnin).
      destruct (decide (l = locale)) as [->|Hne].
      * rewrite lookup_insert_eq, bool_decide_eq_true_2; [|by left].
        by rewrite Hv.
      * rewrite lookup_insert_ne by done.
        rewrite bool_decide_eq_false_2; [done|].
        by intros [->|?]%elem_of_cons.
Qed.

Lemma locales_loop_walks series fill dl initialSize locales :
  ∀ st st',
    for_of (reconstructLocalized_locale series fill dl initialSize) locales st
    = Normal st' →
    ∀ locale, locale ∈ locales →
              ∃ v, walk_localized fill dl locale series vars0 = Normal v.
Proof.
  induction locales as [|l locales IH]; intros st st'.
  - by intros _ locale ?%elem_of_nil.
  - cbn [for_of]. rewrite locale_body.
    destruct (walk_localized fill dl l series vars0) as [v|e] eqn:Hv; simpl;
      [|done].
    intros Hrun locale [->|Hin]%elem_of_cons; [by eauto|].
    by eapply IH.
Qed.

(** X10. The locales are rendered independently: whenever the localized
    reconstructor returns, its result has an entry for every requested
    locale and for no other, and the entry of a locale is the entry that
    rendering this locale alone gives, whatever the other locales and their
    order. *)
Theorem locales_are_independent series locales fill defaultLocale initialSize r :
  _reconstructLocalized series locales fill defaultLocale initialSize
  = Normal r →
  (∀ locale,
     locale ∈ locales →
     ∃ r1 rendered,
       _reconstructLocalized series [locale] fill defaultLocale initialSize
       = Normal r1
       ∧ loc_result r1 !! locale = Some rendered
       ∧ loc_result r !! locale = Some rendered)
  ∧ (∀ locale, locale ∉ locales → loc_result r !! locale = None).
Proof.
  unfold _reconstructLocalized at 1.
  destruct (for_of _ locales _) as [st|e] eqn:Hst; simpl; [|done].
  intros [= <-]. split.
  - intros locale Hin.
    destruct (locales_loop_walks _ _ _ _ _ _ _ Hst _ Hin) as [v Hv].
    rewrite reconstructLocalized_one_locale, Hv. simpl.
    eexists _, _. split; [reflexivity|]. simpl.
    rewrite lookup_singleton_eq. split; [reflexivity|].
    rewrite (locales_loop_lookup _ _ _ _ _ _ _ Hst).
    by rewrite bool_decide_eq_true_2, Hv.
  - intros locale Hnin. simpl.
    rewrite (locales_loop_lookup _ _ _ _ _ _ _ Hst).
    by rewrite bool_decide_eq_false_2.
Qed.

Lemma locales_are_independent_witness :
  ∃ r1 rendered,
    _reconstructLocalized size_law_series ["fr-fr"] false "en-us" 1000
    = Normal r1
    ∧ loc_result r1 !! "fr-fr" = Some rendered
    ∧ ({[ "en-us" := {| source := "var s = 'hello', l = 'en-us';";
                        size := 1000 + ((5 - 58) + (5 - 58)) |};
          "fr-fr" := {| source := "var s = '-- MISSING STRING --', l = 'fr-fr';";
                        size := 1000 + ((20 - 58) + (5 - 58)) |} ]}
        : gmap string IReconstructedString)
       !! "fr-fr" = Some rendered.
Proof.
  refine (proj1 (locales_are_independent size_law_series ["en-us"; "fr-fr"]
                   false "en-us" 1000
                   {| loc_result := _;
                      loc_issues :=
                        [missing_issue "greeting" "strings.loc.json" "fr-fr"] |}
                   _) "fr-fr" _).
  - vm_compute. reflexivity.
  - apply list_elem_of_further, list_elem_of_here.
Defined.

Lemma filled_element_issues dl locale el v v' :
  reconstructLocalized_element true dl locale el v = Normal v' →
  issues v' = issues v.
Proof.
  destruct el as [s | vals sz name path | f sz tok]; simpl.
  - by intros [= <-].
  - destruct (Js.falsy (vals !! locale)); simpl;
      [destruct (vals !! dl) | destruct (vals !! locale)]; try done;
      by intros [= <-].
  - destruct (f locale tok); simpl; [|done]. by intros [= <-].
Qed.

Lemma filled_walk_issues dl locale series :
  ∀ v v', walk_localized true dl locale series v = Normal v' →
          issues v' = issues v.
Proof.
  induction series as [|el series IH]; intros v v'; simpl.
  - by intros [= <-].
  - destruct (reconstructLocalized_element true dl locale el v) as [v1|e] eqn:H1;
      simpl; [|done].
    intros H. rewrite (IH _ _ H). by eapply filled_element_issues.
Qed.

(** X11. With [fillMissingTranslationStrings], the localized reconstructor
    never records an issue: whenever it returns, on any plan and any locales,
    its list of issues is empty. *)
Theorem fill_missing_records_no_issue series locales defaultLocale initialSize r :
  _reconstructLocalized series locales true defaultLocale initialSize = Normal r →
  loc_issues r = [].
Proof.
  unfold _reconstructLocalized.
  destruct (for_of _ locales _) as [st|e] eqn:Hst; simpl; [|done].
  intros [= <-]. simpl.
  assert (Hloop : ∀ st0 st1,
            for_of (reconstructLocalized_locale series true defaultLocale
                      initialSize) locales st0 = Normal st1 →
            st1.2 = st0.2); [|by apply Hloop in Hst].
  clear. induction locales as [|l locales IH]; intros st0 st1.
  - by intros [= <-].
  - cbn [for_of]. rewrite locale_body.
    destruct (walk_localized true defaultLocale l series vars0) as [v|e] eqn:Hv;
      simpl; [|done].
    intros H. rewrite (IH _ _ H). simpl.
    apply filled_walk_issues in Hv. rewrite Hv. simpl. apply app_nil_r.
Qed.

Lemma fill_missing_records_no_issue_witness :
  loc_issues
    {| loc_result :=
         {[ "en-us" := {| source := "var s = 'hello', l = 'en-us';";
                          size := 1000 + ((5 - 58) + (5 - 58)) |};
            "fr-fr" := {| source := "var s = 'hello', l = 'fr-fr';";
                          size := 1000 + ((5 - 58) + (5 - 58)) |} ]};
       loc_issues := [] |} = [].
Proof.
  apply (fill_missing_records_no_issue size_law_series ["en-us"; "fr-fr"]
           "en-us" 1000).
  vm_compute. reflexivity.
Defined.

Lemma localized_walk_returns fill dl locale series :
  (∀ f sz tok, dynamic f sz tok ∈ series → ∃ s, f locale tok = Normal s) →
  (fill = true →
   ∀ vals sz name path,
     localized vals sz name path ∈ series → is_Some (vals !! dl)) →
  ∀ v, ∃ v', walk_localized fill dl locale series v = Normal v'.
Proof.
  induction series as [|el series IH]; intros Hdyn Hloc v; [by eexists|].
  cbn [for_of].
  assert (Hel : ∃ v1, reconstructLocalized_element fill dl locale el v
                      = Normal v1).
  { destruct el as [s | vals sz name path | f sz tok]; simpl.
    - by eexists.
    - destruct (vals !! locale) as [[|c s]|] eqn:Hl; simpl; try by eexists.
      + destruct fill; [|by eexists].
        destruct (Hloc eq_refl vals sz name path) as [d ->]; [by left|].
        by eexists.
      + destruct fill; [|by eexists].
        destruct (Hloc eq_refl vals sz name path) as [d ->]; [by left|].
        by eexists.
    - destruct (Hdyn f sz tok) as [s ->]; [by left|]. by eexists. }
  destruct Hel as [v1 ->]. simpl. apply IH.
  - intros f sz tok Hin. apply (Hdyn f sz tok). by right.
  - intros Hfill vals sz name path Hin. apply (Hloc Hfill vals sz name path).
    by right.
Qed.

(** X12. When the localized reconstructor cannot throw: if the value
    function of every dynamic element of the plan returns for every requested
    locale and, with [fillMissingTranslationStrings], every localized element
    has a value for the default locale, then the reconstructor returns a
    result; without [fillMissingTranslationStrings] no localized element can
    make it throw. *)
Theorem localized_rendering_returns series locales fill defaultLocale initialSize :
  (∀ f sz tok locale,
     dynamic f sz tok ∈ series → locale ∈ locales →
     ∃ s, f locale tok = Normal s) →
  (fill = true →
   ∀ vals sz name path,
     localized vals sz name path ∈ series →
     is_Some (vals !! defaultLocale)) →
  ∃ r, _reconstructLocalized series locales fill defaultLocale initialSize
       = Normal r.
Proof.
  intros Hdyn Hloc. unfold _reconstructLocalized.
  assert (Hloop : ∀ st,
            ∃ st', for_of (reconstructLocalized_locale series fill defaultLocale
                             initialSize) locales st = Normal st').
  { induction locales as [|l locales IH]; intros st; [by eexists|].
    cbn [for_of]. rewrite locale_body.
    destruct (localized_walk_returns fill defaultLocale l series) with (v := vars0)
      as [v ->]; [|done|].
    { intros f sz tok Hin. apply (Hdyn f sz tok l Hin). by left. }
    simpl. apply IH. intros f sz tok locale Hin Hl.
    apply (Hdyn f sz tok locale Hin). by right. }
  destruct (Hloop (∅, [])) as [st' ->]. by eexists.
Qed.

Lemma localized_rendering_returns_witness :
  ∃ r, _reconstructLocalized size_law_series ["en-us"; "es-es"] true "en-us" 1000
       = Normal r.
Proof.
  apply localized_rendering_returns.
  - intros f sz tok locale Hin _. unfold size_law_series in Hin.
    repeat (apply elem_of_cons in Hin as [Heq | Hin]; try discriminate Heq).
    + injection Heq as -> _ _. by eexists.
    + by apply elem_of_nil in Hin.
  - intros _ vals sz name path Hin. unfold size_law_series in Hin.
    repeat (apply elem_of_cons in Hin as [Heq | Hin]; try discriminate Heq).
    + injection Heq as -> _ _ _. by eexists.
    + by apply elem_of_nil in Hin.
Defined.

(** ** The length of an escaped value *)

Lemma escaped_char_length c :
  String.length (escaped_char c)
  = (1 + 5 * ((if Ascii.eqb c Js.quotemark then 1 else 0)
              + (if Ascii.eqb c Js.apostrophe then 1 else 0)))%nat.
Proof.
  unfold escaped_char.
  destruct (Ascii.eqb_spec c Js.quotemark) as [->|]; [done|].
  by destruct (Ascii.eqb c Js.apostrophe).
Qed.

(** X13. Escaping lengthens a value by five characters for each
    double-quote and each apostrophe in it, and by nothing else: that is the
    length that enters the size of the rendered asset. *)
Theorem escape_quotes_length newValue :
  String.length (escape_quotes newValue)
  = (String.length newValue
     + 5 * (count_char Js.quotemark newValue
            + count_char Js.apostrophe newValue))%nat.
Proof.
  rewrite escape_quotes_each.
  induction newValue as [|c s IH]; [done|].
  cbn [escape_each count_char String.length].
  rewrite str_length_app, escaped_char_length, IH. lia.
Qed.

(** ** A localized element without a translation, in the result *)

(** What the element pushes, alone. *)
Lemma falsy_element_filled vals sz name path dl locale :
  Js.falsy (vals !! locale) = true →
  reconstructLocalized_element true dl locale (localized vals sz name path) vars0
  = match vals !! dl with
    | Some d => Normal {| issues := [];
                          reconstruction := [escape_quotes d];
                          sizeDiff := len (escape_quotes d) - sz |}
    | None => Throw replace_of_undefined
    end.
Proof. intros Hf. simpl. rewrite Hf. by destruct (vals !! dl). Qed.

Lemma falsy_element_reported vals sz name path dl locale :
  Js.falsy (vals !! locale) = true →
  reconstructLocalized_element false dl locale (localized vals sz name path)
    vars0
  = Normal {| issues := [missing_issue name path locale];
              reconstruction := [MISSING_STRING];
              sizeDiff := len MISSING_STRING - sz |}.
Proof. intros Hf. simpl. by rewrite Hf. Qed.

(** The walk of a plan around one of its elements. *)
Lemma walk_in_context fill dl locale pre el post :
  walk_localized fill dl locale (pre ++ el :: post) vars0
  = (vp ← walk_localized fill dl locale pre vars0;
     w ← reconstructLocalized_element fill dl locale el vars0;
     vq ← walk_localized fill dl locale post vars0;
     Normal {| issues := issues vp ++ issues w ++ issues vq;
               reconstruction :=
                 reconstruction vp ++ reconstruction w ++ reconstruction vq;
               sizeDiff := sizeDiff vp + sizeDiff w + sizeDiff vq |}).
Proof.
  rewrite walk_element.
  destruct (walk_localized fill dl locale pre vars0) as [vp|e]; simpl; [|done].
  rewrite localized_element_frame.
  destruct (reconstructLocalized_element fill dl locale el vars0) as [w|e];
    simpl; [|done].
  rewrite (walk_frame _ (localized_element_frame fill dl locale)).
  destruct (walk_localized fill dl locale post vars0) as [vq|e]; simpl; [|done].
  unfold vars_app. simpl. by rewrite <- !app_assoc.
Qed.

(** The rendering of one locale, around one element of the plan. *)
Lemma one_locale_in_context fill dl locale pre el post initialSize :
  _reconstructLocalized (pre ++ el :: post) [locale] fill dl initialSize
  = (vp ← walk_localized fill dl locale pre vars0;
     w ← reconstructLocalized_element fill dl locale el vars0;
     vq ← walk_localized fill dl locale post vars0;
     Normal
       {| loc_result :=
            {[ locale :=
                 {| source :=
                      Js.join (reconstruction vp ++ reconstruction w
                                 ++ reconstruction vq);
                    size := initialSize
                            + (sizeDiff vp + sizeDiff w + sizeDiff vq) |} ]};
          loc_issues := issues vp ++ issues w ++ issues vq |}).
Proof.
  rewrite reconstructLocalized_one_locale, walk_in_context.
  destruct (walk_localized fill dl locale pre vars0) as [vp|e]; simpl; [|done].
  destruct (reconstructLocalized_element fill dl locale el vars0) as [w|e];
    simpl; [|done].
  by destruct (walk_localized fill dl locale post vars0) as [vq|e].
Qed.

(** The issues of every locale are among the issues of the loop. *)
Lemma locales_loop_issues series fill dl initialSize locales :
  ∀ st st',
    for_of (reconstructLocalized_locale series fill dl initialSize) locales st
    = Normal st' →
    (∀ issue, issue ∈ st.2 → issue ∈ st'.2)
    ∧ ∀ locale v,
        locale ∈ locales →
        walk_localized fill dl locale series vars0 = Normal v →
        ∀ issue, issue ∈ issues v → issue ∈ st'.2.
Proof.
  induction locales as [|l locales IH]; intros st st'.
  - intros [= <-]. split; [done|]. by intros locale v ?%elem_of_nil.
  - cbn [for_of]. rewrite locale_body.
    destruct (walk_localized fill dl l series vars0) as [v|e] eqn:Hv; simpl;
      [|done].
    intros Hrun. destruct (IH _ _ Hrun) as [Hkeep Hin]. simpl in Hkeep. split.
    + intros issue Hissue. apply Hkeep, elem_of_app. by left.
    + intros locale v' [->|Hlocale]%elem_of_cons Hv' issue Hissue.
      * rewrite Hv in Hv'. injection Hv' as <-.
        apply Hkeep, elem_of_app. by right.
      * by eapply Hin.
Qed.

(** The entry of a requested locale in a rendering that returns, around one
    element of the plan. *)
Lemma entry_in_context fill dl locale locales pre el post initialSize r :
  locale ∈ locales →
  _reconstructLocalized (pre ++ el :: post) locales fill dl initialSize
  = Normal r →
  ∃ vp w vq,
    walk_localized fill dl locale pre vars0 = Normal vp
    ∧ reconstructLocalized_element fill dl locale el vars0 = Normal w
    ∧ walk_localized fill dl locale post vars0 = Normal vq
    ∧ loc_result r !! locale
      = Some {| source :=
                  Js.join (reconstruction vp ++ reconstruction w
                             ++ reconstruction vq);
                size := initialSize
                        + (sizeDiff vp + sizeDiff w + sizeDiff vq) |}
    ∧ ∀ issue, issue ∈ issues w → issue ∈ loc_issues r.
Proof.
  intros Hin. unfold _reconstructLocalized.
  destruct (for_of _ locales _) as [st|e] eqn:Hst; simpl; [|done].
  intros [= <-]. simpl.
  destruct (locales_loop_walks _ _ _ _ _ _ _ Hst _ Hin) as [v Hv].
  pose proof (locales_loop_lookup _ _ _ _ _ _ _ Hst locale) as Hentry.
  rewrite bool_decide_eq_true_2, Hv in Hentry by done.
  destruct (locales_loop_issues _ _ _ _ _ _ _ Hst) as [_ Hissues].
  specialize (Hissues _ _ Hin Hv).
  rewrite walk_in_context in Hv.
  destruct (walk_localized fill dl locale pre vars0) as [vp|e]; simpl in Hv;
    [|done].
  destruct (reconstructLocalized_element fill dl locale el vars0) as [w|e];
    simpl in Hv; [|done].
  destruct (walk_localized fill dl locale post vars0) as [vq|e]; simpl in Hv;
    [|done].
  injection Hv as <-. simpl in Hentry, Hissues.
  exists vp, w, vq. repeat split; [done|].
  intros issue Hissue. apply Hissues. rewrite !elem_of_app. auto.
Qed.

(** C3, as stated, fails where the values hold nothing for the default
    locale either: with the values [{ "en-us": "hello" }], the locale [es-es],
    the default locale [fr-fr] and [fillMissing], nothing is substituted and
    the reconstructor throws. *)
Lemma absent_default_value_throws :
  hello_values !! "es-es" = None
  ∧ _reconstructLocalized
      [localized hello_values 58 "greeting" "strings.loc.json"]
      ["es-es"] true "fr-fr" 58
    = Throw (TypeError "Cannot read property 'replace' of undefined").
Proof. vm_compute. by split. Qed.

(** C3, amended. A localized element, anywhere in a plan, whose value for the
    requested locale is absent. With [fillMissing] and a value [d] of the
    default locale, [_reconstructLocalized] for this locale substitutes [d]
    (escaped as every substituted value) at the place of the element, between
    the renderings of what precedes and what follows, and the element records
    no issue. Without [fillMissing] it substitutes the sentinel
    [-- MISSING STRING --] and the element records exactly one issue, which
    names the string, its file and the locale. With other locales requested
    as well, a result that is returned holds the same entry for this locale
    and, without [fillMissing], that issue. *)
Theorem missing_translation_policy pre post vals sz name path defaultLocale
    locale initialSize :
  vals !! locale = None →
  (∀ d, vals !! defaultLocale = Some d →
     _reconstructLocalized (pre ++ localized vals sz name path :: post)
       [locale] true defaultLocale initialSize
     = (vp ← walk_localized true defaultLocale locale pre vars0;
        vq ← walk_localized true defaultLocale locale post vars0;
        Normal
          {| loc_result :=
               {[ locale :=
                    {| source :=
                         Js.join (reconstruction vp ++ [escape_quotes d]
                                    ++ reconstruction vq);
                       size := initialSize
                               + (sizeDiff vp + (len (escape_quotes d) - sz)
                                  + sizeDiff vq) |} ]};
             loc_issues := issues vp ++ issues vq |})
     ∧ ∀ locales r,
         locale ∈ locales →
         _reconstructLocalized (pre ++ localized vals sz name path :: post)
           locales true defaultLocale initialSize
         = Normal r →
         ∃ vp vq,
           walk_localized true defaultLocale locale pre vars0 = Normal vp
           ∧ walk_localized true defaultLocale locale post vars0 = Normal vq
           ∧ loc_result r !! locale
             = Some {| source :=
                         Js.join (reconstruction vp ++ [escape_quotes d]
                                    ++ reconstruction vq);
                       size := initialSize
                               + (sizeDiff vp + (len (escape_quotes d) - sz)
                                  + sizeDiff vq) |})
  ∧ _reconstructLocalized (pre ++ localized vals sz name path :: post)
      [locale] false defaultLocale initialSize
    = (vp ← walk_localized false defaultLocale locale pre vars0;
       vq ← walk_localized false defaultLocale locale post vars0;
       Normal
         {| loc_result :=
              {[ locale :=
                   {| source :=
                        Js.join (reconstruction vp ++ ["-- MISSING STRING --"]
                                   ++ reconstruction vq);
                      size := initialSize
                              + (sizeDiff vp + (20 - sz) + sizeDiff vq) |} ]};
            loc_issues :=
              issues vp
              ++ ["The string " +:+ Js.dq +:+ name +:+ Js.dq +:+ " in "
                    +:+ Js.dq +:+ path +:+ Js.dq
                    +:+ " is missing in the locale " +:+ locale]
              ++ issues vq |})
  ∧ ∀ locales r,
      locale ∈ locales →
      _reconstructLocalized (pre ++ localized vals sz name path :: post)
        locales false defaultLocale initialSize
      = Normal r →
      ("The string " +:+ Js.dq +:+ name +:+ Js.dq +:+ " in "
         +:+ Js.dq +:+ path +:+ Js.dq
         +:+ " is missing in the locale " +:+ locale) ∈ loc_issues r
      ∧ ∃ vp vq,
          walk_localized false defaultLocale locale pre vars0 = Normal vp
          ∧ walk_localized false defaultLocale locale post vars0 = Normal vq
          ∧ loc_result r !! locale
            = Some {| source :=
                        Js.join (reconstruction vp ++ ["-- MISSING STRING --"]
                                   ++ reconstruction vq);
                      size := initialSize
                              + (sizeDiff vp + (20 - sz) + sizeDiff vq) |}.
Proof.
  intros Habs.
  assert (Hf : Js.falsy (vals !! locale) = true) by (by rewrite Habs).
  split; [|split].
  - intros d Hd. split.
    + rewrite one_locale_in_context, falsy_element_filled, Hd by done.
      destruct (walk_localized true defaultLocale locale pre vars0); simpl;
        [|done].
      by destruct (walk_localized true defaultLocale locale post vars0).
    + intros locales r Hin Hr.
      destruct (entry_in_context _ _ _ _ _ _ _ _ _ Hin Hr)
        as (vp & w & vq & Hvp & Hw & Hvq & Hentry & _).
      rewrite falsy_element_filled, Hd in Hw by done. injection Hw as <-.
      by exists vp, vq.
  - rewrite one_locale_in_context, falsy_element_reported by done.
    destruct (walk_localized false defaultLocale locale pre vars0); simpl;
      [|done].
    by destruct (walk_localized false defaultLocale locale post vars0).
  - intros locales r Hin Hr.
    destruct (entry_in_context _ _ _ _ _ _ _ _ _ Hin Hr)
      as (vp & w & vq & Hvp & Hw & Hvq & Hentry & Hissue).
    rewrite falsy_element_reported in Hw by done. injection Hw as <-.
    split; [apply Hissue; simpl; apply list_elem_of_here|].
    by exists vp, vq.
Qed.

Lemma missing_translation_policy_witness :
  hello_values !! "es-es" = None
  ∧ _reconstructLocalized
      [static "<"; localized hello_values 58 "greeting" "strings.loc.json";
       static ">"] ["es-es"] true "en-us" 60
    = Normal {| loc_result :=
                  {[ "es-es" := {| source := "<hello>"; size := 7 |} ]};
                loc_issues := [] |}
  ∧ _reconstructLocalized
      [static "<"; localized hello_values 58 "greeting" "strings.loc.json";
       static ">"] ["es-es"] false "en-us" 60
    = Normal {| loc_result :=
                  {[ "es-es" := {| source := "<-- MISSING STRING -->";
                                   size := 22 |} ]};
                loc_issues :=
                  ["The string " +:+ Js.dq +:+ "greeting" +:+ Js.dq +:+ " in "
                     +:+ Js.dq +:+ "strings.loc.json" +:+ Js.dq
                     +:+ " is missing in the locale es-es"] |}.
Proof.
  assert (Habs : hello_values !! "es-es" = None) by (vm_compute; reflexivity).
  destruct (missing_translation_policy [static "<"] [static ">"] hello_values
              58 "greeting" "strings.loc.json" "en-us" "es-es" 60 Habs)
    as (Hfill & Hreport & _).
  split; [exact Habs|]. split.
  - exact (proj1 (Hfill "hello" ltac:(vm_compute; reflexivity))).
  - exact Hreport.
Defined.

(** C9, as stated, fails where the values hold nothing for the default
    locale: with the values [{ "en-us": "hello", "es-es": "" }], the locale
    [es-es], the default locale [fr-fr] and [fillMissing], there is no value
    to fall back to and the reconstructor throws. *)
Lemma empty_translation_without_default :
  empty_values !! "es-es" = Some ""
  ∧ empty_values !! "fr-fr" = None
  ∧ _reconstructLocalized
      [localized empty_values 58 "greeting" "strings.loc.json"]
      ["es-es"] true "fr-fr" 58
    = Throw (TypeError "Cannot read property 'replace' of undefined").
Proof. vm_compute. by repeat split. Qed.

(** C9, amended. A localized element, anywhere in a plan, whose value for the
    requested locale is the empty string is handled as a missing translation,
    and the empty string itself is not rendered. With [fillMissing] and a value
    [d] of the default locale, [_reconstructLocalized] for this locale
    substitutes [d] (escaped) at the place of the element and the element
    records no issue. Without [fillMissing] it substitutes the sentinel
    [-- MISSING STRING --] and the element records the missing-string issue.
    With other locales requested as well, a result that is returned holds the
    same entry for this locale and, without [fillMissing], that issue. *)
Theorem empty_translation_is_missing pre post vals sz name path defaultLocale
    locale initialSize :
  vals !! locale = Some "" →
  (∀ d, vals !! defaultLocale = Some d →
     _reconstructLocalized (pre ++ localized vals sz name path :: post)
       [locale] true defaultLocale initialSize
     = (vp ← walk_localized true defaultLocale locale pre vars0;
        vq ← walk_localized true defaultLocale locale post vars0;
        Normal
          {| loc_result :=
               {[ locale :=
                    {| source :=
                         Js.join (reconstruction vp ++ [escape_quotes d]
                                    ++ reconstruction vq);
                       size := initialSize
                               + (sizeDiff vp + (len (escape_quotes d) - sz)
                                  + sizeDiff vq) |} ]};
             loc_issues := issues vp ++ issues vq |})
     ∧ ∀ locales r,
         locale ∈ locales →
         _reconstructLocalized (pre ++ localized vals sz name path :: post)
           locales true defaultLocale initialSize
         = Normal r →
         ∃ vp vq,
           walk_localized true defaultLocale locale pre vars0 = Normal vp
           ∧ walk_localized true defaultLocale locale post vars0 = Normal vq
           ∧ loc_result r !! locale
             = Some {| source :=
                         Js.join (reconstruction vp ++ [escape_quotes d]
                                    ++ reconstruction vq);
                       size := initialSize
                               + (sizeDiff vp + (len (escape_quotes d) - sz)
                                  + sizeDiff vq) |})
  ∧ _reconstructLocalized (pre ++ localized vals sz name path :: post)
      [locale] false defaultLocale initialSize
    = (vp ← walk_localized false defaultLocale locale pre vars0;
       vq ← walk_localized false defaultLocale locale post vars0;
       Normal
         {| loc_result :=
              {[ locale :=
                   {| source :=
                        Js.join (reconstruction vp ++ [MISSING_STRING]
                                   ++ reconstruction vq);
                      size := initialSize
                              + (sizeDiff vp + (len MISSING_STRING - sz)
                                 + sizeDiff vq) |} ]};
            loc_issues :=
              issues vp ++ [missing_issue name path locale] ++ issues vq |})
  ∧ ∀ locales r,
      locale ∈ locales →
      _reconstructLocalized (pre ++ localized vals sz name path :: post)
        locales false defaultLocale initialSize
      = Normal r →
      missing_issue name path locale ∈ loc_issues r
      ∧ ∃ vp vq,
          walk_localized false defaultLocale locale pre vars0 = Normal vp
          ∧ walk_localized false defaultLocale locale post vars0 = Normal vq
          ∧ loc_result r !! locale
            = Some {| source :=
                        Js.join (reconstruction vp ++ [MISSING_STRING]
                                   ++ reconstruction vq);
                      size := initialSize
                              + (sizeDiff vp + (len MISSING_STRING - sz)
                                 + sizeDiff vq) |}.
Proof.
  intros Hempty.
  assert (Hf : Js.falsy (vals !! locale) = true) by (by rewrite Hempty).
  split; [|split].
  - intros d Hd. split.
    + rewrite one_locale_in_context, falsy_element_filled, Hd by done.
      destruct (walk_localized true defaultLocale locale pre vars0); simpl;
        [|done].
      by destruct (walk_localized true defaultLocale locale post vars0).
    + intros locales r Hin Hr.
      destruct (entry_in_context _ _ _ _ _ _ _ _ _ Hin Hr)
        as (vp & w & vq & Hvp & Hw & Hvq & Hentry & _).
      rewrite falsy_element_filled, Hd in Hw by done. injection Hw as <-.
      by exists vp, vq.
  - rewrite one_locale_in_context, falsy_element_reported by done.
    destruct (walk_localized false defaultLocale locale pre vars0); simpl;
      [|done].
    by destruct (walk_localized false defaultLocale locale post vars0).
  - intros locales r Hin Hr.
    destruct (entry_in_context _ _ _ _ _ _ _ _ _ Hin Hr)
      as (vp & w & vq & Hvp & Hw & Hvq & Hentry & Hissue).
    rewrite falsy_element_reported in Hw by done. injection Hw as <-.
    split; [apply Hissue; simpl; apply list_elem_of_here|].
    by exists vp, vq.
Qed.

Lemma empty_translation_is_missing_witness :
  empty_values !! "es-es" = Some ""
  ∧ _reconstructLocalized
      [static "<"; localized empty_values 58 "greeting" "strings.loc.json";
       static ">"] ["es-es"] true "en-us" 60
    = Normal {| loc_result :=
                  {[ "es-es" := {| source := "<hello>"; size := 7 |} ]};
                loc_issues := [] |}
  ∧ _reconstructLocalized
      [static "<"; localized empty_values 58 "greeting" "strings.loc.json";
       static ">"] ["es-es"] false "en-us" 60
    = Normal {| loc_result :=
                  {[ "es-es" := {| source := "<-- MISSING STRING -->";
                                   size := 22 |} ]};
                loc_issues :=
                  [missing_issue "greeting" "strings.loc.json" "es-es"] |}.
Proof.
  assert (Hempty : empty_values !! "es-es" = Some "")
    by (vm_compute; reflexivity).
  destruct (empty_translation_is_missing [static "<"] [static ">"] empty_values
              58 "greeting" "strings.loc.json" "en-us" "es-es" 60 Hempty)
    as (Hfill & Hreport & _).
  split; [exact Hempty|]. split.
  - exact (proj1 (Hfill "hello" ltac:(vm_compute; reflexivity))).
  - exact Hreport.
Defined.

(** C10, as stated, fails where the default locale's value is falsy but
    present: with the values [{ "en-us": "" }], the locale [es-es], the default
    locale [en-us] and [fillMissing], the empty string is substituted and
    nothing is thrown. *)
Lemma empty_default_value_renders :
  Js.falsy (empty_default_values !! "es-es") = true
  ∧ Js.falsy (empty_default_values !! "en-us") = true
  ∧ _reconstructLocalized
      [localized empty_default_values 58 "greeting" "strings.loc.json"]
      ["es-es"] true "en-us" 100
    = Normal {| loc_result := {[ "es-es" := {| source := ""; size := 42 |} ]};
                loc_issues := [] |}.
Proof. vm_compute. repeat split. Qed.

(** C10, amended. A localized element, anywhere in a plan, whose value for
    the requested locale is absent or empty. With [fillMissing], when the
    values hold nothing for the default locale, [_reconstructLocalized] throws:
    for this locale alone, once what precedes the element is rendered, the
    [TypeError] of the [replace] on [undefined], with no result and no issue;
    and it throws whenever this locale is among the requested ones. When the
    default locale's value is the empty string, the empty string is
    substituted, with no issue and no error. Without [fillMissing] the element
    renders without error, as the sentinel with its issue. *)
Theorem fill_missing_without_default pre post vals sz name path defaultLocale
    locale initialSize :
  Js.falsy (vals !! locale) = true →
  (vals !! defaultLocale = None →
     _reconstructLocalized (pre ++ localized vals sz name path :: post)
       [locale] true defaultLocale initialSize
     = (vp ← walk_localized true defaultLocale locale pre vars0;
        Throw (TypeError "Cannot read property 'replace' of undefined"))
     ∧ ∀ locales,
         locale ∈ locales →
         ∃ e,
           _reconstructLocalized (pre ++ localized vals sz name path :: post)
             locales true defaultLocale initialSize
           = Throw e)
  ∧ (vals !! defaultLocale = Some "" →
       _reconstructLocalized (pre ++ localized vals sz name path :: post)
         [locale] true defaultLocale initialSize
       = (vp ← walk_localized true defaultLocale locale pre vars0;
          vq ← walk_localized true defaultLocale locale post vars0;
          Normal
            {| loc_result :=
                 {[ locale :=
                      {| source :=
                           Js.join (reconstruction vp ++ [""]
                                      ++ reconstruction vq);
                         size := initialSize
                                 + (sizeDiff vp + (0 - sz) + sizeDiff vq) |} ]};
               loc_issues := issues vp ++ issues vq |}))
  ∧ _reconstructLocalized (pre ++ localized vals sz name path :: post)
      [locale] false defaultLocale initialSize
    = (vp ← walk_localized false defaultLocale locale pre vars0;
       vq ← walk_localized false defaultLocale locale post vars0;
       Normal
         {| loc_result :=
              {[ locale :=
                   {| source :=
                        Js.join (reconstruction vp ++ [MISSING_STRING]
                                   ++ reconstruction vq);
                      size := initialSize
                              + (sizeDiff vp + (len MISSING_STRING - sz)
                                 + sizeDiff vq) |} ]};
            loc_issues :=
              issues vp ++ [missing_issue name path locale] ++ issues vq |}).
Proof.
  intros Hf. split; [|split].
  - intros Hd. split.
    + rewrite one_locale_in_context, falsy_element_filled, Hd by done.
      by destruct (walk_localized true defaultLocale locale pre vars0).
    + intros locales Hin.
      destruct (_reconstructLocalized _ locales true defaultLocale initialSize)
        as [r|e] eqn:Hr; [|by eauto].
      destruct (entry_in_context _ _ _ _ _ _ _ _ _ Hin Hr)
        as (vp & w & vq & _ & Hw & _).
      rewrite falsy_element_filled, Hd in Hw by done. discriminate Hw.
  - intros Hd. rewrite one_locale_in_context, falsy_element_filled, Hd by done.
    destruct (walk_localized true defaultLocale locale pre vars0); simpl;
      [|done].
    by destruct (walk_localized true defaultLocale locale post vars0).
  - rewrite one_locale_in_context, falsy_element_reported by done.
    destruct (walk_localized false defaultLocale locale pre vars0); simpl;
      [|done].
    by destruct (walk_localized false defaultLocale locale post vars0).
Qed.

Lemma fill_missing_without_default_witness :
  Js.falsy (hello_values !! "es-es") = true
  ∧ _reconstructLocalized
      [static "<"; localized hello_values 58 "greeting" "strings.loc.json";
       static ">"] ["es-es"] true "fr-fr" 60
    = Throw (TypeError "Cannot read property 'replace' of undefined")
  ∧ (∃ e,
       _reconstructLocalized
         [static "<"; localized hello_values 58 "greeting" "strings.loc.json";
          static ">"] ["en-us"; "es-es"] true "fr-fr" 60
       = Throw e)
  ∧ _reconstructLocalized
      [static "<"; localized hello_values 58 "greeting" "strings.loc.json";
       static ">"] ["es-es"] false "fr-fr" 60
    = Normal {| loc_result :=
                  {[ "es-es" := {| source := "<-- MISSING STRING -->";
                                   size := 22 |} ]};
                loc_issues :=
                  [missing_issue "greeting" "strings.loc.json" "es-es"] |}.
Proof.
  assert (Hf : Js.falsy (hello_values !! "es-es") = true)
    by (vm_compute; reflexivity).
  destruct (fill_missing_without_default [static "<"] [static ">"] hello_values
              58 "greeting" "strings.loc.json" "fr-fr" "es-es" 60 Hf)
    as (Hthrow & _ & Hreport).
  destruct (Hthrow ltac:(vm_compute; reflexivity)) as [Hone Hall].
  split; [exact Hf|]. split; [exact Hone|]. split; [|exact Hreport].
  apply Hall. apply list_elem_of_further, list_elem_of_here.
Defined.

(** * More on the JSONP resolver *)

(** X14. The resolver derived for a chunk returns a text for every
    non-empty locale, whatever the token; its only error is
    [Missing locale name.], which needs an empty locale and both a marked and
    an unmarked async chunk. *)
Theorem resolver_throws_only_on_empty_locale asyncChunks noStringsLocaleName
    locale chunkIdToken :
  (locale ≠ "" →
   ∃ text, _getJsonpFunction asyncChunks noStringsLocaleName locale chunkIdToken
           = Normal text)
  ∧ (∀ e,
       _getJsonpFunction asyncChunks noStringsLocaleName locale chunkIdToken
       = Throw e →
       e = Error "Missing locale name." ∧ locale = ""
       ∧ has_marked asyncChunks ∧ has_unmarked asyncChunks).
Proof.
  rewrite getJsonpFunction_unfold.
  destruct (partition_ids_spec asyncChunks) as [Hw Hwo].
  destruct (partition_ids asyncChunks).1 as [|x w] eqn:H1;
    [split; [by eexists | done]|].
  destruct (partition_ids asyncChunks).2 as [|y wo] eqn:H2;
    [split; [by eexists | done]|].
  split.
  - intros Hne. destruct locale; [done|]. by eexists.
  - intros e. destruct locale; [|done]. simpl. intros [= <-].
    split; [done|]. split; [done|]. split.
    + destruct (proj1 (Hw x)) as (c & Hin & _ & Hm); [by left|]. by exists c.
    + destruct (proj1 (Hwo y)) as (c & Hin & _ & Hm); [by left|]. by exists c.
Qed.

Lemma resolver_throws_only_on_empty_locale_witness :
  ∃ text, _getJsonpFunction mixed_chunks "none" "fr-fr" None = Normal text.
Proof.
  apply (proj1 (resolver_throws_only_on_empty_locale mixed_chunks "none" "fr-fr"
                  None)).
  discriminate.
Defined.

(** * The asset processor's entry points *)

Lemma report_issues_nil errors : report_issues [] errors = errors.
Proof. reflexivity. Qed.

Lemma report_issues_one issues errors :
  report_issues issues errors = errors
  ∨ ∃ message, report_issues issues errors = errors ++ [Error message].
Proof.
  unfold report_issues. destruct (0 <? length issues)%nat; [right|left]; eauto.
Qed.

(** The loop that pairs each rendered asset with its rendered name. *)
Lemma pair_loop names (entries : list (string * IReconstructedString)) :
  NoDup entries.*1 →
  (∀ k rendered, (k, rendered) ∈ entries → is_Some (names !! k)) →
  ∀ acc,
    ∃ result,
      for_of (pair_with_name names) entries acc = Normal result
      ∧ ∀ k,
          result !! k
          = match (list_to_map entries : gmap string IReconstructedString) !! k with
            | Some rendered =>
                name ← names !! k;
                Some {| filename := source name;
                        asset := {| asset_source := source rendered;
                                    asset_size := size rendered |} |}
            | None => acc !! k
            end.
Proof.
  induction entries as [|[k0 r0] entries IH]; intros Hnodup Hnames acc.
  - exists acc. split; [done|]. intros k. simpl. by rewrite lookup_empty.
  - rewrite fmap_cons in Hnodup. apply NoDup_cons in Hnodup as [Hk0 Hnodup].
    destruct (Hnames k0 r0) as [n0 Hn0]; [by left|].
    cbn [for_of pair_with_name]. rewrite Hn0. simpl.
    destruct (IH Hnodup) with
      (acc := <[k0 := {| filename := source n0;
                         asset := {| asset_source := source r0;
                                     asset_size := size r0 |} |}]> acc)
      as (result & -> & Hlook).
    { intros k rendered Hin. apply (Hnames k rendered). by right. }
    exists result. split; [done|]. intros k. rewrite Hlook.
    destruct (decide (k0 = k)) as [<-|Hne].
    + rewrite lookup_insert_eq, Hn0. simpl.
      by rewrite (not_elem_of_list_to_map_1 _ _ Hk0), lookup_insert_eq.
    + by rewrite !lookup_insert_ne.
Qed.

Lemma plain_parse plugin jsonp text re :
  Regex.search text 0 = None →
  _parseStringToReconstructionSequence plugin text jsonp re
  = Some (Normal {| parse_issues := [];
                    reconstructionSeries := [static text] |}, O).
Proof.
  intros Hnone. unfold _parseStringToReconstructionSequence. cbn [parse_loop].
  by rewrite (exec_no_match _ _ Hnone).
Qed.

Lemma plain_nonlocalized text initialSize noStrings :
  _reconstructNonLocalized [static text] initialSize noStrings
  = Normal {| nonloc_result := {| source := text; size := initialSize |};
              nonloc_issues := [] |}.
Proof.
  unfold _reconstructNonLocalized. simpl. by rewrite str_app_nil_r, Z.add_0_r.
Qed.

(** X15. An asset without placeholders, in its content and in its name, goes
    through both entry points unchanged: the non-localized one returns the
    asset under its name, the localized one returns it under its name for
    every requested locale and for no other; no error is pushed on
    [compilation.errors], and [PLACEHOLDER_REGEX] is left at [lastIndex = 0]
    whatever it was. *)
Theorem plain_asset_is_unchanged plugin assetName a chunk noStringsLocaleName
    errors re :
  Regex.search (asset_source a) 0 = None →
  Regex.search assetName 0 = None →
  processNonLocalizedAsset plugin assetName a chunk noStringsLocaleName errors re
  = Some (Normal ({| filename := assetName; asset := a |}, errors), O)
  ∧ ∀ locales fill defaultLocale,
      ∃ result,
        processLocalizedAsset plugin assetName a chunk noStringsLocaleName
          locales fill defaultLocale errors re
        = Some (Normal (result, errors), O)
        ∧ ∀ locale,
            result !! locale
            = if bool_decide (locale ∈ locales)
              then Some {| filename := assetName; asset := a |}
              else None.
Proof.
  intros Hsource Hname. split.
  - unfold processNonLocalizedAsset.
    rewrite (plain_parse _ _ _ _ Hsource). cbn [reconstructionSeries].
    rewrite plain_nonlocalized, (plain_parse _ _ _ _ Hname).
    cbn [reconstructionSeries]. rewrite plain_nonlocalized. simpl.
    by destruct a.
  - intros locales fill dl. unfold processLocalizedAsset.
    rewrite (plain_parse _ _ _ _ Hsource). cbn [reconstructionSeries].
    unfold _reconstructLocalized.
    destruct (static_only_locales (asset_source a) (asset_size a) fill dl
                locales (∅, [])) as (sta & -> & Hissa & Hmapa).
    cbn [mbind completion_bind].
    rewrite (plain_parse _ _ _ _ Hname). cbn [reconstructionSeries].
    destruct (static_only_locales assetName (len assetName) fill dl
                locales (∅, [])) as (stn & -> & Hissn & Hmapn).
    cbn [mbind completion_bind loc_result loc_issues parse_issues].
    destruct (pair_loop stn.1 (map_to_list sta.1)) with
      (acc := (∅ : gmap string IProcessAssetResult))
      as (result & -> & Hlook).
    { apply NoDup_fst_map_to_list. }
    { intros k rendered Hin%elem_of_map_to_list.
      rewrite Hmapn. rewrite Hmapa in Hin.
      destruct (bool_decide (k ∈ locales)); [by eexists|].
      simpl in Hin. by rewrite lookup_empty in Hin. }
    exists result. rewrite Hissa, Hissn. simpl. split; [done|].
    intros locale. rewrite Hlook, list_to_map_to_list, Hmapa, Hmapn. simpl.
    destruct (bool_decide (locale ∈ locales)); simpl.
    + by destruct a.
    + by rewrite !lookup_empty.
Qed.

Lemma plain_asset_is_unchanged_witness :
  processNonLocalizedAsset table "main.js" plain_asset mixed_chunks "none"
    [Error "earlier"] 40
  = Some (Normal ({| filename := "main.js"; asset := plain_asset |},
                  [Error "earlier"]), O).
Proof.
  apply (proj1 (plain_asset_is_unchanged table "main.js" plain_asset mixed_chunks
                  "none" [Error "earlier"] 40
                  ltac:(vm_compute; reflexivity) ltac:(vm_compute; reflexivity))).
Defined.

Lemma localized_entries series locales fill dl initialSize r :
  _reconstructLocalized series locales fill dl initialSize = Normal r →
  (∀ locale,
     locale ∈ locales →
     ∃ r1 rendered,
       _reconstructLocalized series [locale] fill dl initialSize = Normal r1
       ∧ loc_result r1 !! locale = Some rendered
       ∧ loc_result r !! locale = Some rendered)
  ∧ (∀ locale, locale ∉ locales → loc_result r !! locale = None).
Proof.
  unfold _reconstructLocalized at 1.
  destruct (for_of _ locales _) as [st|e] eqn:Hst; simpl; [|done].
  intros [= <-]. split.
  - intros locale Hin.
    destruct (locales_loop_walks _ _ _ _ _ _ _ Hst _ Hin) as [v Hv].
    rewrite reconstructLocalized_one_locale, Hv. simpl.
    eexists _, _. split; [reflexivity|]. simpl.
    rewrite lookup_singleton_eq. split; [reflexivity|].
    rewrite (locales_loop_lookup _ _ _ _ _ _ _ Hst).
    by rewrite bool_decide_eq_true_2, Hv.
  - intros locale Hnin. simpl.
    rewrite (locales_loop_lookup _ _ _ _ _ _ _ Hst).
    by rewrite bool_decide_eq_false_2.
Qed.

(** The pairing loop of [processLocalizedAsset] on the renderings of the
    same locales. *)
Lemma pair_renderings series_a series_n locales fill dl size_a size_n ra rn :
  _reconstructLocalized series_a locales fill dl size_a = Normal ra →
  _reconstructLocalized series_n locales fill dl size_n = Normal rn →
  ∃ result,
    for_of (pair_with_name (loc_result rn)) (map_to_list (loc_result ra)) ∅
    = Normal result
    ∧ ∀ locale,
        result !! locale
        = (content ← loc_result ra !! locale;
           name ← loc_result rn !! locale;
           Some {| filename := source name;
                   asset := {| asset_source := source content;
                               asset_size := size content |} |}).
Proof.
  intros Ha Hn.
  destruct (localized_entries _ _ _ _ _ _ Ha) as [Ha_in Ha_out].
  destruct (localized_entries _ _ _ _ _ _ Hn) as [Hn_in Hn_out].
  destruct (pair_loop (loc_result rn) (map_to_list (loc_result ra))) with
    (acc := (∅ : gmap string IProcessAssetResult)) as (result & Hrun & Hlook).
  { apply NoDup_fst_map_to_list. }
  { intros k rendered Hin%elem_of_map_to_list.
    destruct (decide (k ∈ locales)) as [Hk|Hk].
    - destruct (Hn_in k Hk) as (_ & name & _ & _ & ->). by eexists.
    - by rewrite (Ha_out k Hk) in Hin. }
  exists result. split; [done|]. intros locale.
  rewrite Hlook, list_to_map_to_list.
  destruct (loc_result ra !! locale); simpl; [done|]. apply lookup_empty.
Qed.

(** X16. The artifacts of [processLocalizedAsset]: whenever it returns, it
    gives one artifact for every requested locale and for no other; the
    artifact of a locale pairs the name and the content rendered for that
    locale alone; at most one error is pushed on [compilation.errors], after
    the errors that were there; and [PLACEHOLDER_REGEX] is left at
    [lastIndex = 0]. *)
Theorem localized_asset_artifacts plugin assetName a chunk noStringsLocaleName
    locales fill defaultLocale errors re result errors' re' :
  processLocalizedAsset plugin assetName a chunk noStringsLocaleName locales
    fill defaultLocale errors re = Some (Normal (result, errors'), re') →
  re' = O
  ∧ (errors' = errors ∨ ∃ message, errors' = errors ++ [Error message])
  ∧ (∀ locale, locale ∉ locales → result !! locale = None)
  ∧ ∃ parsedAsset parsedAssetName,
      _parseStringToReconstructionSequence plugin (asset_source a)
        (_getJsonpFunction chunk noStringsLocaleName) re
      = Some (Normal parsedAsset, O)
      ∧ _parseStringToReconstructionSequence plugin assetName unsupported 0
        = Some (Normal parsedAssetName, O)
      ∧ ∀ locale,
          locale ∈ locales →
          ∃ rc rn content name,
            _reconstructLocalized (reconstructionSeries parsedAsset) [locale]
              fill defaultLocale (asset_size a) = Normal rc
            ∧ loc_result rc !! locale = Some content
            ∧ _reconstructLocalized (reconstructionSeries parsedAssetName)
                [locale] fill defaultLocale (len assetName) = Normal rn
            ∧ loc_result rn !! locale = Some name
            ∧ result !! locale
              = Some {| filename := source name;
                        asset := {| asset_source := source content;
                                    asset_size := size content |} |}.
Proof.
  unfold processLocalizedAsset.
  destruct (_parseStringToReconstructionSequence plugin (asset_source a) _ re)
    as [[[pa|e] re1]|] eqn:Hpa; try done.
  pose proof (parse_resets_lastIndex _ _ _ _ _ _ Hpa) as ->.
  destruct (_reconstructLocalized (reconstructionSeries pa) _ _ _ _)
    as [ra|e] eqn:Hra; [|done].
  destruct (_parseStringToReconstructionSequence plugin assetName unsupported 0)
    as [[[pn|e] re2]|] eqn:Hpn; try done.
  pose proof (parse_resets_lastIndex _ _ _ _ _ _ Hpn) as ->.
  destruct (_reconstructLocalized (reconstructionSeries pn) _ _ _ _)
    as [rn|e] eqn:Hrn; [|done].
  destruct (pair_renderings _ _ _ _ _ _ _ _ _ Hra Hrn) as (res & -> & Hlook).
  intros [= <- <- <-].
  destruct (localized_entries _ _ _ _ _ _ Hra) as [Ha_in Ha_out].
  destruct (localized_entries _ _ _ _ _ _ Hrn) as [Hn_in Hn_out].
  split; [done|]. split; [apply report_issues_one|]. split.
  - intros locale Hout. by rewrite Hlook, (Ha_out _ Hout).
  - exists pa, pn. split; [done|]. split; [done|].
    intros locale Hin.
    destruct (Ha_in locale Hin) as (rc & content & Hrc & Hc1 & Hc).
    destruct (Hn_in locale Hin) as (rn1 & name & Hrn1 & Hn1 & Hn).
    exists rc, rn1, content, name.
    repeat split; try done. by rewrite Hlook, Hc, Hn.
Qed.

Lemma localized_asset_artifacts_witness :
  ∃ rc rn content name,
    _reconstructLocalized
      [static "say(";
       localized {[ "en-us" := "hello"; "fr-fr" := "l'eau" ]} 58 "greeting"
         "strings.loc.json";
       static ", "; dynamic (fun locale _ => Normal locale) 58 None; static ")"]
      ["es-es"] false "en-us" 200 = Normal rc
    ∧ loc_result rc !! "es-es" = Some content
    ∧ _reconstructLocalized
        [static "greeting."; dynamic (fun locale _ => Normal locale) 58 None;
         static ".js"]
        ["es-es"] false "en-us" (len greeting_asset_name) = Normal rn
    ∧ loc_result rn !! "es-es" = Some name
    ∧ greeting_artifacts !! "es-es"
      = Some {| filename := source name;
                asset := {| asset_source := source content;
                            asset_size := size content |} |}.
Proof.
  destruct (localized_asset_artifacts table greeting_asset_name greeting_asset
              mixed_chunks "none" ["en-us"; "es-es"] false "en-us" [] 0
              greeting_artifacts
              [Error ("localization:" +:+ newline +:+ "  "
                        +:+ missing_issue "greeting" "strings.loc.json" "es-es")]
              O ltac:(vm_compute; reflexivity))
    as (_ & _ & _ & pa & pn & Hpa & Hpn & Hart).
  vm_compute in Hpa. injection Hpa as <-.
  vm_compute in Hpn. injection Hpn as <-.
  apply (Hart "es-es"). apply list_elem_of_further, list_elem_of_here.
Defined.

(** ** The errors of the entry points *)

Lemma parse_label_from_parser plugin jsonp m issues el issues' :
  parse_label plugin jsonp m issues = Normal (el, issues') →
  from_parser jsonp el.
Proof.
  unfold parse_label.
  destruct (String.eqb _ Constants.STRING_PLACEHOLDER_LABEL).
  { destruct (plugin _); by intros [= <- _]. }
  destruct (String.eqb _ Constants.LOCALE_NAME_PLACEHOLDER_LABEL).
  { intros [= <- _]. by left. }
  destruct (String.eqb _ Constants.JSONP_PLACEHOLDER_LABEL); [|done].
  destruct (token m); [|done]. intros [= <- _]. by right.
Qed.

Lemma parse_loop_from_parser plugin jsonp text fuel :
  ∀ re lastIndex issues series r re',
    Forall (from_parser jsonp) series →
    parse_loop fuel plugin jsonp text re lastIndex issues series
    = Some (Normal r, re') →
    Forall (from_parser jsonp) (reconstructionSeries r).
Proof.
  induction fuel as [|fuel IH]; intros re li iss ser r re' Hser; [done|].
  cbn [parse_loop].
  destruct (Regex.exec text re) as [[m|] re1].
  - destruct (parse_label plugin jsonp m iss) as [[el iss']|e] eqn:Hp; [|done].
    apply IH. apply Forall_app. split; [apply Forall_app; split|].
    + done.
    + by repeat constructor.
    + repeat constructor. by eapply parse_label_from_parser.
  - intros [= <- _]. simpl. apply Forall_app. split; [done|].
    by repeat constructor.
Qed.

Lemma parsed_plan_from_parser plugin text jsonp re r re' :
  _parseStringToReconstructionSequence plugin text jsonp re
  = Some (Normal r, re') →
  Forall (from_parser jsonp) (reconstructionSeries r).
Proof. apply parse_loop_from_parser. constructor. Qed.

Lemma resolver_Throw asyncChunks noStrings locale tok e :
  _getJsonpFunction asyncChunks noStrings locale tok = Throw e →
  e = missing_locale_name ∧ locale = "".
Proof.
  rewrite getJsonpFunction_unfold.
  destruct (partition_ids asyncChunks).1; [done|].
  destruct (partition_ids asyncChunks).2; [done|].
  destruct locale; [|done]. by intros [= <-].
Qed.

Lemma nonlocalized_walk_Throw jsonp noStrings series :
  Forall (from_parser jsonp) series →
  ∀ v e,
    for_of (reconstructNonLocalized_element noStrings) series v = Throw e →
    ∃ tok, jsonp noStrings tok = Throw e.
Proof.
  induction 1 as [|el series Hel Hser IH]; intros v e; [done|].
  cbn [for_of].
  destruct (reconstructNonLocalized_element noStrings el v) as [v1|e1] eqn:H1;
    simpl; [apply IH|].
  intros [= <-].
  destruct el as [s | vals sz name path | f sz tok]; simpl in H1; try done.
  destruct Hel as [-> | ->]; [done|].
  exists tok. destruct (jsonp noStrings tok) as [s|e2]; [done|].
  by injection H1 as ->.
Qed.

Lemma localized_walk_Throw jsonp fill dl locale series :
  Forall (from_parser jsonp) series →
  ∀ v e,
    walk_localized fill dl locale series v = Throw e →
    (e = replace_of_undefined ∧ fill = true)
    ∨ ∃ tok, jsonp locale tok = Throw e.
Proof.
  induction 1 as [|el series Hel Hser IH]; intros v e; [done|].
  cbn [for_of].
  destruct (reconstructLocalized_element fill dl locale el v) as [v1|e1] eqn:H1;
    simpl; [apply IH|].
  intros [= <-].
  destruct el as [s | vals sz name path | f sz tok]; simpl in H1; try done.
  - left. destruct (vals !! locale) as [[|c s]|], fill; simpl in H1;
      try done; destruct (vals !! dl); try done; by injection H1 as <-.
  - right. destruct Hel as [-> | ->]; [done|].
    exists tok. destruct (jsonp locale tok) as [s|e2]; [done|].
    by injection H1 as ->.
Qed.

Lemma localized_Throw jsonp series locales fill dl initialSize e :
  Forall (from_parser jsonp) series →
  _reconstructLocalized series locales fill dl initialSize = Throw e →
  (e = replace_of_undefined ∧ fill = true)
  ∨ ∃ locale tok, locale ∈ locales ∧ jsonp locale tok = Throw e.
Proof.
  intros Hser. unfold _reconstructLocalized.
  destruct (for_of _ locales _) as [st|e1] eqn:Hst; simpl; [done|].
  intros [= <-]. revert Hst. generalize (∅ : gmap string IReconstructedString, @nil string).
  induction locales as [|l locales IH]; intros st; [done|].
  cbn [for_of]. rewrite locale_body.
  destruct (walk_localized fill dl l series vars0) as [v|e] eqn:Hv; simpl.
  - intros H. destruct (IH _ H) as [?|(locale & tok & Hin & Ht)]; [by left|].
    right. exists locale, tok. split; [by right | done].
  - intros [= <-].
    destruct (localized_walk_Throw _ _ _ _ _ Hser _ _ Hv) as [?|[tok Ht]];
      [by left|].
    right. exists l, tok. split; [by left | done].
Qed.

Lemma nonlocalized_Throw jsonp series initialSize noStrings e :
  Forall (from_parser jsonp) series →
  _reconstructNonLocalized series initialSize noStrings = Throw e →
  ∃ tok, jsonp noStrings tok = Throw e.
Proof.
  intros Hser. unfold _reconstructNonLocalized.
  destruct (for_of _ series _) as [v|e1] eqn:Hv; simpl; [done|].
  intros [= <-]. by eapply nonlocalized_walk_Throw.
Qed.

(** X17. The errors the entry points can throw. [processNonLocalizedAsset]
    throws nothing but the [TypeError] of a JSONP placeholder without token,
    [Missing locale name.] (with an empty [noStringsLocaleName] only) and
    [unsupported] (a JSONP placeholder in the asset's name).
    [processLocalizedAsset] throws nothing but these, [Missing locale name.]
    with an empty locale among the requested ones only, and the [TypeError] of
    a missing default value, with [fillMissingTranslationStrings] only; the
    lookup of a locale's rendered name never fails. *)
Theorem entry_point_errors plugin assetName a chunk noStringsLocaleName errors
    re e re' :
  (processNonLocalizedAsset plugin assetName a chunk noStringsLocaleName errors
     re = Some (Throw e, re') →
   e = TypeError "Cannot read property 'substring' of undefined"
   ∨ (e = Error "Missing locale name." ∧ noStringsLocaleName = "")
   ∨ e = Error "unsupported")
  ∧ (∀ locales fill defaultLocale,
       processLocalizedAsset plugin assetName a chunk noStringsLocaleName
         locales fill defaultLocale errors re = Some (Throw e, re') →
       e = TypeError "Cannot read property 'substring' of undefined"
       ∨ (e = TypeError "Cannot read property 'replace' of undefined"
          ∧ fill = true)
       ∨ (e = Error "Missing locale name." ∧ "" ∈ locales)
       ∨ e = Error "unsupported").
Proof.
  split.
  - unfold processNonLocalizedAsset.
    destruct (_parseStringToReconstructionSequence plugin (asset_source a) _ re)
      as [[[pa|e1] re1]|] eqn:Hpa; try done.
    2:{ intros [= <- _]. left. by apply parse_loop_Throw in Hpa. }
    pose proof (parsed_plan_from_parser _ _ _ _ _ _ Hpa) as Hfa.
    destruct (_reconstructNonLocalized (reconstructionSeries pa) _ _)
      as [ra|e1] eqn:Hra.
    2:{ intros [= <- _]. right. left.
        destruct (nonlocalized_Throw _ _ _ _ _ Hfa Hra) as [tok Ht].
        by apply resolver_Throw in Ht. }
    destruct (_parseStringToReconstructionSequence plugin assetName unsupported
                re1) as [[[pn|e1] re2]|] eqn:Hpn; try done.
    2:{ intros [= <- _]. left. by apply parse_loop_Throw in Hpn. }
    pose proof (parsed_plan_from_parser _ _ _ _ _ _ Hpn) as Hfn.
    destruct (_reconstructNonLocalized (reconstructionSeries pn) _ _)
      as [rn|e1] eqn:Hrn; [done|].
    intros [= <- _]. right. right.
    destruct (nonlocalized_Throw _ _ _ _ _ Hfn Hrn) as [tok Ht].
    by injection Ht as <-.
  - intros locales fill dl. unfold processLocalizedAsset.
    destruct (_parseStringToReconstructionSequence plugin (asset_source a) _ re)
      as [[[pa|e1] re1]|] eqn:Hpa; try done.
    2:{ intros [= <- _]. left. by apply parse_loop_Throw in Hpa. }
    pose proof (parsed_plan_from_parser _ _ _ _ _ _ Hpa) as Hfa.
    destruct (_reconstructLocalized (reconstructionSeries pa) _ _ _ _)
      as [ra|e1] eqn:Hra.
    2:{ intros [= <- _]. right.
        destruct (localized_Throw _ _ _ _ _ _ _ Hfa Hra)
          as [[-> ->]|(locale & tok & Hin & Ht)]; [by left|].
        right. left. apply resolver_Throw in Ht as [-> ->]. by split. }
    destruct (_parseStringToReconstructionSequence plugin assetName unsupported
                re1) as [[[pn|e1] re2]|] eqn:Hpn; try done.
    2:{ intros [= <- _]. left. by apply parse_loop_Throw in Hpn. }
    pose proof (parsed_plan_from_parser _ _ _ _ _ _ Hpn) as Hfn.
    destruct (_reconstructLocalized (reconstructionSeries pn) _ _ _ _)
      as [rn|e1] eqn:Hrn.
    2:{ intros [= <- _]. right.
        destruct (localized_Throw _ _ _ _ _ _ _ Hfn Hrn)
          as [[-> ->]|(locale & tok & Hin & Ht)]; [by left|].
        right. right. by injection Ht as <-. }
    destruct (pair_renderings _ _ _ _ _ _ _ _ _ Hra Hrn) as (res & -> & _).
    done.
Qed.

Lemma entry_point_errors_witness :
  TypeError "Cannot read property 'substring' of undefined"
  = TypeError "Cannot read property 'substring' of undefined"
  ∨ (TypeError "Cannot read property 'substring' of undefined"
     = Error "Missing locale name." ∧ "none" = "")
  ∨ TypeError "Cannot read property 'substring' of undefined"
    = Error "unsupported".
Proof.
  apply (proj1 (entry_point_errors table "main.js"
                  {| asset_source := tokenless_source; asset_size := 64 |}
                  mixed_chunks "none" [] 0 _ 63%nat)).
  vm_compute. reflexivity.
Defined.

(** ** A JSONP placeholder in the name of an asset *)

Lemma walk_throws
    (step : IReconstructionElement → loop_vars → completion loop_vars)
    series e :
  (∀ el, el ∈ series →
         (∀ v, ∃ v', step el v = Normal v') ∨ (∀ v, step el v = Throw e)) →
  (∃ el, el ∈ series ∧ ∀ v, step el v = Throw e) →
  ∀ v, for_of step series v = Throw e.
Proof.
  induction series as [|el series IH]; intros Hall (el0 & Hin & Hthrow) v.
  - by apply elem_of_nil in Hin.
  - cbn [for_of]. destruct (Hall el) as [Hok|Hko]; [by left| |by rewrite Hko].
    destruct (Hok v) as [v' Hv']. rewrite Hv'. simpl.
    apply elem_of_cons in Hin as [->|Hin].
    + specialize (Hthrow v). congruence.
    + apply IH; [|by eauto]. intros el' Hin'. apply Hall. by right.
Qed.

Lemma name_step_nonlocalized noStrings el :
  from_parser unsupported el →
  (∀ v, ∃ v', reconstructNonLocalized_element noStrings el v = Normal v')
  ∨ (∀ v, reconstructNonLocalized_element noStrings el v = Throw unsupported_error).
Proof.
  destruct el as [s | vals sz name path | f sz tok]; simpl.
  - left. by eexists.
  - left. by eexists.
  - intros [-> | ->]; [left; by eexists | by right].
Qed.

Lemma name_step_localized dl locale el :
  from_parser unsupported el →
  (∀ v, ∃ v', reconstructLocalized_element false dl locale el v = Normal v')
  ∨ (∀ v, reconstructLocalized_element false dl locale el v
          = Throw unsupported_error).
Proof.
  destruct el as [s | vals sz name path | f sz tok]; simpl.
  - left. by eexists.
  - left. intros v. destruct (vals !! locale) as [[|c s]|]; by eexists.
  - intros [-> | ->]; [left; by eexists | by right].
Qed.

Lemma name_plan_has_jsonp plugin assetName :
  Forall has_token (placeholders assetName) →
  Exists (fun m => elementLabel m = "C") (placeholders assetName) →
  ∃ r,
    _parseStringToReconstructionSequence plugin assetName unsupported 0
    = Some (Normal r, O)
    ∧ ∃ sz tok, dynamic unsupported sz tok ∈ reconstructionSeries r.
Proof.
  intros Hall Hex. eexists. split.
  - unfold _parseStringToReconstructionSequence.
    apply parse_loop_scan; [lia | lia | exact Hall].
  - cbn [reconstructionSeries app]. fold (placeholders assetName).
    apply Exists_exists in Hex as (m & Hin & HC).
    pose proof Hin as Hm. apply list_elem_of_lookup_1 in Hm as [k Hk].
    assert (Htok : is_Some (token m)).
    { rewrite Forall_forall in Hall. by apply (Hall m Hin). }
    destruct Htok as [t Ht].
    exists (len (placeholder m)), (Some (Js.substring t 1 (String.length t - 1))).
    apply list_elem_of_lookup_2 with (2 * k + 1)%nat.
    rewrite (series_of_lookup _ _ _ _ _ _ _ Hk).
    unfold element_of, parse_label. by rewrite HC, Ht.
Qed.

(** X18. A JSONP placeholder (with its token) in the name of an asset is
    refused: once the content of the asset is parsed and rendered, both entry
    points throw [unsupported], the non-localized one always and the
    localized one, without [fillMissingTranslationStrings], as soon as one
    locale is requested; no artifact is produced and no error is pushed. *)
Theorem jsonp_in_asset_name_is_unsupported plugin assetName a chunk
    noStringsLocaleName errors re parsedAsset :
  Forall has_token (placeholders assetName) →
  Exists (fun m => elementLabel m = "C") (placeholders assetName) →
  _parseStringToReconstructionSequence plugin (asset_source a)
    (_getJsonpFunction chunk noStringsLocaleName) re
  = Some (Normal parsedAsset, O) →
  (∀ reconstructedAsset,
     _reconstructNonLocalized (reconstructionSeries parsedAsset) (asset_size a)
       noStringsLocaleName = Normal reconstructedAsset →
     processNonLocalizedAsset plugin assetName a chunk noStringsLocaleName
       errors re = Some (Throw (Error "unsupported"), O))
  ∧ (∀ locale locales defaultLocale reconstructedAsset,
       _reconstructLocalized (reconstructionSeries parsedAsset)
         (locale :: locales) false defaultLocale (asset_size a)
       = Normal reconstructedAsset →
       processLocalizedAsset plugin assetName a chunk noStringsLocaleName
         (locale :: locales) false defaultLocale errors re
       = Some (Throw (Error "unsupported"), O)).
Proof.
  intros Hall Hex Hpa.
  destruct (name_plan_has_jsonp plugin assetName Hall Hex)
    as (pn & Hpn & sz & tok & Hin).
  pose proof (parsed_plan_from_parser _ _ _ _ _ _ Hpn) as Hfn.
  rewrite Forall_forall in Hfn.
  split.
  - intros ra Hra. unfold processNonLocalizedAsset.
    rewrite Hpa, Hra, Hpn. unfold _reconstructNonLocalized.
    rewrite (walk_throws (reconstructNonLocalized_element noStringsLocaleName)
               (reconstructionSeries pn) unsupported_error); [done| |].
    + intros el Hel. by apply name_step_nonlocalized, Hfn.
    + by exists (dynamic unsupported sz tok).
  - intros locale locales dl ra Hra. unfold processLocalizedAsset.
    rewrite Hpa, Hra, Hpn. unfold _reconstructLocalized. cbn [for_of].
    rewrite locale_body.
    rewrite (walk_throws (reconstructLocalized_element false dl locale)
               (reconstructionSeries pn) unsupported_error); [done| |].
    + intros el Hel. by apply name_step_localized, Hfn.
    + by exists (dynamic unsupported sz tok).
Qed.

Lemma jsonp_in_asset_name_is_unsupported_witness :
  processNonLocalizedAsset table chunk_asset_name plain_asset mixed_chunks "none"
    [] 0 = Some (Throw (Error "unsupported"), O).
Proof.
  refine (proj1 (jsonp_in_asset_name_is_unsupported table chunk_asset_name
                   plain_asset mixed_chunks "none" [] 0
                   {| parse_issues := [];
                      reconstructionSeries := [static plain_source] |}
                   _ _ _)
            {| nonloc_result := {| source := plain_source; size := 31 |};
               nonloc_issues := [] |} _).
  - vm_compute.
    repeat (apply Forall_cons; split;
            [intros H; first [discriminate H | by eexists]|]).
    by apply Forall_nil.
  - vm_compute. apply Exists_cons. by left.
  - vm_compute. reflexivity.
  - vm_compute. reflexivity.
Defined.

(** * The element of each placeholder *)

Lemma token_between_plus body :
  Js.substring ("+" +:+ body +:+ "+") 1
    (String.length ("+" +:+ body +:+ "+") - 1) = body.
Proof.
  unfold Js.substring.
  change ("+" +:+ body +:+ "+") with (String "+" (body +:+ "+")).
  cbn [String.length]. rewrite str_length_app. simpl String.length.
  replace (S (String.length body + 1) - 1)%nat with (S (String.length body))
    by lia.
  rewrite Nat.min_l, Nat.max_r by lia.
  replace (S (String.length body) - 1)%nat with (String.length body) by lia.
  cbn [Js.drop]. apply take_app.
Qed.

(** X19. The element the parser makes of each placeholder: in a source
    whose JSONP placeholders have their token, the parser returns, and at the
    place of the [k]-th placeholder the plan holds, by its label, a localized
    element with the values, name and file of the string of that serial
    number when the table knows it, a dynamic element whose value is the
    locale itself, or a dynamic element that calls the JSONP resolver with the
    text between the two [+] of the token; each with the length of the
    placeholder as its size. *)
Theorem placeholder_elements plugin jsonpFunction text k m :
  placeholders text !! k = Some m →
  Forall has_token (placeholders text) →
  ∃ r,
    _parseStringToReconstructionSequence plugin text jsonpFunction 0
    = Some (Normal r, O)
    ∧ (∀ data,
         elementLabel m = "A" →
         plugin (placeholderSerialNumber m) = Some data →
         reconstructionSeries r !! (2 * k + 1)%nat
         = Some (localized (values data) (len (placeholder m))
                   (stringName data) (locFilePath data)))
    ∧ (elementLabel m = "B" →
       reconstructionSeries r !! (2 * k + 1)%nat
       = Some (dynamic (fun locale _ => Normal locale) (len (placeholder m))
                 None))
    ∧ (∀ body,
         elementLabel m = "C" →
         token m = Some ("+" +:+ body +:+ "+") →
         reconstructionSeries r !! (2 * k + 1)%nat
         = Some (dynamic jsonpFunction (len (placeholder m)) (Some body))).
Proof.
  intros Hk Hall. eexists. split.
  - unfold _parseStringToReconstructionSequence.
    apply parse_loop_scan; [lia | lia | exact Hall].
  - cbn [reconstructionSeries app]. fold (placeholders text).
    rewrite (series_of_lookup _ _ _ _ _ _ _ Hk).
    unfold element_of, parse_label. split; [|split].
    + intros data -> Hdata. by rewrite Hdata.
    + by intros ->.
    + intros body -> Htok. rewrite Htok. simpl.
      by rewrite token_between_plus.
Qed.

Lemma placeholder_elements_witness :
  ∃ r,
    _parseStringToReconstructionSequence table missing_serial_source
      unsupported 0 = Some (Normal r, O)
    ∧ reconstructionSeries r !! 3%nat
      = Some (localized {[ "en-us" := "hello"; "fr-fr" := "l'eau" ]}
                (len (Constants.STRING_PLACEHOLDER_PREFIX +:+ "_A_7"))
                "greeting" "strings.loc.json").
Proof.
  destruct (placeholder_elements table unsupported missing_serial_source 1
              known_serial_match) as (r & Hr & HA & _).
  - vm_compute. reflexivity.
  - vm_compute.
    repeat (apply Forall_cons; split;
            [intros H; first [discriminate H | by eexists]|]).
    by apply Forall_nil.
  - exists r. split; [exact Hr|].
    exact (HA {| values := {[ "en-us" := "hello"; "fr-fr" := "l'eau" ]};
                 locFilePath := "strings.loc.json";
                 stringName := "greeting" |} eq_refl eq_refl).
Defined.

(** * A text with one placeholder *)

Lemma single_placeholder_plan plugin jsonp text m :
  placeholders text = [m] → has_token m →
  _parseStringToReconstructionSequence plugin text jsonp 0
  = Some (Normal
            {| parse_issues := issues_of plugin jsonp m;
               reconstructionSeries :=
                 [ static (Js.substring text 0 (index m));
                   element_of plugin jsonp m;
                   static (Js.substr text
                             (index m + String.length (placeholder m))) ] |},
          O).
Proof.
  intros Hms Hm. unfold _parseStringToReconstructionSequence.
  rewrite parse_loop_scan; [| lia | lia |].
  - fold (placeholders text). rewrite Hms. simpl. by rewrite app_nil_r.
  - fold (placeholders text). rewrite Hms. by repeat constructor.
Qed.

(** X20. The locale name placeholder is replaced by the locale: for a text
    whose only placeholder has the label B, the text rendered for a requested
    locale is the text before the placeholder, the locale, and the text after
    the placeholder, and its size is the initial size plus the length of the
    locale minus the length of the placeholder; the non-localized
    reconstructor puts [noStringsLocaleName] in its place. *)
Theorem locale_name_is_substituted plugin jsonpFunction text m :
  placeholders text = [m] →
  elementLabel m = "B" →
  ∃ r,
    _parseStringToReconstructionSequence plugin text jsonpFunction 0
    = Some (Normal r, O)
    ∧ (∀ locales fill defaultLocale initialSize,
         ∃ res,
           _reconstructLocalized (reconstructionSeries r) locales fill
             defaultLocale initialSize = Normal res
           ∧ ∀ locale,
               locale ∈ locales →
               loc_result res !! locale
               = Some {| source :=
                           Js.substring text 0 (index m) +:+ locale
                             +:+ Js.substr text
                                   (index m + String.length (placeholder m));
                         size :=
                           initialSize + (len locale - len (placeholder m)) |})
    ∧ (∀ initialSize noStringsLocaleName,
         _reconstructNonLocalized (reconstructionSeries r) initialSize
           noStringsLocaleName
         = Normal
             {| nonloc_result :=
                  {| source :=
                       Js.substring text 0 (index m) +:+ noStringsLocaleName
                         +:+ Js.substr text
                               (index m + String.length (placeholder m));
                     size :=
                       initialSize
                       + (len noStringsLocaleName - len (placeholder m)) |};
                nonloc_issues := issues_of plugin jsonpFunction m |}).
Proof.
  intros Hms HB.
  assert (Hel : element_of plugin jsonpFunction m
                = dynamic (fun locale _ => Normal locale) (len (placeholder m))
                    None).
  { unfold element_of, parse_label. by rewrite HB. }
  assert (Hiss : issues_of plugin jsonpFunction m = []).
  { unfold issues_of, parse_label. by rewrite HB. }
  eexists. split; [|split].
  - apply single_placeholder_plan; [done|]. intros HC. congruence.
  - intros locales fill dl initialSize. cbn [reconstructionSeries].
    rewrite Hel. unfold _reconstructLocalized.
    destruct (for_of _ locales (∅, [])) as [st|e] eqn:Hst.
    + eexists. split; [reflexivity|]. intros locale Hin. simpl.
      rewrite (locales_loop_lookup _ _ _ _ _ _ _ Hst).
      rewrite bool_decide_eq_true_2 by done. simpl.
      by rewrite str_app_nil_r.
    + exfalso. revert Hst.
      generalize (∅ : gmap string IReconstructedString, @nil string).
      clear. induction locales as [|l locales IH]; intros st; [done|].
      cbn [for_of]. rewrite locale_body. simpl. apply IH.
  - intros initialSize noStrings. cbn [reconstructionSeries].
    rewrite Hel, Hiss. unfold _reconstructNonLocalized. simpl.
    by rewrite str_app_nil_r.
Qed.

Lemma locale_name_is_substituted_witness :
  ∃ r,
    _parseStringToReconstructionSequence table greeting_asset_name unsupported 0
    = Some (Normal r, O)
    ∧ _reconstructNonLocalized (reconstructionSeries r) 70 "none"
      = Normal {| nonloc_result := {| source := "greeting.none.js";
                                      size := 70 + (4 - 58) |};
                  nonloc_issues := [] |}.
Proof.
  destruct (locale_name_is_substituted table unsupported greeting_asset_name
              locale_name_match) as (r & Hr & _ & Hnl).
  - vm_compute. reflexivity.
  - reflexivity.
  - exists r. split; [exact Hr|]. exact (Hnl 70 "none").
Defined.

(** X21. A known string is replaced by its translation: for a text whose
    only placeholder has the label A and a serial number the table knows,
    the text rendered for a requested locale that has a non-empty value is
    the text before the placeholder, that value with its quotes escaped, and
    the text after the placeholder; its size is the initial size plus the
    length of the escaped value minus the length of the placeholder. *)
Theorem known_string_is_substituted plugin jsonpFunction text m data locale
    value :
  placeholders text = [m] →
  elementLabel m = "A" →
  plugin (placeholderSerialNumber m) = Some data →
  values data !! locale = Some value → value ≠ "" →
  ∃ r,
    _parseStringToReconstructionSequence plugin text jsonpFunction 0
    = Some (Normal r, O)
    ∧ parse_issues r = []
    ∧ ∀ fill defaultLocale initialSize,
        _reconstructLocalized (reconstructionSeries r) [locale] fill
          defaultLocale initialSize
        = Normal
            {| loc_result :=
                 {[ locale :=
                      {| source :=
                           Js.substring text 0 (index m)
                             +:+ escape_quotes value
                             +:+ Js.substr text
                                   (index m + String.length (placeholder m));
                         size :=
                           initialSize
                           + (len (escape_quotes value) - len (placeholder m)) |} ]};
               loc_issues := [] |}.
Proof.
  intros Hms HA Hdata Hvalue Hne.
  assert (Hel : element_of plugin jsonpFunction m
                = localized (values data) (len (placeholder m))
                    (stringName data) (locFilePath data)).
  { unfold element_of, parse_label. by rewrite HA, Hdata. }
  assert (Hiss : issues_of plugin jsonpFunction m = []).
  { unfold issues_of, parse_label. by rewrite HA, Hdata. }
  eexists. split; [|split].
  - apply single_placeholder_plan; [done|]. intros HC. congruence.
  - exact Hiss.
  - intros fill dl initialSize. cbn [reconstructionSeries]. rewrite Hel.
    rewrite reconstructLocalized_one_locale. simpl. rewrite Hvalue.
    destruct value as [|c value]; [done|]. simpl.
    by rewrite str_app_nil_r.
Qed.

Lemma known_string_is_substituted_witness :
  ∃ r,
    _parseStringToReconstructionSequence table greeting_source unsupported 0
    = Some (Normal r, O)
    ∧ parse_issues r = []
    ∧ _reconstructLocalized (reconstructionSeries r) ["fr-fr"] false "en-us" 59
      = Normal {| loc_result :=
                    {[ "fr-fr" := {| source := "l" +:+ u0027 +:+ "eau;";
                                     size := 59 + (10 - 58) |} ]};
                  loc_issues := [] |}.
Proof.
  destruct (known_string_is_substituted table unsupported greeting_source
              greeting_match
              {| values := {[ "en-us" := "hello"; "fr-fr" := "l'eau" ]};
                 locFilePath := "strings.loc.json";
                 stringName := "greeting" |}
              "fr-fr" "l'eau") as (r & Hr & Hiss & Hrender).
  - vm_compute. reflexivity.
  - reflexivity.
  - reflexivity.
  - vm_compute. reflexivity.
  - discriminate.
  - exists r. split; [exact Hr|]. split; [exact Hiss|].
    exact (Hrender false "en-us" 59).
Defined.
